(** * Lasagne update rules ([lasagne/updates.py]): a shallow embedding

    The Python module builds Theano update lists: every rule takes a loss
    expression and a list of shared variables and returns a list of
    [(target, new-expression)] pairs; [norm_constraint] wraps an expression
    into a rescaled one.  Nothing is evaluated while a plan is built, so the
    embedding has two layers:

    - a symbolic layer: Theano expressions are an inductive type [expr], the
      shared-variable heap of the Theano process is an explicit [Store], and
      the rules run in a state-and-failure monad over it;
    - a denotational layer: expressions evaluate to tensors over the real
      numbers, elementwise with NumPy broadcasting; an element is [None]
      where IEEE arithmetic would leave the reals (division by zero, square
      root of a negative number). *)

From Stdlib Require Import String Ascii DecimalString DecimalNat.
From Stdlib Require Import List Arith Lia ZArith Bool.
From Stdlib Require Import Reals Lra.
Import ListNotations.

(** ** NumPy arrays *)

Module Numpy.

(** The element types a shared variable can hold. *)
Inductive dtype : Type :=
| float16 | float32 | float64
| int8 | int16 | int32 | int64.

Definition dtype_eq_dec (a b : dtype) : {a = b} + {a <> b}.
Proof. decide equality. Defined.

(** An array: element type, shape, and the elements in row-major order. *)
Record ndarray : Type := mk_ndarray
  { nd_dtype : dtype;
    nd_shape : list nat;
    nd_data : list R }.

Definition size (shape : list nat) : nat := fold_right Nat.mul 1 shape.

(** [np.zeros(shape, dtype=dt)] *)
Definition zeros (shape : list nat) (dt : dtype) : ndarray :=
  {| nd_dtype := dt; nd_shape := shape; nd_data := repeat 0%R (size shape) |}.

End Numpy.

(** ** Theano: symbolic expressions and shared variables *)

Module Theano.
Import Numpy.

(** A shared variable is a handle into the store. *)
Definition var : Type := nat.

(** The expression nodes the module builds.  [EGrad loss wrt] is the
    gradient node [theano.grad] returns for one parameter; [ESum e axes] is
    [T.sum(e, axis=axes, keepdims=True)], the only form of sum in the
    module; [EPow e n] is [e**n] for an integer literal [n]. *)
Inductive expr : Type :=
| EShared (v : var)
| EConst (c : R)
| EGrad (loss : expr) (wrt : var)
| EAdd (a b : expr)
| ESub (a b : expr)
| EMul (a b : expr)
| EDiv (a b : expr)
| EPow (a : expr) (n : nat)
| ESqr (a : expr)
| ESqrt (a : expr)
| EClip (a lo hi : expr)
| ESum (a : expr) (axes : list Z).

(** [theano.grad(loss, wrt)] for a list [wrt]: one gradient expression per
    parameter, in the order of [wrt]. *)
Definition grad (loss : expr) (wrt : list var) : list expr :=
  map (EGrad loss) wrt.

(** A [TensorVariable] as [norm_constraint] sees it: the expression and
    the number of dimensions its type records. *)
Record TensorVariable : Type := mk_tensor
  { tv_expr : expr;
    ndim : nat }.

(** The shared variables of the process: the value of variable [v] is the
    [v]-th entry. *)
Definition Store : Type := list ndarray.

(** Graph construction reads and extends the store and can fail. *)
Definition M (A : Type) : Type := Store -> option (A * Store).

Definition ret {A} (a : A) : M A := fun s => Some (a, s).

Definition bind {A B} (m : M A) (k : A -> M B) : M B :=
  fun s => match m s with
           | Some (a, s') => k a s'
           | None => None
           end.

(** [v.get_value()]: fails on a handle that is not a shared variable. *)
Definition get_value (v : var) : M ndarray :=
  fun s => match nth_error s v with
           | Some a => Some (a, s)
           | None => None
           end.

(** [theano.shared(value)]: a fresh shared variable holding [value]. *)
Definition shared (value : ndarray) : M var :=
  fun s => Some (length s, s ++ [value]).

End Theano.

Declare Scope monad_scope.
Delimit Scope monad_scope with monad.
Notation "x <- c1 ;; c2" := (Theano.bind c1 (fun x => c2))
  (at level 61, c1 at next level, right associativity) : monad_scope.
Notation "' pat <- c1 ;; c2" := (Theano.bind c1 (fun x => match x with pat => c2 end))
  (at level 61, pat pattern, c1 at next level, right associativity) : monad_scope.

(** ** Python control structures *)

Module Py.
Import Theano.
Local Open Scope monad_scope.

(** [for x in xs: body], threading the local state [acc] of the loop. *)
Fixpoint for_each {A S} (xs : list A) (body : A -> S -> M S) (acc : S) : M S :=
  match xs with
  | [] => ret acc
  | x :: rest => acc' <- body x acc ;; for_each rest body acc'
  end.

(** [[f(x) for x in xs]] with an effectful [f]. *)
Fixpoint comprehension {A B} (f : A -> M B) (xs : list A) : M (list B) :=
  match xs with
  | [] => ret []
  | x :: rest => y <- f x ;; ys <- comprehension f rest ;; ret (y :: ys)
  end.

(** [zip] of two, three and four lists stops at the shortest. *)
Definition zip {A B} (a : list A) (b : list B) : list (A * B) := combine a b.

Definition zip3 {A B C} (a : list A) (b : list B) (c : list C)
  : list (A * B * C) :=
  map (fun '(x, (y, z)) => (x, y, z)) (combine a (combine b c)).

Definition zip4 {A B C D} (a : list A) (b : list B) (c : list C) (d : list D)
  : list (A * B * C * D) :=
  map (fun '(x, (y, (z, w))) => (x, y, z, w))
      (combine a (combine b (combine c d))).

(** [zip(xs, itertools.count(k))]: a list with the positions of its
    elements. *)
Definition indexed {A} (ps : list A) (k : nat) : list (A * nat) :=
  combine ps (seq k (length ps)).

(** [range(lo, hi)] *)
Definition range (lo hi : nat) : list nat := seq lo (hi - lo).

End Py.

(** ** The module [lasagne.updates] *)

Module Updates.
Import Numpy Theano Py.
Local Open Scope monad_scope.

(** An update list: [(shared variable, new expression)] pairs. *)
Definition updates : Type := list (var * expr).

(** What building a graph can raise: the [ValueError] of [norm_constraint]
    itself, with its message, and the [ValueError] Theano's sum raises for
    an axis outside the rank of its argument, whose message is Theano's own
    and is not modelled. *)
Inductive exn : Type :=
| ValueError (msg : string)
| TheanoValueError.

Section Rules.

(** [theano.config.floatX] *)
Variable floatX : dtype.

(** [theano.shared(np.zeros(param.get_value().shape, dtype=floatX))],
    the accumulator every stateful rule creates per parameter. *)
Definition shared_zeros_like (param : var) : M var :=
  value <- get_value param ;;
  shared (zeros (nd_shape value) floatX).

Definition sgd (loss : expr) (all_params : list var) (learning_rate : R)
  : M updates :=
  let all_grads := grad loss all_params in
  for_each (zip all_params all_grads)
    (fun '(param_i, grad_i) updates =>
       ret (updates ++
            [(param_i,
              ESub (EShared param_i) (EMul (EConst learning_rate) grad_i))]))
    [].

Definition momentum (loss : expr) (all_params : list var)
           (learning_rate momentum : R) : M updates :=
  let all_grads := grad loss all_params in
  for_each (zip all_params all_grads)
    (fun '(param_i, grad_i) updates =>
       mparam_i <- shared_zeros_like param_i ;;
       let v := ESub (EMul (EConst momentum) (EShared mparam_i))
                     (EMul (EConst learning_rate) grad_i) in
       let updates := updates ++ [(mparam_i, v)] in
       ret (updates ++ [(param_i, EAdd (EShared param_i) v)]))
    [].

Definition nesterov_momentum (loss : expr) (all_params : list var)
           (learning_rate momentum : R) : M updates :=
  let all_grads := grad loss all_params in
  for_each (zip all_params all_grads)
    (fun '(param_i, grad_i) updates =>
       mparam_i <- shared_zeros_like param_i ;;
       let v := ESub (EMul (EConst momentum) (EShared mparam_i))
                     (EMul (EConst learning_rate) grad_i) in
       let w := ESub (EAdd (EShared param_i) (EMul (EConst momentum) v))
                     (EMul (EConst learning_rate) grad_i) in
       let updates := updates ++ [(mparam_i, v)] in
       ret (updates ++ [(param_i, w)]))
    [].

Definition adagrad (loss : expr) (all_params : list var)
           (learning_rate epsilon : R) : M updates :=
  let all_grads := grad loss all_params in
  all_accumulators <- comprehension shared_zeros_like all_params ;;
  for_each (zip3 all_params all_grads all_accumulators)
    (fun '(param_i, grad_i, acc_i) updates =>
       let acc_i_new := EAdd (EShared acc_i) (EPow grad_i 2) in
       let updates := updates ++ [(acc_i, acc_i_new)] in
       ret (updates ++
            [(param_i,
              ESub (EShared param_i)
                   (EDiv (EMul (EConst learning_rate) grad_i)
                         (ESqrt (EAdd acc_i_new (EConst epsilon)))))]))
    [].

Definition rmsprop (loss : expr) (all_params : list var)
           (learning_rate rho epsilon : R) : M updates :=
  let all_grads := grad loss all_params in
  all_accumulators <- comprehension shared_zeros_like all_params ;;
  for_each (zip3 all_params all_grads all_accumulators)
    (fun '(param_i, grad_i, acc_i) updates =>
       let acc_i_new := EAdd (EMul (EConst rho) (EShared acc_i))
                             (EMul (EConst (1 - rho)) (EPow grad_i 2)) in
       let updates := updates ++ [(acc_i, acc_i_new)] in
       ret (updates ++
            [(param_i,
              ESub (EShared param_i)
                   (EDiv (EMul (EConst learning_rate) grad_i)
                         (ESqrt (EAdd acc_i_new (EConst epsilon)))))]))
    [].

Definition adadelta (loss : expr) (all_params : list var)
           (learning_rate rho epsilon : R) : M updates :=
  let all_grads := grad loss all_params in
  all_accumulators <- comprehension shared_zeros_like all_params ;;
  all_delta_accumulators <- comprehension shared_zeros_like all_params ;;
  for_each (zip4 all_params all_grads all_accumulators
                 all_delta_accumulators)
    (fun '(param_i, grad_i, acc_i, acc_delta_i) updates =>
       let acc_i_new := EAdd (EMul (EConst rho) (EShared acc_i))
                             (EMul (EConst (1 - rho)) (EPow grad_i 2)) in
       let updates := updates ++ [(acc_i, acc_i_new)] in
       let update_i :=
         EDiv (EMul grad_i (ESqrt (EAdd (EShared acc_delta_i)
                                        (EConst epsilon))))
              (ESqrt (EAdd acc_i_new (EConst epsilon))) in
       let updates :=
         updates ++
         [(param_i,
           ESub (EShared param_i) (EMul (EConst learning_rate) update_i))] in
       let acc_delta_i_new :=
         EAdd (EMul (EConst rho) (EShared acc_delta_i))
              (EMul (EConst (1 - rho)) (EPow update_i 2)) in
       ret (updates ++ [(acc_delta_i, acc_delta_i_new)]))
    [].

End Rules.

(** [str.format] of a non-negative integer. *)
Definition format_nat (n : nat) : string :=
  NilEmpty.string_of_uint (Nat.to_uint n).

(** Lines 196-206: the axes the norm is taken over. *)
Definition sum_over (ndim : nat) (norm_axes : option (list Z))
  : exn + list Z :=
  match norm_axes with
  | Some axes => inr axes
  | None =>
      if ndim =? 2 then inr [0%Z]
      else if existsb (Nat.eqb ndim) [3; 4; 5]
           then inr (map Z.of_nat (range 1 ndim))
           else inl (ValueError
                       ("Unsupported tensor dimensionality "
                          ++ format_nat ndim
                          ++ ".Must specify `norm_axes`")%string)
  end.

(** Lines 208-214: the rescaled expression for given axes.  The casts
    [dtype(max_norm)] and [dtype(epsilon)] to [floatX] round a number; over
    the reals they are the identity. *)
Definition constrained_output (tensor_var : expr) (max_norm : R)
           (axes : list Z) (epsilon : R) : expr :=
  let norms := ESqrt (ESum (ESqr tensor_var) axes) in
  let target_norms := EClip norms (EConst 0) (EConst max_norm) in
  EMul tensor_var (EDiv target_norms (EAdd (EConst epsilon) norms)).

(** The function as the graph it describes: the choice of the axes and the
    rescaled expression.  The check of the axes that building the sum makes
    is in [norm_constraint_checked] below. *)
Definition norm_constraint (tensor_var : TensorVariable) (max_norm : R)
           (norm_axes : option (list Z)) (epsilon : R) : exn + expr :=
  match sum_over (ndim tensor_var) norm_axes with
  | inl e => inl e
  | inr axes =>
      inr (constrained_output (tv_expr tensor_var) max_norm axes epsilon)
  end.

(** [T.sum] (line 209) checks its axes when it builds the node: each must be
    an axis of the tensor, counted from the front or, when negative, from
    the end. *)
Definition axis_in_rank (ndim : nat) (a : Z) : bool :=
  ((- Z.of_nat ndim <=? a) && (a <? Z.of_nat ndim))%Z.

(** [norm_constraint] with that check of [T.sum]: after the axes are chosen
    (lines 196-206), building the sum raises for an axis outside the rank;
    otherwise the rescaled expression is returned. *)
Definition norm_constraint_checked (tensor_var : TensorVariable)
           (max_norm : R) (norm_axes : option (list Z)) (epsilon : R)
  : exn + expr :=
  match sum_over (ndim tensor_var) norm_axes with
  | inl e => inl e
  | inr axes =>
      if forallb (axis_in_rank (ndim tensor_var)) axes
      then inr (constrained_output (tv_expr tensor_var) max_norm axes epsilon)
      else inl TheanoValueError
  end.

End Updates.

(** ** Evaluation of expressions

    What a compiled Theano function computes for an expression, over the
    real numbers.  A tensor value is its shape and its elements by index; an
    element is [None] where the IEEE result is not a real number. *)

Module Eval.
Import Numpy Theano.

Definition index : Type := list nat.

Record tensor : Type := mk_value
  { shape : list nat;
    elem : index -> option R }.

(** [idx] addresses an element of an array of shape [shp]. *)
Definition in_bounds (shp : list nat) (idx : index) : Prop :=
  Forall2 lt idx shp.

(** Two values agree: same shape, same elements. *)
Definition same_value (a b : tensor) : Prop :=
  shape a = shape b /\
  forall idx, in_bounds (shape a) idx -> elem a idx = elem b idx.

Definition same_result (a b : option tensor) : Prop :=
  match a, b with
  | Some x, Some y => same_value x y
  | None, None => True
  | _, _ => False
  end.

(** *** Scalar operations *)

Definition r_div (x y : R) : option R :=
  if Req_dec_T y 0 then None else Some (x / y)%R.

Definition r_sqrt (x : R) : option R :=
  if Rlt_dec x 0 then None else Some (sqrt x).

(** Theano's [Clip]: [x < min ? min : x > max ? max : x]. *)
Definition r_clip (x lo hi : R) : R :=
  if Rlt_dec x lo then lo else if Rlt_dec hi x then hi else x.

(** *** Broadcasting (NumPy rules: shapes are aligned at the last axis;
    two sizes are compatible when equal or when one of them is 1) *)

Definition broadcast_dim (a b : nat) : option nat :=
  if a =? b then Some a
  else if a =? 1 then Some b
  else if b =? 1 then Some a
  else None.

(** On shapes written last axis first. *)
Fixpoint broadcast_rev (a b : list nat) : option (list nat) :=
  match a, b with
  | [], _ => Some b
  | _, [] => Some a
  | x :: a', y :: b' =>
      match broadcast_dim x y, broadcast_rev a' b' with
      | Some d, Some r => Some (d :: r)
      | _, _ => None
      end
  end.

Definition broadcast_shape (a b : list nat) : option (list nat) :=
  option_map (@rev nat) (broadcast_rev (rev a) (rev b)).

(** The index into an operand of shape [shp] for the result index [idx]:
    leading axes the operand lacks are dropped, axes of size 1 repeat. *)
Definition broadcast_index (shp : list nat) (idx : index) : index :=
  map (fun '(d, i) => if d =? 1 then 0 else i)
      (combine shp (skipn (length idx - length shp) idx)).

Definition lift1 (f : R -> option R) (a : tensor) : tensor :=
  {| shape := shape a;
     elem := fun idx => match elem a idx with
                        | Some x => f x
                        | None => None
                        end |}.

Definition lift2 (f : R -> R -> option R) (a b : tensor) : option tensor :=
  match broadcast_shape (shape a) (shape b) with
  | Some shp =>
      Some {| shape := shp;
              elem := fun idx =>
                match elem a (broadcast_index (shape a) idx),
                      elem b (broadcast_index (shape b) idx) with
                | Some x, Some y => f x y
                | _, _ => None
                end |}
  | None => None
  end.

Definition lift3 (f : R -> R -> R -> option R) (a b c : tensor)
  : option tensor :=
  match broadcast_shape (shape a) (shape b) with
  | Some ab =>
      match broadcast_shape ab (shape c) with
      | Some shp =>
          Some {| shape := shp;
                  elem := fun idx =>
                    match elem a (broadcast_index (shape a) idx),
                          elem b (broadcast_index (shape b) idx),
                          elem c (broadcast_index (shape c) idx) with
                    | Some x, Some y, Some z => f x y z
                    | _, _, _ => None
                    end |}
      | None => None
      end
  | None => None
  end.

(** *** Sum over axes, [keepdims=True] *)

(** An axis of a rank-[n] tensor, counted from the end when negative. *)
Definition normalize_axis (n : nat) (a : Z) : option nat :=
  if ((0 <=? a) && (a <? Z.of_nat n))%Z then Some (Z.to_nat a)
  else if ((a <? 0) && (- Z.of_nat n <=? a))%Z
       then Some (Z.to_nat (a + Z.of_nat n))
       else None.

Fixpoint normalize_axes (n : nat) (axes : list Z) : option (list nat) :=
  match axes with
  | [] => Some []
  | a :: rest =>
      match normalize_axis n a, normalize_axes n rest with
      | Some k, Some ks => Some (k :: ks)
      | _, _ => None
      end
  end.

Definition reduced (ax : list nat) (k : nat) : bool :=
  existsb (Nat.eqb k) ax.

(** The shape after the sum: reduced axes have size 1.  [k] is the axis
    number of the head of [shp]. *)
Fixpoint keepdims_shape (k : nat) (ax : list nat) (shp : list nat)
  : list nat :=
  match shp with
  | [] => []
  | d :: rest =>
      (if reduced ax k then 1 else d) :: keepdims_shape (S k) ax rest
  end.

(** The indices summed into the result element at [idx]: every position
    along a reduced axis, the position of [idx] along the others. *)
Fixpoint slice (k : nat) (ax : list nat) (shp : list nat) (idx : index)
  : list index :=
  match shp, idx with
  | d :: shp', i :: idx' =>
      let rest := slice (S k) ax shp' idx' in
      if reduced ax k
      then flat_map (fun j => map (cons j) rest) (seq 0 d)
      else map (cons i) rest
  | _, _ => [[]]
  end.

Fixpoint sum_elems (l : list (option R)) : option R :=
  match l with
  | [] => Some 0%R
  | x :: rest =>
      match x, sum_elems rest with
      | Some a, Some b => Some (a + b)%R
      | _, _ => None
      end
  end.

Definition sum_keepdims (axes : list Z) (a : tensor) : option tensor :=
  match normalize_axes (length (shape a)) axes with
  | Some ax =>
      Some {| shape := keepdims_shape 0 ax (shape a);
              elem := fun idx =>
                sum_elems (map (elem a) (slice 0 ax (shape a) idx)) |}
  | None => None
  end.

(** *** Environments and evaluation *)

(** The value of every shared variable and of every gradient node. *)
Record Env : Type := mk_env
  { shared_value : var -> option tensor;
    grad_value : expr -> var -> option tensor }.

Definition scalar (c : R) : tensor :=
  {| shape := []; elem := fun _ => Some c |}.

Definition opt_bind {A B} (o : option A) (k : A -> option B) : option B :=
  match o with
  | Some a => k a
  | None => None
  end.

Definition total2 (f : R -> R -> R) (x y : R) : option R := Some (f x y).

Fixpoint eval (env : Env) (e : expr) : option tensor :=
  match e with
  | EShared v => shared_value env v
  | EConst c => Some (scalar c)
  | EGrad loss wrt => grad_value env loss wrt
  | EAdd a b =>
      opt_bind (eval env a) (fun x =>
      opt_bind (eval env b) (fun y => lift2 (total2 Rplus) x y))
  | ESub a b =>
      opt_bind (eval env a) (fun x =>
      opt_bind (eval env b) (fun y => lift2 (total2 Rminus) x y))
  | EMul a b =>
      opt_bind (eval env a) (fun x =>
      opt_bind (eval env b) (fun y => lift2 (total2 Rmult) x y))
  | EDiv a b =>
      opt_bind (eval env a) (fun x =>
      opt_bind (eval env b) (fun y => lift2 r_div x y))
  | EPow a n =>
      opt_bind (eval env a) (fun x =>
      Some (lift1 (fun r => Some (r ^ n)%R) x))
  | ESqr a =>
      opt_bind (eval env a) (fun x =>
      Some (lift1 (fun r => Some (r * r)%R) x))
  | ESqrt a =>
      opt_bind (eval env a) (fun x => Some (lift1 r_sqrt x))
  | EClip a lo hi =>
      opt_bind (eval env a) (fun x =>
      opt_bind (eval env lo) (fun l =>
      opt_bind (eval env hi) (fun h =>
      lift3 (fun r rl rh => Some (r_clip r rl rh)) x l h)))
  | ESum a axes =>
      opt_bind (eval env a) (fun x => sum_keepdims axes x)
  end.

(** *** Shared variables as values *)

(** Row-major offset of [idx] in an array of shape [shp]. *)
Fixpoint ravel (shp : list nat) (idx : index) (offset : nat) : nat :=
  match shp, idx with
  | d :: shp', i :: idx' => ravel shp' idx' (offset * d + i)
  | _, _ => offset
  end.

Definition value_of (a : ndarray) : tensor :=
  {| shape := nd_shape a;
     elem := fun idx => nth_error (nd_data a) (ravel (nd_shape a) idx 0) |}.

(** The environment a store gives, for given gradient values. *)
Definition env_of (s : Store) (grads : expr -> var -> option tensor) : Env :=
  {| shared_value := fun v => option_map value_of (nth_error s v);
     grad_value := grads |}.

(** *** One element of an elementwise expression *)

(** The value of expression [e] at one index, from the values of its
    leaves at that index.  A sum is not elementwise. *)
Fixpoint pointwise (sv : var -> option R) (gv : expr -> var -> option R)
         (e : expr) : option R :=
  match e with
  | EShared v => sv v
  | EConst c => Some c
  | EGrad loss wrt => gv loss wrt
  | EAdd a b =>
      opt_bind (pointwise sv gv a) (fun x =>
      opt_bind (pointwise sv gv b) (fun y => Some (x + y)%R))
  | ESub a b =>
      opt_bind (pointwise sv gv a) (fun x =>
      opt_bind (pointwise sv gv b) (fun y => Some (x - y)%R))
  | EMul a b =>
      opt_bind (pointwise sv gv a) (fun x =>
      opt_bind (pointwise sv gv b) (fun y => Some (x * y)%R))
  | EDiv a b =>
      opt_bind (pointwise sv gv a) (fun x =>
      opt_bind (pointwise sv gv b) (fun y => r_div x y))
  | EPow a n => opt_bind (pointwise sv gv a) (fun x => Some (x ^ n)%R)
  | ESqr a => opt_bind (pointwise sv gv a) (fun x => Some (x * x)%R)
  | ESqrt a => opt_bind (pointwise sv gv a) r_sqrt
  | EClip a lo hi =>
      opt_bind (pointwise sv gv a) (fun x =>
      opt_bind (pointwise sv gv lo) (fun l =>
      opt_bind (pointwise sv gv hi) (fun h => Some (r_clip x l h))))
  | ESum _ _ => None
  end.

Definition shared_at (env : Env) (idx : index) (v : var) : option R :=
  opt_bind (shared_value env v) (fun t => elem t idx).

Definition grad_at (env : Env) (idx : index) (loss : expr) (wrt : var)
  : option R :=
  opt_bind (grad_value env loss wrt) (fun t => elem t idx).

(** [e] has no sum and its variables and gradients all have shape [shp]. *)
Fixpoint leaves_shaped (env : Env) (shp : list nat) (e : expr) : Prop :=
  match e with
  | EShared v => exists t, shared_value env v = Some t /\ shape t = shp
  | EConst _ => True
  | EGrad loss wrt =>
      exists t, grad_value env loss wrt = Some t /\ shape t = shp
  | EAdd a b | ESub a b | EMul a b | EDiv a b =>
      leaves_shaped env shp a /\ leaves_shaped env shp b
  | EPow a _ | ESqr a | ESqrt a => leaves_shaped env shp a
  | EClip a lo hi =>
      leaves_shaped env shp a /\ leaves_shaped env shp lo /\
      leaves_shaped env shp hi
  | ESum _ _ => False
  end.

(** [e] mentions a variable or a gradient. *)
Fixpoint has_leaf (e : expr) : bool :=
  match e with
  | EShared _ | EGrad _ _ => true
  | EConst _ => false
  | EAdd a b | ESub a b | EMul a b | EDiv a b => has_leaf a || has_leaf b
  | EPow a _ | ESqr a | ESqrt a | ESum a _ => has_leaf a
  | EClip a lo hi => has_leaf a || has_leaf lo || has_leaf hi
  end.

(** The shape of an elementwise expression over leaves of shape [shp]:
    constants alone give a scalar. *)
Definition shape_if (shp : list nat) (b : bool) : list nat :=
  if b then shp else [].

(** In [env], parameter [p], its gradient and the accumulators [accs]
    all have shape [shp]. *)
Definition shaped (env : Env) (shp : list nat) (loss : expr) (p : var)
           (accs : list var) : Prop :=
  (forall v, In v (p :: accs) ->
             exists t, shared_value env v = Some t /\ shape t = shp) /\
  (exists t, grad_value env loss p = Some t /\ shape t = shp).

(** Expression [e] evaluates to a tensor of shape [shp] whose element at
    [idx] is [r]. *)
Definition value_at (env : Env) (shp : list nat) (e : expr) (idx : index)
           (r : option R) : Prop :=
  exists t, eval env e = Some t /\ shape t = shp /\ elem t idx = r.

(** One element of the output of [norm_constraint], from the element [x]
    and the norm [n] of its slice. *)
Definition rescale (max_norm epsilon x n : R) : option R :=
  opt_bind (r_div (r_clip n 0 max_norm) (epsilon + n))
           (fun c => Some (x * c)%R).

(** The norm [norm_constraint] computes for the slice through [idx]. *)
Definition squared (g : index -> option R) (j : index) : option R :=
  opt_bind (g j) (fun r => Some (r * r)%R).

Definition slice_norm (ax : list nat) (a : tensor) (idx : index) : option R :=
  opt_bind
    (sum_elems (map (squared (elem a)) (slice 0 ax (shape a) idx)))
    r_sqrt.

End Eval.

(** ** The rules, uniformly *)

Module Rules.
Import Numpy Theano Py Updates.

Inductive rule : Type :=
| Sgd | Momentum | NesterovMomentum | Adagrad | Rmsprop | Adadelta.

(** The hyperparameters a rule may read. *)
Record hyper : Type := mk_hyper
  { learning_rate : R;
    momentum_coef : R;
    rho : R;
    epsilon : R }.

Definition run (floatX : dtype) (r : rule) (h : hyper)
           (loss : expr) (all_params : list var) : M updates :=
  match r with
  | Sgd => sgd loss all_params (learning_rate h)
  | Momentum =>
      momentum floatX loss all_params (learning_rate h) (momentum_coef h)
  | NesterovMomentum =>
      nesterov_momentum floatX loss all_params (learning_rate h)
                        (momentum_coef h)
  | Adagrad => adagrad floatX loss all_params (learning_rate h) (epsilon h)
  | Rmsprop =>
      rmsprop floatX loss all_params (learning_rate h) (rho h) (epsilon h)
  | Adadelta =>
      adadelta floatX loss all_params (learning_rate h) (rho h) (epsilon h)
  end.

(** Entries of the plan per parameter. *)
Definition multiplicity (r : rule) : nat :=
  match r with
  | Sgd => 1
  | Momentum | NesterovMomentum | Adagrad | Rmsprop => 2
  | Adadelta => 3
  end.

(** Every handle of [ps] is a shared variable of [s]. *)
Definition allocated (s : Store) (ps : list var) : Prop :=
  Forall (fun p => p < length s) ps.

(** The array a new accumulator for [p] holds. *)
Definition zeros_for (floatX : dtype) (s : Store) (p : var) : ndarray :=
  match nth_error s p with
  | Some a => zeros (nd_shape a) floatX
  | None => zeros [] floatX
  end.

Definition targets (plan : updates) : list var := map fst plan.

(** The entries one parameter [p] with gradient [g] contributes, when its
    first accumulator is [a] and its second one is [d]. *)
Definition entries_with (r : rule) (h : hyper) (g : expr) (p a d : var)
  : updates :=
  let lr := EConst (learning_rate h) in
  let eps := EConst (epsilon h) in
  match r with
  | Sgd => [(p, ESub (EShared p) (EMul lr g))]
  | Momentum =>
      let v := ESub (EMul (EConst (momentum_coef h)) (EShared a))
                    (EMul lr g) in
      [(a, v); (p, EAdd (EShared p) v)]
  | NesterovMomentum =>
      let v := ESub (EMul (EConst (momentum_coef h)) (EShared a))
                    (EMul lr g) in
      [(a, v);
       (p, ESub (EAdd (EShared p) (EMul (EConst (momentum_coef h)) v))
                (EMul lr g))]
  | Adagrad =>
      let acc_new := EAdd (EShared a) (EPow g 2) in
      [(a, acc_new);
       (p, ESub (EShared p) (EDiv (EMul lr g) (ESqrt (EAdd acc_new eps))))]
  | Rmsprop =>
      let acc_new := EAdd (EMul (EConst (rho h)) (EShared a))
                          (EMul (EConst (1 - rho h)) (EPow g 2)) in
      [(a, acc_new);
       (p, ESub (EShared p) (EDiv (EMul lr g) (ESqrt (EAdd acc_new eps))))]
  | Adadelta =>
      let acc_new := EAdd (EMul (EConst (rho h)) (EShared a))
                          (EMul (EConst (1 - rho h)) (EPow g 2)) in
      let update := EDiv (EMul g (ESqrt (EAdd (EShared d) eps)))
                         (ESqrt (EAdd acc_new eps)) in
      [(a, acc_new);
       (p, ESub (EShared p) (EMul lr update));
       (d, EAdd (EMul (EConst (rho h)) (EShared d))
                (EMul (EConst (1 - rho h)) (EPow update 2)))]
  end.

Definition entries (r : rule) (h : hyper) (loss : expr) (p a d : var)
  : updates :=
  entries_with r h (EGrad loss p) p a d.

(** The plan for parameters [ps] when the accumulators are created from
    handle [base] on: the first ones at [base + i], the second ones after
    all the first. *)
Definition plan_of (r : rule) (h : hyper) (loss : expr) (ps : list var)
           (base : nat) : updates :=
  flat_map (fun '(p, i) =>
              entries r h loss p (base + i) (base + length ps + i))
           (indexed ps 0).

(** The arrays the rule adds to the store, in order of creation. *)
Definition new_arrays (floatX : dtype) (r : rule) (s : Store)
           (ps : list var) : list ndarray :=
  concat (repeat (map (zeros_for floatX s) ps) (multiplicity r - 1)).

End Rules.

(** ** Sample inputs *)

Module Samples.
Import Numpy Theano Rules Eval.

(** The documented defaults. *)
Definition sample_hyper : hyper :=
  {| learning_rate := 1; momentum_coef := 0.9; rho := 0.95;
     epsilon := 1e-6 |}.

Definition sample_store : Store :=
  [ {| nd_dtype := float32; nd_shape := [2]; nd_data := [5; 7]%R |};
    {| nd_dtype := float32; nd_shape := [1; 2]; nd_data := [1; 2]%R |} ].

(** One scalar (0-d) single-precision parameter, and one in double
    precision. *)
Definition scalar_store : Store :=
  [ {| nd_dtype := float32; nd_shape := []; nd_data := [5]%R |} ].

Definition scalar_float64_store : Store :=
  [ {| nd_dtype := float64; nd_shape := []; nd_data := [5]%R |} ].

(** A matrix with columns (12, 16) and (3, 4), of norms 20 and 5. *)
Definition columns_store : Store :=
  [ {| nd_dtype := float64; nd_shape := [2; 2];
       nd_data := [12; 3; 16; 4]%R |} ].

(** A matrix with a zero column. *)
Definition zero_column_store : Store :=
  [ {| nd_dtype := float64; nd_shape := [2; 2];
       nd_data := [0; 3; 0; 4]%R |} ].

Definition no_grads : expr -> var -> option tensor := fun _ _ => None.

Definition columns_env : Env := env_of columns_store no_grads.

Definition zero_column_env : Env := env_of zero_column_store no_grads.

(** The matrix, as a rank-2 tensor variable. *)
Definition matrix_var : TensorVariable := mk_tensor (EShared 0) 2.

(** Scalar values: the parameter is [x], its gradient [g], every other
    shared variable [a]. *)
Definition scalar_env (p : var) (x g a : R) : Env :=
  {| shared_value := fun v => Some (scalar (if v =? p then x else a));
     grad_value := fun _ _ => Some (scalar g) |}.

End Samples.

(** * Properties *)

Import Numpy Theano Py Updates Rules Samples.

(** ** Running the monadic code *)

Section Running.

Variable floatX : dtype.

Lemma shared_zeros_like_run (s extra : Store) (p : var) :
  p < length s ->
  shared_zeros_like floatX p (s ++ extra)
  = Some (length (s ++ extra), (s ++ extra) ++ [zeros_for floatX s p]).
Proof.
  intros Hp. unfold shared_zeros_like, bind, get_value, shared, zeros_for.
  rewrite nth_error_app1 by assumption.
  destruct (nth_error s p) as [a|] eqn:E.
  - reflexivity.
  - apply nth_error_None in E. lia.
Qed.

Lemma comprehension_run (ps : list var) :
  forall s extra,
    allocated s ps ->
    comprehension (shared_zeros_like floatX) ps (s ++ extra)
    = Some (seq (length (s ++ extra)) (length ps),
            (s ++ extra) ++ map (zeros_for floatX s) ps).
Proof.
  induction ps as [|p ps IH]; intros s extra Hall; simpl.
  - unfold ret. now rewrite app_nil_r.
  - inversion Hall as [|? ? Hp Hps]; subst.
    unfold bind at 1. rewrite shared_zeros_like_run by assumption.
    rewrite <- app_assoc. unfold bind at 1.
    rewrite (IH s (extra ++ [zeros_for floatX s p]) Hps).
    unfold ret.
    replace (length (s ++ extra ++ [zeros_for floatX s p]))
      with (S (length (s ++ extra)))
      by (rewrite !length_app; simpl; lia).
    now rewrite <- !app_assoc.
Qed.

(** A loop whose body only appends to the plan. *)
Lemma for_each_pure {A} (f : A -> updates) (body : A -> updates -> M updates) :
  (forall x u s, body x u s = Some (u ++ f x, s)) ->
  forall xs acc s,
    for_each xs body acc s = Some (acc ++ flat_map f xs, s).
Proof.
  intros Hbody. induction xs as [|x xs IH]; intros acc s; simpl.
  - unfold ret. now rewrite app_nil_r.
  - unfold bind. rewrite Hbody. rewrite IH. now rewrite <- app_assoc.
Qed.

(** A loop whose body creates one accumulator and appends to the plan. *)
Lemma for_each_alloc (f : var -> expr -> var -> updates)
      (body : var * expr -> updates -> M updates) :
  (forall p g u s,
      body (p, g) u s
      = bind (shared_zeros_like floatX p) (fun m => ret (u ++ f p g m)) s) ->
  forall xs acc s extra,
    allocated s (map fst xs) ->
    for_each xs body acc (s ++ extra)
    = Some (acc ++ flat_map (fun '(p, g, m) => f p g m)
                            (combine xs (seq (length (s ++ extra))
                                             (length xs))),
            (s ++ extra) ++ map (zeros_for floatX s) (map fst xs)).
Proof.
  intros Hbody. induction xs as [|[p g] xs IH]; intros acc s extra Hall; simpl.
  - unfold ret. now rewrite !app_nil_r.
  - inversion Hall as [|? ? Hp Hps]; subst. simpl in Hp.
    unfold bind at 1. rewrite Hbody. unfold bind at 1.
    rewrite shared_zeros_like_run by assumption. unfold ret.
    rewrite <- app_assoc.
    rewrite (IH _ s (extra ++ [zeros_for floatX s p]) Hps).
    replace (length (s ++ extra ++ [zeros_for floatX s p]))
      with (S (length (s ++ extra)))
      by (rewrite !length_app; simpl; lia).
    now rewrite <- !app_assoc.
Qed.

End Running.

(** ** Lists zipped with their positions *)

Section Indexed.

Context {A B C : Type}.

Lemma map_as_indexed (G : A -> B) (ps : list A) :
  forall k, map G ps = map (fun '(p, _) => G p) (indexed ps k).
Proof.
  unfold indexed. induction ps as [|p ps IH]; intros k; simpl.
  - reflexivity.
  - f_equal. apply IH.
Qed.

Lemma seq_as_indexed (base : nat) (ps : list A) :
  forall k,
    seq (base + k) (length ps) = map (fun '(_, i) => base + i) (indexed ps k).
Proof.
  unfold indexed. induction ps as [|p ps IH]; intros k; simpl.
  - reflexivity.
  - f_equal. rewrite <- Nat.add_succ_r. apply IH.
Qed.

Lemma combine_map_map {X} (F : X -> B) (G : X -> C) (l : list X) :
  combine (map F l) (map G l) = map (fun x => (F x, G x)) l.
Proof.
  induction l as [|x l IH]; simpl; [reflexivity | now rewrite IH].
Qed.

Lemma combine_indexed (F : A * nat -> B) (ps : list A) :
  forall k,
    combine ps (map F (indexed ps k))
    = map (fun x => (fst x, F x)) (indexed ps k).
Proof.
  unfold indexed. induction ps as [|p ps IH]; intros k; simpl.
  - reflexivity.
  - f_equal. apply IH.
Qed.

Lemma indexed_fst (ps : list A) :
  forall k, map fst (indexed ps k) = ps.
Proof.
  unfold indexed. induction ps as [|p ps IH]; intros k; simpl.
  - reflexivity.
  - f_equal. apply IH.
Qed.

Lemma combine_map_fst (G : A -> B) (ps : list A) :
  map fst (combine ps (map G ps)) = ps.
Proof.
  induction ps as [|p ps IH]; simpl; [reflexivity | now rewrite IH].
Qed.

Lemma indexed_length (ps : list A) (k : nat) :
  length (indexed ps k) = length ps.
Proof. unfold indexed. rewrite length_combine, length_seq. lia. Qed.

End Indexed.

(** ** What each rule returns *)

(** The loop bodies append entry by entry; the plan lists them at once. *)
Ltac body_appends :=
  intros; cbv beta iota zeta; unfold bind, ret;
  repeat match goal with
         | |- context [match ?m with Some _ => _ | None => _ end] =>
             destruct m as [[? ?]|]
         end;
  rewrite <- ?app_assoc; reflexivity.

Section ClosedForm.

Variable floatX : dtype.
Variable h : hyper.
Variable loss : expr.

Lemma sgd_run (ps : list var) (s : Store) :
  sgd loss ps (learning_rate h) s = Some (plan_of Sgd h loss ps (length s), s).
Proof.
  unfold sgd, zip, grad, plan_of.
  rewrite for_each_pure
    with (f := fun '(p, g) =>
                 [(p, ESub (EShared p) (EMul (EConst (learning_rate h)) g))])
    by (intros [p g] u s0; reflexivity).
  simpl. f_equal. f_equal.
  rewrite (map_as_indexed (EGrad loss) ps 0), combine_indexed.
  rewrite flat_map_concat_map, map_map, <- flat_map_concat_map.
  apply flat_map_ext. intros [p i]. reflexivity.
Qed.

Lemma allocated_params (s : Store) (ps : list var) :
  allocated s ps ->
  allocated s (map fst (combine ps (map (EGrad loss) ps))).
Proof.
  intros Hall. now rewrite combine_map_fst.
Qed.

(** The loop of [momentum] and [nesterov_momentum]. *)
Lemma alloc_loop_run (r : rule) (body : var * expr -> updates -> M updates)
      (ps : list var) (s : Store) :
  multiplicity r = 2 ->
  (forall p g u s0,
      body (p, g) u s0
      = bind (shared_zeros_like floatX p)
             (fun m => ret (u ++ entries_with r h g p m 0)) s0) ->
  allocated s ps ->
  for_each (combine ps (map (EGrad loss) ps)) body [] s
  = Some (plan_of r h loss ps (length s), s ++ new_arrays floatX r s ps).
Proof.
  intros Hk Hbody Hall.
  pose proof (for_each_alloc floatX
                (fun p g m => entries_with r h g p m 0) body Hbody
                (combine ps (map (EGrad loss) ps)) [] s []
                (allocated_params s ps Hall)) as Hrun.
  rewrite app_nil_r in Hrun. rewrite Hrun. clear Hrun.
  unfold plan_of, new_arrays. rewrite Hk. simpl. rewrite app_nil_r.
  f_equal. f_equal.
  - rewrite (map_as_indexed (EGrad loss) ps 0), combine_indexed.
    rewrite length_map.
    rewrite indexed_length.
    rewrite <- (Nat.add_0_r (length s)) at 1.
    rewrite (seq_as_indexed (length s) ps 0), combine_map_map.
    rewrite flat_map_concat_map, map_map, <- flat_map_concat_map.
    apply flat_map_ext. intros [p i]. simpl. unfold entries.
    destruct r; try discriminate Hk; reflexivity.
  - now rewrite combine_map_fst.
Qed.

(** The accumulators and the loop of [adagrad] and [rmsprop]. *)
Lemma acc_loop_run (r : rule) (body : var * expr * var -> updates -> M updates)
      (ps : list var) (s : Store) :
  multiplicity r = 2 ->
  (forall p g a u s0,
      body (p, g, a) u s0 = Some (u ++ entries_with r h g p a 0, s0)) ->
  allocated s ps ->
  bind (comprehension (shared_zeros_like floatX) ps)
       (fun accs => for_each (zip3 ps (map (EGrad loss) ps) accs) body []) s
  = Some (plan_of r h loss ps (length s), s ++ new_arrays floatX r s ps).
Proof.
  intros Hk Hbody Hall. unfold bind.
  pose proof (comprehension_run floatX ps s [] Hall) as Hrun.
  rewrite app_nil_r in Hrun. rewrite Hrun. clear Hrun.
  rewrite for_each_pure
    with (f := fun '(p, g, a) => entries_with r h g p a 0)
    by (intros [[p g] a] u s0; apply Hbody).
  unfold plan_of, new_arrays, zip3. rewrite Hk. simpl. rewrite app_nil_r.
  f_equal. f_equal.
  rewrite <- (Nat.add_0_r (length s)) at 1.
  rewrite (map_as_indexed (EGrad loss) ps 0).
  rewrite (seq_as_indexed (length s) ps 0), combine_map_map.
  rewrite combine_indexed, map_map.
  rewrite flat_map_concat_map, map_map, <- flat_map_concat_map.
  apply flat_map_ext. intros [p i]. simpl. unfold entries.
  destruct r; try discriminate Hk; reflexivity.
Qed.

Lemma adadelta_run (ps : list var) (s : Store) :
  allocated s ps ->
  adadelta floatX loss ps (learning_rate h) (rho h) (epsilon h) s
  = Some (plan_of Adadelta h loss ps (length s),
          s ++ new_arrays floatX Adadelta s ps).
Proof.
  intros Hall. unfold adadelta, grad. unfold bind at 1.
  pose proof (comprehension_run floatX ps s [] Hall) as Hrun.
  rewrite app_nil_r in Hrun. rewrite Hrun. clear Hrun.
  unfold bind at 1.
  rewrite (comprehension_run floatX ps s _ Hall).
  rewrite for_each_pure
    with (f := fun '(p, g, a, d) => entries_with Adadelta h g p a d)
    by (intros [[[p g] a] d] u s0; body_appends).
  unfold plan_of, new_arrays, zip4. simpl. rewrite app_nil_r.
  f_equal. f_equal.
  - rewrite length_app, length_map.
    rewrite <- (Nat.add_0_r (length s)) at 1.
    rewrite <- (Nat.add_0_r (length s + length ps)) at 1.
    rewrite (map_as_indexed (EGrad loss) ps 0).
    rewrite (seq_as_indexed (length s) ps 0).
    rewrite (seq_as_indexed (length s + length ps) ps 0).
    rewrite !combine_map_map.
    rewrite combine_indexed, map_map.
    rewrite flat_map_concat_map, map_map, <- flat_map_concat_map.
    apply flat_map_ext. intros [p i]. reflexivity.
  - now rewrite <- app_assoc.
Qed.

(** Every rule succeeds on allocated parameters, with this plan and this
    store. *)
Lemma run_closed_form (r : rule) (ps : list var) (s : Store) :
  allocated s ps ->
  run floatX r h loss ps s
  = Some (plan_of r h loss ps (length s), s ++ new_arrays floatX r s ps).
Proof.
  intros Hall. destruct r; simpl.
  - rewrite sgd_run. unfold new_arrays. simpl. now rewrite app_nil_r.
  - apply (alloc_loop_run Momentum); auto. body_appends.
  - apply (alloc_loop_run NesterovMomentum); auto. body_appends.
  - apply (acc_loop_run Adagrad); auto. body_appends.
  - apply (acc_loop_run Rmsprop); auto. body_appends.
  - now apply adadelta_run.
Qed.

End ClosedForm.

(** ** Size and targets of a plan *)

Section PlanShape.

Variable h : hyper.
Variable loss : expr.

Lemma targets_entries (r : rule) (p a d : var) :
  targets (entries r h loss p a d)
  = match r with
    | Sgd => [p]
    | Adadelta => [a; p; d]
    | _ => [a; p]
    end.
Proof. destruct r; reflexivity. Qed.

Lemma length_entries (r : rule) (p a d : var) :
  length (entries r h loss p a d) = multiplicity r.
Proof. destruct r; reflexivity. Qed.

Lemma length_plan_of (r : rule) (ps : list var) (base : nat) :
  length (plan_of r h loss ps base) = length ps * multiplicity r.
Proof.
  unfold plan_of.
  rewrite flat_map_constant_length with (c := multiplicity r).
  - now rewrite indexed_length.
  - intros [p i] _. apply length_entries.
Qed.

(** A handle below [base] is targeted once per occurrence among the
    parameters, whatever accumulators at or above [base] are used. *)
Lemma count_targets (r : rule) (base q : nat) (A D : nat -> nat) :
  q < base ->
  (forall i, base <= A i) -> (forall i, base <= D i) ->
  forall ps k,
    count_occ Nat.eq_dec
      (targets (flat_map (fun '(p, i) => entries r h loss p (A i) (D i))
                         (indexed ps k))) q
    = count_occ Nat.eq_dec ps q.
Proof.
  intros Hq HA HD. unfold indexed.
  induction ps as [|p ps IH]; intros k; simpl.
  - reflexivity.
  - unfold targets in *. rewrite map_app, count_occ_app, IH.
    fold (targets (entries r h loss p (A k) (D k))).
    rewrite targets_entries.
    specialize (HA k). specialize (HD k).
    destruct r; simpl;
      repeat match goal with
             | |- context [Nat.eq_dec ?x ?y] => destruct (Nat.eq_dec x y)
             end; lia.
Qed.

End PlanShape.

(** C1, as amended.  On parameters that are shared variables of the store,
    every rule returns a plan with [len(params) * k] entries, [k] the rule's
    multiplicity (sgd 1; momentum, nesterov_momentum, adagrad, rmsprop 2;
    adadelta 3), and a parameter is a target as often as it is listed:
    exactly once when the listed parameters are distinct. *)
Theorem plan_size_and_targets
        (floatX : dtype) (r : rule) (h : hyper) (loss : expr)
        (all_params : list var) (s : Store) :
  allocated s all_params ->
  exists plan s',
    run floatX r h loss all_params s = Some (plan, s') /\
    length plan = length all_params * multiplicity r /\
    (forall p, In p all_params ->
               count_occ Nat.eq_dec (targets plan) p
               = count_occ Nat.eq_dec all_params p) /\
    (NoDup all_params ->
     forall p, In p all_params ->
               count_occ Nat.eq_dec (targets plan) p = 1).
Proof.
  intros Hall.
  assert (Hcount : forall p, In p all_params ->
            count_occ Nat.eq_dec
              (targets (plan_of r h loss all_params (length s))) p
            = count_occ Nat.eq_dec all_params p).
  { intros p Hin. unfold plan_of.
    apply (count_targets h loss r (length s) p
             (fun i => length s + i)
             (fun i => length s + length all_params + i)).
    - unfold allocated in Hall. rewrite Forall_forall in Hall. now apply Hall.
    - intros; lia.
    - intros; lia. }
  eexists. eexists. split; [now apply run_closed_form |].
  split; [apply length_plan_of |]. split; [exact Hcount |].
  intros Hnd p Hin. rewrite (Hcount p Hin).
  apply NoDup_count_occ'; assumption.
Qed.

(** C1 as stated fails on a parameter listed twice: it is a target twice.
    The parameter is a scalar and the loss is the parameter itself. *)
Lemma repeated_parameter_counterexample :
  exists plan,
    sgd (EShared 0) [0; 0] 1 scalar_store = Some (plan, scalar_store) /\
    length plan = 2 * 1 /\
    In 0 [0; 0] /\
    count_occ Nat.eq_dec (targets plan) 0 = 2.
Proof.
  pose proof (sgd_run (mk_hyper 1 0 0 0) (EShared 0) [0; 0] scalar_store)
    as Hrun.
  simpl in Hrun. eexists. split; [exact Hrun |].
  repeat split. now left.
Qed.

Lemma plan_size_and_targets_witness :
  allocated sample_store [0; 1] /\
  exists plan s',
    run float32 Adadelta sample_hyper (EShared 0) [0; 1] sample_store
    = Some (plan, s') /\
    length plan = 2 * 3 /\
    (forall p, In p [0; 1] ->
               count_occ Nat.eq_dec (targets plan) p
               = count_occ Nat.eq_dec [0; 1] p) /\
    (NoDup [0; 1] ->
     forall p, In p [0; 1] -> count_occ Nat.eq_dec (targets plan) p = 1).
Proof.
  assert (Hall : allocated sample_store [0; 1])
    by (repeat constructor).
  split; [exact Hall |].
  exact (plan_size_and_targets float32 Adadelta sample_hyper (EShared 0)
           [0; 1] sample_store Hall).
Defined.

(** ** Entries and accumulators by position *)

Section Positions.

Lemma nth_error_flat_map_block {A B} (f : A -> list B) (k : nat) :
  (forall x, length (f x) = k) ->
  forall l i x j,
    nth_error l i = Some x -> j < k ->
    nth_error (flat_map f l) (k * i + j) = nth_error (f x) j.
Proof.
  intros Hlen. induction l as [|a l IH]; intros i x j Hi Hj.
  - destruct i; discriminate Hi.
  - destruct i as [|i]; simpl in Hi.
    + injection Hi as ->. simpl. rewrite Nat.mul_0_r. simpl.
      apply nth_error_app1. now rewrite Hlen.
    + simpl flat_map.
      replace (k * S i + j) with (length (f a) + (k * i + j))
        by (rewrite Hlen; lia).
      rewrite nth_error_app2 by lia.
      replace (length (f a) + (k * i + j) - length (f a)) with (k * i + j)
        by lia.
      now apply IH.
Qed.

Lemma nth_error_indexed {A} (ps : list A) :
  forall k i p,
    nth_error ps i = Some p -> nth_error (indexed ps k) i = Some (p, k + i).
Proof.
  unfold indexed. induction ps as [|a ps IH]; intros k i p Hi.
  - destruct i; discriminate Hi.
  - destruct i as [|i]; simpl in *.
    + injection Hi as ->. now rewrite Nat.add_0_r.
    + rewrite Nat.add_succ_r. now apply (IH (S k)).
Qed.

(** The [j]-th entry of the [i]-th parameter. *)
Lemma nth_error_plan_of (r : rule) (h : hyper) (loss : expr)
      (ps : list var) (base i j : nat) (p : var) :
  nth_error ps i = Some p -> j < multiplicity r ->
  nth_error (plan_of r h loss ps base) (multiplicity r * i + j)
  = nth_error (entries r h loss p (base + i) (base + length ps + i)) j.
Proof.
  intros Hi Hj. unfold plan_of.
  rewrite nth_error_flat_map_block
    with (x := (p, i))
         (f := fun '(p, i) =>
                 entries r h loss p (base + i) (base + length ps + i)).
  - reflexivity.
  - intros [q n]. apply length_entries.
  - now apply (nth_error_indexed ps 0).
  - assumption.
Qed.

(** The [j]-th accumulator of the [i]-th parameter in the new store. *)
Lemma nth_error_new_arrays (floatX : dtype) (r : rule) (s : Store)
      (ps : list var) (i j : nat) (p : var) :
  nth_error ps i = Some p -> j < multiplicity r - 1 ->
  nth_error (s ++ new_arrays floatX r s ps) (length s + j * length ps + i)
  = Some (zeros_for floatX s p).
Proof.
  intros Hi Hj.
  assert (Hlt : i < length ps) by (apply nth_error_Some; congruence).
  rewrite nth_error_app2 by lia.
  replace (length s + j * length ps + i - length s) with (j * length ps + i)
    by lia.
  unfold new_arrays. revert j Hj.
  induction (multiplicity r - 1) as [|k IH]; intros j Hj; [lia |].
  simpl. destruct j as [|j].
  - simpl. rewrite nth_error_app1 by now rewrite length_map.
    now apply map_nth_error.
  - rewrite nth_error_app2 by (rewrite length_map; simpl; lia).
    rewrite length_map.
    replace (S j * length ps + i - length ps) with (j * length ps + i)
      by (simpl; lia).
    apply IH. lia.
Qed.

Lemma length_new_arrays (floatX : dtype) (r : rule) (s : Store)
      (ps : list var) :
  length (new_arrays floatX r s ps) = length ps * (multiplicity r - 1).
Proof.
  unfold new_arrays. induction (multiplicity r - 1) as [|k IH]; simpl.
  - lia.
  - rewrite length_app, length_map, IH. lia.
Qed.

End Positions.

(** ** Broadcasting *)

Import Eval.

Section Broadcasting.

Lemma broadcast_dim_refl (d : nat) : broadcast_dim d d = Some d.
Proof. unfold broadcast_dim. now rewrite Nat.eqb_refl. Qed.

Lemma broadcast_dim_one (d : nat) : broadcast_dim d 1 = Some d.
Proof.
  unfold broadcast_dim. destruct (d =? 1) eqn:E; [|reflexivity].
  apply Nat.eqb_eq in E. now subst.
Qed.

Lemma broadcast_rev_nil_r (l : list nat) : broadcast_rev l [] = Some l.
Proof. destruct l; reflexivity. Qed.

(** A shape broadcasts against itself with some axes shrunk to 1. *)
Lemma broadcast_rev_shrunk (l t : list nat) :
  Forall2 (fun d r => r = d \/ r = 1) l t -> broadcast_rev l t = Some l.
Proof.
  induction 1 as [|d r l t Hd _ IH]; simpl; [reflexivity |].
  rewrite IH.
  destruct Hd as [-> | ->];
    [rewrite broadcast_dim_refl | rewrite broadcast_dim_one]; reflexivity.
Qed.

Lemma Forall2_reversed {A B} (P : A -> B -> Prop) (l : list A) (t : list B) :
  Forall2 P l t -> Forall2 P (rev l) (rev t).
Proof.
  induction 1; simpl; [constructor |].
  apply Forall2_app; [assumption | now repeat constructor].
Qed.

Lemma broadcast_shape_shrunk (l t : list nat) :
  Forall2 (fun d r => r = d \/ r = 1) l t -> broadcast_shape l t = Some l.
Proof.
  intros H. unfold broadcast_shape.
  rewrite broadcast_rev_shrunk by now apply Forall2_reversed.
  simpl. now rewrite rev_involutive.
Qed.

Lemma broadcast_shape_refl (l : list nat) : broadcast_shape l l = Some l.
Proof.
  apply broadcast_shape_shrunk. induction l; constructor; auto.
Qed.

Lemma broadcast_shape_nil_r (l : list nat) : broadcast_shape l [] = Some l.
Proof.
  unfold broadcast_shape. simpl. rewrite broadcast_rev_nil_r. simpl.
  now rewrite rev_involutive.
Qed.

Lemma broadcast_shape_nil_l (l : list nat) : broadcast_shape [] l = Some l.
Proof. unfold broadcast_shape. simpl. now rewrite rev_involutive. Qed.

Lemma in_bounds_length (shp : list nat) (idx : index) :
  in_bounds shp idx -> length idx = length shp.
Proof. induction 1; simpl; congruence. Qed.

Lemma broadcast_index_id (shp : list nat) (idx : index) :
  in_bounds shp idx -> broadcast_index shp idx = idx.
Proof.
  intros H. unfold broadcast_index.
  rewrite (in_bounds_length shp idx H), Nat.sub_diag. simpl.
  induction H as [|i d idx shp Hlt _ IH]; simpl; [reflexivity |].
  rewrite IH. f_equal.
  destruct (d =? 1) eqn:E; [|reflexivity].
  apply Nat.eqb_eq in E. lia.
Qed.

Lemma broadcast_index_nil (idx : index) : broadcast_index [] idx = [].
Proof. reflexivity. Qed.

End Broadcasting.

(** ** Elementwise expressions evaluate element by element *)

Section Pointwise.

Variable env : Env.
Variable shp : list nat.

Lemma broadcast_shape_if (a b : bool) :
  broadcast_shape (shape_if shp a) (shape_if shp b)
  = Some (shape_if shp (a || b)).
Proof.
  destruct a, b; simpl;
    auto using broadcast_shape_refl, broadcast_shape_nil_r,
               broadcast_shape_nil_l.
Qed.

(** Reading an operand of shape [shape_if shp a] through a result of shape
    [shape_if shp c], when the operand's shape went into the result's. *)
Lemma broadcast_index_if (a c : bool) (idx : index) :
  in_bounds shp idx -> (a = true -> c = true) ->
  broadcast_index (shape_if shp a) (broadcast_index (shape_if shp c) idx)
  = broadcast_index (shape_if shp a) idx.
Proof.
  intros Hin Hac. destruct c; simpl.
  - now rewrite (broadcast_index_id shp idx Hin).
  - destruct a; [now discriminate Hac | reflexivity].
Qed.

Lemma lift2_pointwise (f : R -> R -> option R) (ta tb : tensor)
      (a b : bool) :
  shape ta = shape_if shp a -> shape tb = shape_if shp b ->
  exists t,
    lift2 f ta tb = Some t /\ shape t = shape_if shp (a || b) /\
    forall idx, in_bounds shp idx ->
      elem t (broadcast_index (shape t) idx)
      = opt_bind (elem ta (broadcast_index (shape ta) idx)) (fun x =>
        opt_bind (elem tb (broadcast_index (shape tb) idx)) (fun y =>
        f x y)).
Proof.
  intros Ha Hb. unfold lift2. rewrite Ha, Hb, broadcast_shape_if.
  eexists. split; [reflexivity |]. split; [reflexivity |].
  intros idx Hin. simpl.
  rewrite !broadcast_index_if by (auto; destruct a, b; auto).
  destruct (elem ta _); [|reflexivity]. simpl.
  destruct (elem tb _); reflexivity.
Qed.

Lemma lift3_pointwise (f : R -> R -> R -> option R) (ta tb tc : tensor)
      (a b c : bool) :
  shape ta = shape_if shp a -> shape tb = shape_if shp b -> shape tc = shape_if shp c ->
  exists t,
    lift3 f ta tb tc = Some t /\ shape t = shape_if shp (a || b || c) /\
    forall idx, in_bounds shp idx ->
      elem t (broadcast_index (shape t) idx)
      = opt_bind (elem ta (broadcast_index (shape ta) idx)) (fun x =>
        opt_bind (elem tb (broadcast_index (shape tb) idx)) (fun y =>
        opt_bind (elem tc (broadcast_index (shape tc) idx)) (fun z =>
        f x y z))).
Proof.
  intros Ha Hb Hc. unfold lift3.
  rewrite Ha, Hb, Hc, !broadcast_shape_if.
  eexists. split; [reflexivity |]. split; [reflexivity |].
  intros idx Hin. simpl.
  rewrite !broadcast_index_if by (auto; destruct a, b, c; auto).
  destruct (elem ta _); [|reflexivity]. simpl.
  destruct (elem tb _); [|reflexivity]. simpl.
  destruct (elem tc _); reflexivity.
Qed.

Theorem eval_pointwise (e : expr) :
  leaves_shaped env shp e ->
  exists t,
    eval env e = Some t /\ shape t = shape_if shp (has_leaf e) /\
    forall idx, in_bounds shp idx ->
      elem t (broadcast_index (shape t) idx)
      = pointwise (shared_at env idx) (grad_at env idx) e.
Proof.
  induction e as [v | c | loss wrt | a IHa b IHb | a IHa b IHb
                  | a IHa b IHb | a IHa b IHb | a IHa n | a IHa | a IHa
                  | a IHa lo IHlo hi IHhi | a IHa axes];
    simpl; intros Hl.
  - destruct Hl as (t & Ht & Hs). exists t. repeat split; auto.
    intros idx Hin. unfold shared_at. rewrite Ht, Hs. simpl.
    now rewrite (broadcast_index_id shp idx Hin).
  - eexists. repeat split.
  - destruct Hl as (t & Ht & Hs). exists t. repeat split; auto.
    intros idx Hin. unfold grad_at. rewrite Ht, Hs. simpl.
    now rewrite (broadcast_index_id shp idx Hin).
  - destruct Hl as [Ha Hb].
    destruct (IHa Ha) as (ta & -> & Hsa & Hea).
    destruct (IHb Hb) as (tb & -> & Hsb & Heb). simpl.
    destruct (lift2_pointwise (total2 Rplus) ta tb _ _ Hsa Hsb)
      as (t & -> & Hs & He).
    exists t. repeat split; auto. intros idx Hin.
    now rewrite He, Hea, Heb.
  - destruct Hl as [Ha Hb].
    destruct (IHa Ha) as (ta & -> & Hsa & Hea).
    destruct (IHb Hb) as (tb & -> & Hsb & Heb). simpl.
    destruct (lift2_pointwise (total2 Rminus) ta tb _ _ Hsa Hsb)
      as (t & -> & Hs & He).
    exists t. repeat split; auto. intros idx Hin.
    now rewrite He, Hea, Heb.
  - destruct Hl as [Ha Hb].
    destruct (IHa Ha) as (ta & -> & Hsa & Hea).
    destruct (IHb Hb) as (tb & -> & Hsb & Heb). simpl.
    destruct (lift2_pointwise (total2 Rmult) ta tb _ _ Hsa Hsb)
      as (t & -> & Hs & He).
    exists t. repeat split; auto. intros idx Hin.
    now rewrite He, Hea, Heb.
  - destruct Hl as [Ha Hb].
    destruct (IHa Ha) as (ta & -> & Hsa & Hea).
    destruct (IHb Hb) as (tb & -> & Hsb & Heb). simpl.
    destruct (lift2_pointwise r_div ta tb _ _ Hsa Hsb)
      as (t & -> & Hs & He).
    exists t. repeat split; auto. intros idx Hin.
    now rewrite He, Hea, Heb.
  - destruct (IHa Hl) as (ta & -> & Hsa & Hea). simpl.
    eexists. split; [reflexivity |]. split; [exact Hsa |].
    intros idx Hin. simpl. now rewrite Hea by assumption.
  - destruct (IHa Hl) as (ta & -> & Hsa & Hea). simpl.
    eexists. split; [reflexivity |]. split; [exact Hsa |].
    intros idx Hin. simpl. now rewrite Hea by assumption.
  - destruct (IHa Hl) as (ta & -> & Hsa & Hea). simpl.
    eexists. split; [reflexivity |]. split; [exact Hsa |].
    intros idx Hin. simpl. now rewrite Hea by assumption.
  - destruct Hl as (Ha & Hlo & Hhi).
    destruct (IHa Ha) as (ta & -> & Hsa & Hea).
    destruct (IHlo Hlo) as (tl & -> & Hsl & Hel).
    destruct (IHhi Hhi) as (th & -> & Hsh & Heh). simpl.
    destruct (lift3_pointwise (fun r rl rh => Some (r_clip r rl rh))
                ta tl th _ _ _ Hsa Hsl Hsh) as (t & -> & Hs & He).
    exists t. repeat split; auto. intros idx Hin.
    now rewrite He, Hea, Hel, Heh.
  - contradiction.
Qed.

End Pointwise.

(** ** Values of plan entries *)

Section EntryValues.

Variable env : Env.
Variable shp : list nat.

Lemma pointwise_value (e : expr) (idx : index) :
  leaves_shaped env shp e -> has_leaf e = true -> in_bounds shp idx ->
  value_at env shp e idx (pointwise (shared_at env idx) (grad_at env idx) e).
Proof.
  intros Hl Hleaf Hin.
  destruct (eval_pointwise env shp e Hl) as (t & Ht & Hs & He).
  rewrite Hleaf in Hs. simpl in Hs.
  exists t. repeat split; auto.
  rewrite <- (He idx Hin), Hs. now rewrite broadcast_index_id.
Qed.

Lemma shaped_shared (loss : expr) (p : var) (accs : list var) (v : var) :
  shaped env shp loss p accs -> In v (p :: accs) ->
  leaves_shaped env shp (EShared v).
Proof. intros [H _] Hin. exact (H v Hin). Qed.

Lemma shaped_grad (loss : expr) (p : var) (accs : list var) :
  shaped env shp loss p accs -> leaves_shaped env shp (EGrad loss p).
Proof. intros [_ H]. exact H. Qed.

End EntryValues.

(** Establishes [value_at] for a plan entry over shaped leaves, leaving the
    arithmetic of the element. *)
Ltac entry_value Hshaped :=
  match goal with
  | |- value_at ?env ?shp ?e ?idx ?r =>
      let H := fresh "Hval" in
      assert (H : value_at env shp e idx
                    (pointwise (shared_at env idx) (grad_at env idx) e));
      [ apply pointwise_value;
        [ simpl; repeat split;
          first [ exact I
                | eapply shaped_grad; exact Hshaped
                | eapply shaped_shared; [exact Hshaped | simpl; tauto] ]
        | reflexivity
        | assumption ]
      | cbn [pointwise opt_bind] in H;
        repeat match goal with
               | Heq : shared_at env idx _ = Some _ |- _ =>
                   rewrite Heq in H; cbn [opt_bind] in H
               | Heq : grad_at env idx _ _ = Some _ |- _ =>
                   rewrite Heq in H; cbn [opt_bind] in H
               end ]
  end.

(** ** Where the partial operations are defined *)

Lemma r_sqrt_defined (x : R) : (0 <= x)%R -> r_sqrt x = Some (sqrt x).
Proof. intros H. unfold r_sqrt. destruct (Rlt_dec x 0); [lra | reflexivity]. Qed.

Lemma r_div_defined (x y : R) : y <> 0%R -> r_div x y = Some (x / y)%R.
Proof.
  intros H. unfold r_div. destruct (Req_dec_T y 0); [contradiction | reflexivity].
Qed.

Lemma r_div_zero (x : R) : r_div x 0 = None.
Proof.
  unfold r_div. destruct (Req_dec_T 0 0); [reflexivity | contradiction].
Qed.

Lemma sqrt_nonzero (x : R) : (0 < x)%R -> sqrt x <> 0%R.
Proof. intros H. pose proof (sqrt_lt_R0 x H). lra. Qed.

(** ** sgd *)

Lemma plan_of_sgd (h : hyper) (loss : expr) (ps : list var) (base : nat) :
  plan_of Sgd h loss ps base
  = map (fun p => (p, ESub (EShared p)
                           (EMul (EConst (learning_rate h)) (EGrad loss p))))
        ps.
Proof.
  unfold plan_of, indexed. generalize 0.
  induction ps as [|p ps IH]; intros k; simpl; [reflexivity |].
  f_equal. apply IH.
Qed.

(** C9.  [sgd] proposes [param - learning_rate * grad] for every parameter
    and nothing else: the plan has the parameters as its only targets, the
    store of shared variables is left as it was, and the plan is the same
    from whatever store.  With param 5.0, grad 2.0 and learning rate 0.1
    the proposed value is 4.8. *)
Theorem sgd_plan (loss : expr) (all_params : list var) (learning_rate : R)
        (s : Store) :
  let proposed lr p :=
    ESub (EShared p) (EMul (EConst lr) (EGrad loss p)) in
  sgd loss all_params learning_rate s
  = Some (map (fun p => (p, proposed learning_rate p)) all_params, s) /\
  (forall s0,
      option_map fst (sgd loss all_params learning_rate s0)
      = option_map fst (sgd loss all_params learning_rate s)) /\
  (forall p env shp idx x g,
      shaped env shp loss p [] -> in_bounds shp idx ->
      shared_at env idx p = Some x -> grad_at env idx loss p = Some g ->
      value_at env shp (proposed learning_rate p) idx
               (Some (x - learning_rate * g)%R)) /\
  (forall p,
      sgd loss [p] 0.1 s = Some ([(p, proposed 0.1%R p)], s) /\
      value_at (scalar_env p 5 2 0) [] (proposed 0.1%R p) []
               (Some 4.8%R)).
Proof.
  intros proposed.
  assert (Hrun : forall lr ps s0,
             sgd loss ps lr s0 = Some (map (fun p => (p, proposed lr p)) ps, s0)).
  { intros lr ps s0.
    pose proof (sgd_run (mk_hyper lr 0 0 0) loss ps s0) as H. simpl in H.
    rewrite H, plan_of_sgd. reflexivity. }
  assert (Hvalue : forall lr p env shp idx x g,
             shaped env shp loss p [] -> in_bounds shp idx ->
             shared_at env idx p = Some x -> grad_at env idx loss p = Some g ->
             value_at env shp (proposed lr p) idx (Some (x - lr * g)%R)).
  { intros lr p env shp idx x g Hsh Hin Hx Hg. unfold proposed.
    entry_value Hsh. exact Hval. }
  split; [apply Hrun |]. split; [intros s0; now rewrite !Hrun |].
  split; [apply Hvalue |].
  intros p. split; [apply Hrun |].
  replace 4.8%R with (5 - 0.1 * 2)%R by lra.
  apply Hvalue.
  - split.
    + intros v _. eexists. split; reflexivity.
    + eexists. split; reflexivity.
  - constructor.
  - unfold shared_at. simpl. now rewrite Nat.eqb_refl.
  - reflexivity.
Qed.

(** ** momentum and nesterov_momentum *)

(** C7.  On the same store, [momentum] and [nesterov_momentum] create the
    same accumulator [v] for every parameter and give it the same update
    [momentum * v - learning_rate * grad]; [momentum] proposes
    [param + v_new], [nesterov_momentum] proposes
    [param + momentum * v_new - learning_rate * grad].  All of it is read
    from the values before the step. *)
Theorem momentum_and_nesterov
        (floatX : dtype) (loss : expr) (all_params : list var)
        (learning_rate momentum_ : R) (s : Store) :
  allocated s all_params ->
  exists plan_m plan_n s',
    momentum floatX loss all_params learning_rate momentum_ s
    = Some (plan_m, s') /\
    nesterov_momentum floatX loss all_params learning_rate momentum_ s
    = Some (plan_n, s') /\
    forall i p, nth_error all_params i = Some p ->
      let v := length s + i in
      let grad_p := EGrad loss p in
      let v_new := ESub (EMul (EConst momentum_) (EShared v))
                        (EMul (EConst learning_rate) grad_p) in
      let new_m := EAdd (EShared p) v_new in
      let new_n := ESub (EAdd (EShared p) (EMul (EConst momentum_) v_new))
                        (EMul (EConst learning_rate) grad_p) in
      nth_error plan_m (2 * i) = Some (v, v_new) /\
      nth_error plan_n (2 * i) = Some (v, v_new) /\
      nth_error plan_m (2 * i + 1) = Some (p, new_m) /\
      nth_error plan_n (2 * i + 1) = Some (p, new_n) /\
      forall env shp idx x v0 g,
        shaped env shp loss p [v] -> in_bounds shp idx ->
        shared_at env idx p = Some x -> shared_at env idx v = Some v0 ->
        grad_at env idx loss p = Some g ->
        value_at env shp v_new idx
                 (Some (momentum_ * v0 - learning_rate * g)%R) /\
        value_at env shp new_m idx
                 (Some (x + (momentum_ * v0 - learning_rate * g))%R) /\
        value_at env shp new_n idx
                 (Some (x + momentum_ * (momentum_ * v0 - learning_rate * g)
                        - learning_rate * g)%R).
Proof.
  intros Hall.
  set (h := mk_hyper learning_rate momentum_ 0 0).
  exists (plan_of Momentum h loss all_params (length s)),
         (plan_of NesterovMomentum h loss all_params (length s)),
         (s ++ new_arrays floatX Momentum s all_params).
  split; [exact (run_closed_form floatX h loss Momentum all_params s Hall) |].
  split;
    [exact (run_closed_form floatX h loss NesterovMomentum all_params s Hall) |].
  intros i p Hi v grad_p v_new new_m new_n.
  pose proof (nth_error_plan_of Momentum h loss all_params (length s) i 0 p Hi)
    as Hm0.
  pose proof (nth_error_plan_of Momentum h loss all_params (length s) i 1 p Hi)
    as Hm1.
  pose proof (nth_error_plan_of NesterovMomentum h loss all_params (length s)
                i 0 p Hi) as Hn0.
  pose proof (nth_error_plan_of NesterovMomentum h loss all_params (length s)
                i 1 p Hi) as Hn1.
  simpl multiplicity in *. rewrite Nat.add_0_r in Hm0, Hn0.
  split; [apply Hm0; lia |]. split; [apply Hn0; lia |].
  split; [apply Hm1; lia |]. split; [apply Hn1; lia |].
  intros env shp idx x v0 g Hsh Hin Hx Hv Hg.
  split; [| split].
  - unfold v_new, grad_p. entry_value Hsh. exact Hval.
  - unfold new_m, v_new, grad_p. entry_value Hsh. exact Hval.
  - unfold new_n, v_new, grad_p. entry_value Hsh. exact Hval.
Qed.

Lemma momentum_and_nesterov_witness :
  allocated sample_store [0; 1] /\
  exists plan_m plan_n s',
    momentum float32 (EShared 0) [0; 1] 1 0.9 sample_store
    = Some (plan_m, s') /\
    nesterov_momentum float32 (EShared 0) [0; 1] 1 0.9 sample_store
    = Some (plan_n, s') /\
    forall i p, nth_error [0; 1] i = Some p ->
      let v := length sample_store + i in
      let grad_p := EGrad (EShared 0) p in
      let v_new := ESub (EMul (EConst 0.9) (EShared v))
                        (EMul (EConst 1) grad_p) in
      let new_m := EAdd (EShared p) v_new in
      let new_n := ESub (EAdd (EShared p) (EMul (EConst 0.9) v_new))
                        (EMul (EConst 1) grad_p) in
      nth_error plan_m (2 * i) = Some (v, v_new) /\
      nth_error plan_n (2 * i) = Some (v, v_new) /\
      nth_error plan_m (2 * i + 1) = Some (p, new_m) /\
      nth_error plan_n (2 * i + 1) = Some (p, new_n) /\
      forall env shp idx x v0 g,
        shaped env shp (EShared 0) p [v] -> in_bounds shp idx ->
        shared_at env idx p = Some x -> shared_at env idx v = Some v0 ->
        grad_at env idx (EShared 0) p = Some g ->
        value_at env shp v_new idx (Some (0.9 * v0 - 1 * g)%R) /\
        value_at env shp new_m idx (Some (x + (0.9 * v0 - 1 * g))%R) /\
        value_at env shp new_n idx
                 (Some (x + 0.9 * (0.9 * v0 - 1 * g) - 1 * g)%R).
Proof.
  assert (Hall : allocated sample_store [0; 1]) by (repeat constructor).
  split; [exact Hall |].
  exact (momentum_and_nesterov float32 (EShared 0) [0; 1] 1 0.9
           sample_store Hall).
Defined.

(** ** adagrad *)

(** C8.  For every parameter, [adagrad] updates the accumulator to
    [acc + grad^2] and proposes
    [param - learning_rate * grad / sqrt(acc_new + epsilon)]; with param 1.0,
    grad 2.0, learning rate 1.0, epsilon 1e-6 and a zero accumulator the new
    accumulator is 4.0 and the proposed parameter is
    [1.0 - 2.0 / sqrt(4.000001)]. *)
Theorem adagrad_plan
        (floatX : dtype) (loss : expr) (all_params : list var)
        (learning_rate epsilon : R) (s : Store) :
  allocated s all_params ->
  let acc_new acc p := EAdd (EShared acc) (EPow (EGrad loss p) 2) in
  let proposed lr eps acc p :=
    ESub (EShared p)
         (EDiv (EMul (EConst lr) (EGrad loss p))
               (ESqrt (EAdd (acc_new acc p) (EConst eps)))) in
  (exists plan s',
      adagrad floatX loss all_params learning_rate epsilon s
      = Some (plan, s') /\
      forall i p, nth_error all_params i = Some p ->
        let acc := length s + i in
        nth_error plan (2 * i) = Some (acc, acc_new acc p) /\
        nth_error plan (2 * i + 1)
        = Some (p, proposed learning_rate epsilon acc p) /\
        forall env shp idx x a g,
          shaped env shp loss p [acc] -> in_bounds shp idx ->
          shared_at env idx p = Some x -> shared_at env idx acc = Some a ->
          grad_at env idx loss p = Some g ->
          value_at env shp (acc_new acc p) idx (Some (a + g ^ 2)%R) /\
          ((0 < a + g ^ 2 + epsilon)%R ->
           value_at env shp (proposed learning_rate epsilon acc p) idx
                    (Some (x - learning_rate * g
                                 / sqrt (a + g ^ 2 + epsilon))%R))) /\
  (forall p, p < length s ->
     exists s',
       adagrad floatX loss [p] 1 1e-6 s
       = Some ([(length s, acc_new (length s) p);
                (p, proposed 1%R 1e-6%R (length s) p)], s') /\
       value_at (scalar_env p 1 2 0) [] (acc_new (length s) p) []
                (Some 4%R) /\
       value_at (scalar_env p 1 2 0) [] (proposed 1%R 1e-6%R (length s) p) []
                (Some (1 - 2 / sqrt 4.000001)%R)).
Proof.
  intros Hall acc_new proposed.
  assert (Hvalue : forall lr eps p acc env shp idx x a g,
             shaped env shp loss p [acc] -> in_bounds shp idx ->
             shared_at env idx p = Some x -> shared_at env idx acc = Some a ->
             grad_at env idx loss p = Some g ->
             value_at env shp (acc_new acc p) idx (Some (a + g ^ 2)%R) /\
             ((0 < a + g ^ 2 + eps)%R ->
              value_at env shp (proposed lr eps acc p) idx
                       (Some (x - lr * g / sqrt (a + g ^ 2 + eps))%R))).
  { intros lr eps p acc env shp idx x a g Hsh Hin Hx Ha Hg. split.
    - unfold acc_new. entry_value Hsh. exact Hval.
    - intros Hpos. unfold proposed, acc_new. entry_value Hsh.
      rewrite r_sqrt_defined in Hval by lra. cbn [opt_bind] in Hval.
      rewrite r_div_defined in Hval by (apply sqrt_nonzero; lra).
      exact Hval. }
  split.
  - set (h := mk_hyper learning_rate 0 0 epsilon).
    exists (plan_of Adagrad h loss all_params (length s)),
           (s ++ new_arrays floatX Adagrad s all_params).
    split; [exact (run_closed_form floatX h loss Adagrad all_params s Hall) |].
    intros i p Hi acc.
    pose proof (nth_error_plan_of Adagrad h loss all_params (length s) i 0 p Hi)
      as H0.
    pose proof (nth_error_plan_of Adagrad h loss all_params (length s) i 1 p Hi)
      as H1.
    simpl multiplicity in *. rewrite Nat.add_0_r in H0.
    split; [apply H0; lia |]. split; [apply H1; lia |].
    apply Hvalue.
  - intros p Hp.
    set (h := mk_hyper 1 0 0 1e-6).
    assert (Hall1 : allocated s [p]) by (repeat constructor; assumption).
    pose proof (run_closed_form floatX h loss Adagrad [p] s Hall1) as Hrun.
    exists (s ++ new_arrays floatX Adagrad s [p]).
    split.
    + simpl run in Hrun. rewrite Hrun. unfold plan_of. simpl.
      now rewrite !Nat.add_0_r.
    + assert (Hacc : (length s =? p) = false) by (apply Nat.eqb_neq; lia).
      destruct (Hvalue 1%R 1e-6%R p (length s) (scalar_env p 1 2 0) []
                  [] 1%R 0%R 2%R) as [Hv1 Hv2].
      * split.
        -- intros v _. eexists. split; reflexivity.
        -- eexists. split; reflexivity.
      * constructor.
      * unfold shared_at. simpl. now rewrite Nat.eqb_refl.
      * unfold shared_at. simpl. now rewrite Hacc.
      * reflexivity.
      * split.
        -- replace 4%R with (0 + 2 ^ 2)%R by lra. exact Hv1.
        -- replace (1 - 2 / sqrt 4.000001)%R
             with (1 - 1 * 2 / sqrt (0 + 2 ^ 2 + 1e-6))%R.
           ++ apply Hv2. lra.
           ++ replace (0 + 2 ^ 2 + 1e-6)%R with 4.000001%R by lra.
              lra.
Qed.

Lemma adagrad_plan_witness :
  allocated sample_store [0; 1] /\
  exists plan s',
    adagrad float32 (EShared 0) [0; 1] 1 1e-6 sample_store = Some (plan, s') /\
    nth_error plan 0
    = Some (2, EAdd (EShared 2) (EPow (EGrad (EShared 0) 0) 2)) /\
    length s' = 4.
Proof.
  assert (Hall : allocated sample_store [0; 1]) by (repeat constructor).
  split; [exact Hall |].
  destruct (adagrad_plan float32 (EShared 0) [0; 1] 1 1e-6 sample_store Hall)
    as [(plan & s' & Hrun & Hentries) _].
  exists plan, s'. split; [exact Hrun |].
  split; [exact (proj1 (Hentries 0 0 eq_refl)) |].
  pose proof (run_closed_form float32 (mk_hyper 1 0 0 1e-6) (EShared 0)
                Adagrad [0; 1] sample_store Hall) as Hclosed.
  simpl run in Hclosed. rewrite Hclosed in Hrun.
  injection Hrun as _ <-. reflexivity.
Defined.

(** ** rmsprop *)

(** C6.  For every parameter, [rmsprop] updates the accumulator to
    [rho * acc + (1 - rho) * grad^2] and proposes
    [param - learning_rate * grad / sqrt(acc_new + epsilon)].  With [rho = 0]
    the new accumulator is [grad^2] whatever the accumulator held: the value
    [adagrad]'s accumulator update gives on an accumulator reset to zero. *)
Theorem rmsprop_plan
        (floatX : dtype) (loss : expr) (all_params : list var)
        (learning_rate rho epsilon : R) (s : Store) :
  allocated s all_params ->
  let acc_new rho acc p :=
    EAdd (EMul (EConst rho) (EShared acc))
         (EMul (EConst (1 - rho)) (EPow (EGrad loss p) 2)) in
  let proposed acc p :=
    ESub (EShared p)
         (EDiv (EMul (EConst learning_rate) (EGrad loss p))
               (ESqrt (EAdd (acc_new rho acc p) (EConst epsilon)))) in
  (exists plan s',
      rmsprop floatX loss all_params learning_rate rho epsilon s
      = Some (plan, s') /\
      forall i p, nth_error all_params i = Some p ->
        let acc := length s + i in
        nth_error plan (2 * i) = Some (acc, acc_new rho acc p) /\
        nth_error plan (2 * i + 1) = Some (p, proposed acc p) /\
        forall env shp idx x a g,
          shaped env shp loss p [acc] -> in_bounds shp idx ->
          shared_at env idx p = Some x -> shared_at env idx acc = Some a ->
          grad_at env idx loss p = Some g ->
          value_at env shp (acc_new rho acc p) idx
                   (Some (rho * a + (1 - rho) * g ^ 2)%R) /\
          ((0 < rho * a + (1 - rho) * g ^ 2 + epsilon)%R ->
           value_at env shp (proposed acc p) idx
                    (Some (x - learning_rate * g
                                 / sqrt (rho * a + (1 - rho) * g ^ 2
                                         + epsilon))%R))) /\
  (exists plan_r plan_a s',
      rmsprop floatX loss all_params learning_rate 0 epsilon s
      = Some (plan_r, s') /\
      adagrad floatX loss all_params learning_rate epsilon s
      = Some (plan_a, s') /\
      forall i p, nth_error all_params i = Some p ->
        let acc := length s + i in
        exists acc_r acc_a,
          nth_error plan_r (2 * i) = Some (acc, acc_r) /\
          nth_error plan_a (2 * i) = Some (acc, acc_a) /\
          forall env env0 shp idx a g,
            shaped env shp loss p [acc] -> shaped env0 shp loss p [acc] ->
            in_bounds shp idx ->
            shared_at env idx acc = Some a ->
            grad_at env idx loss p = Some g ->
            shared_at env0 idx acc = Some 0%R ->
            grad_at env0 idx loss p = Some g ->
            value_at env shp acc_r idx (Some (g ^ 2)%R) /\
            value_at env0 shp acc_a idx (Some (g ^ 2)%R)).
Proof.
  intros Hall acc_new proposed. split.
  - set (h := mk_hyper learning_rate 0 rho epsilon).
    exists (plan_of Rmsprop h loss all_params (length s)),
           (s ++ new_arrays floatX Rmsprop s all_params).
    split; [exact (run_closed_form floatX h loss Rmsprop all_params s Hall) |].
    intros i p Hi acc.
    pose proof (nth_error_plan_of Rmsprop h loss all_params (length s) i 0 p Hi)
      as H0.
    pose proof (nth_error_plan_of Rmsprop h loss all_params (length s) i 1 p Hi)
      as H1.
    simpl multiplicity in *. rewrite Nat.add_0_r in H0.
    split; [apply H0; lia |]. split; [apply H1; lia |].
    intros env shp idx x a g Hsh Hin Hx Ha Hg. split.
    + unfold acc_new. entry_value Hsh. exact Hval.
    + intros Hpos. unfold proposed, acc_new. entry_value Hsh.
      rewrite r_sqrt_defined in Hval by lra. cbn [opt_bind] in Hval.
      rewrite r_div_defined in Hval by (apply sqrt_nonzero; lra).
      exact Hval.
  - set (h := mk_hyper learning_rate 0 0 epsilon).
    exists (plan_of Rmsprop h loss all_params (length s)),
           (plan_of Adagrad h loss all_params (length s)),
           (s ++ new_arrays floatX Rmsprop s all_params).
    split; [exact (run_closed_form floatX h loss Rmsprop all_params s Hall) |].
    split; [exact (run_closed_form floatX h loss Adagrad all_params s Hall) |].
    intros i p Hi acc.
    pose proof (nth_error_plan_of Rmsprop h loss all_params (length s) i 0 p Hi)
      as H0.
    pose proof (nth_error_plan_of Adagrad h loss all_params (length s) i 0 p Hi)
      as H1.
    simpl multiplicity in *. rewrite Nat.add_0_r in H0, H1.
    exists (acc_new 0%R acc p), (EAdd (EShared acc) (EPow (EGrad loss p) 2)).
    split; [apply H0; lia |]. split; [apply H1; lia |].
    intros env env0 shp idx a g Hsh Hsh0 Hin Ha Hg Ha0 Hg0. split.
    + unfold acc_new. entry_value Hsh.
      replace (g ^ 2)%R with (0 * a + (1 - 0) * g ^ 2)%R by ring.
      exact Hval.
    + entry_value Hsh0.
      replace (g ^ 2)%R with (0 + g ^ 2)%R by ring.
      exact Hval.
Qed.

Lemma rmsprop_plan_witness :
  allocated sample_store [0; 1] /\
  exists plan s',
    rmsprop float32 (EShared 0) [0; 1] 1 0.9 1e-6 sample_store
    = Some (plan, s') /\
    nth_error plan 0
    = Some (2, EAdd (EMul (EConst 0.9) (EShared 2))
                    (EMul (EConst (1 - 0.9))
                          (EPow (EGrad (EShared 0) 0) 2))).
Proof.
  assert (Hall : allocated sample_store [0; 1]) by (repeat constructor).
  split; [exact Hall |].
  destruct (rmsprop_plan float32 (EShared 0) [0; 1] 1 0.9 1e-6 sample_store
              Hall) as [(plan & s' & Hrun & Hentries) _].
  exists plan, s'. split; [exact Hrun |].
  exact (proj1 (Hentries 0 0 eq_refl)).
Defined.

(** ** adadelta *)

(** C2.  For every parameter, [adadelta] binds, from the values before the
    step: [acc_new = rho*acc + (1-rho)*grad^2];
    [update = grad * sqrt(acc_delta + epsilon) / sqrt(acc_new + epsilon)],
    with the old [acc_delta] and the new [acc];
    [new_param = param - learning_rate * update];
    [acc_delta_new = rho*acc_delta + (1-rho)*update^2]; and the plan targets
    [acc], [param] and [acc_delta]. *)
Theorem adadelta_plan
        (floatX : dtype) (loss : expr) (all_params : list var)
        (learning_rate rho epsilon : R) (s : Store) :
  allocated s all_params ->
  exists plan s',
    adadelta floatX loss all_params learning_rate rho epsilon s
    = Some (plan, s') /\
    forall i p, nth_error all_params i = Some p ->
      let acc := length s + i in
      let acc_delta := length s + length all_params + i in
      let grad_p := EGrad loss p in
      let acc_new :=
        EAdd (EMul (EConst rho) (EShared acc))
             (EMul (EConst (1 - rho)) (EPow grad_p 2)) in
      let update :=
        EDiv (EMul grad_p (ESqrt (EAdd (EShared acc_delta) (EConst epsilon))))
             (ESqrt (EAdd acc_new (EConst epsilon))) in
      let new_param := ESub (EShared p) (EMul (EConst learning_rate) update) in
      let acc_delta_new :=
        EAdd (EMul (EConst rho) (EShared acc_delta))
             (EMul (EConst (1 - rho)) (EPow update 2)) in
      nth_error plan (3 * i) = Some (acc, acc_new) /\
      nth_error plan (3 * i + 1) = Some (p, new_param) /\
      nth_error plan (3 * i + 2) = Some (acc_delta, acc_delta_new) /\
      forall env shp idx x a d g,
        shaped env shp loss p [acc; acc_delta] -> in_bounds shp idx ->
        shared_at env idx p = Some x ->
        shared_at env idx acc = Some a ->
        shared_at env idx acc_delta = Some d ->
        grad_at env idx loss p = Some g ->
        let a' := (rho * a + (1 - rho) * g ^ 2)%R in
        let u := (g * sqrt (d + epsilon) / sqrt (a' + epsilon))%R in
        value_at env shp acc_new idx (Some a') /\
        ((0 <= d + epsilon)%R -> (0 < a' + epsilon)%R ->
         value_at env shp update idx (Some u) /\
         value_at env shp new_param idx (Some (x - learning_rate * u)%R) /\
         value_at env shp acc_delta_new idx
                  (Some (rho * d + (1 - rho) * u ^ 2)%R)).
Proof.
  intros Hall.
  set (h := mk_hyper learning_rate 0 rho epsilon).
  exists (plan_of Adadelta h loss all_params (length s)),
         (s ++ new_arrays floatX Adadelta s all_params).
  split; [exact (run_closed_form floatX h loss Adadelta all_params s Hall) |].
  intros i p Hi acc acc_delta grad_p acc_new update new_param acc_delta_new.
  pose proof (nth_error_plan_of Adadelta h loss all_params (length s) i 0 p Hi)
    as H0.
  pose proof (nth_error_plan_of Adadelta h loss all_params (length s) i 1 p Hi)
    as H1.
  pose proof (nth_error_plan_of Adadelta h loss all_params (length s) i 2 p Hi)
    as H2.
  simpl multiplicity in *. rewrite Nat.add_0_r in H0.
  split; [apply H0; lia |]. split; [apply H1; lia |].
  split; [apply H2; lia |].
  intros env shp idx x a d g Hsh Hin Hx Ha Hd Hg a' u.
  split.
  - unfold acc_new, grad_p. entry_value Hsh. exact Hval.
  - intros Hd_pos Ha_pos. unfold a' in Ha_pos.
    split; [| split].
    + unfold update, acc_new, grad_p. entry_value Hsh.
      rewrite !r_sqrt_defined in Hval by lra. cbn [opt_bind] in Hval.
      rewrite r_div_defined in Hval by (apply sqrt_nonzero; lra).
      exact Hval.
    + unfold new_param, update, acc_new, grad_p. entry_value Hsh.
      rewrite !r_sqrt_defined in Hval by lra. cbn [opt_bind] in Hval.
      rewrite r_div_defined in Hval by (apply sqrt_nonzero; lra).
      exact Hval.
    + unfold acc_delta_new, update, acc_new, grad_p. entry_value Hsh.
      rewrite !r_sqrt_defined in Hval by lra. cbn [opt_bind] in Hval.
      rewrite r_div_defined in Hval by (apply sqrt_nonzero; lra).
      exact Hval.
Qed.

Lemma adadelta_plan_witness :
  allocated sample_store [0; 1] /\
  exists plan s',
    adadelta float32 (EShared 0) [0; 1] 1 0.95 1e-6 sample_store
    = Some (plan, s') /\
    nth_error plan 0
    = Some (2, EAdd (EMul (EConst 0.95) (EShared 2))
                    (EMul (EConst (1 - 0.95))
                          (EPow (EGrad (EShared 0) 0) 2))) /\
    (exists new_param,
        nth_error plan 1 = Some (0, new_param) /\
        value_at (scalar_env 0 1 2 0) [] new_param []
                 (Some (1 - 1 * (2 * sqrt (0 + 1e-6)
                                 / sqrt (0.95 * 0 + (1 - 0.95) * 2 ^ 2
                                         + 1e-6)))%R)) /\
    option_map fst (nth_error plan 2) = Some 4.
Proof.
  assert (Hall : allocated sample_store [0; 1]) by (repeat constructor).
  split; [exact Hall |].
  destruct (adadelta_plan float32 (EShared 0) [0; 1] 1 0.95 1e-6 sample_store
              Hall) as (plan & s' & Hrun & Hentries).
  exists plan, s'. split; [exact Hrun |].
  destruct (Hentries 0 0 eq_refl) as (H0 & H1 & H2 & Hvalues).
  split; [exact H0 |]. split; [| change (3 * 0 + 2) with 2 in H2; now rewrite H2].
  eexists. split; [exact H1 |].
  assert (Hshaped : shaped (scalar_env 0 1 2 0) [] (EShared 0) 0
                           [length sample_store + 0;
                            length sample_store + length [0; 1] + 0]).
  { split.
    - intros v _. eexists. split; reflexivity.
    - eexists. split; reflexivity. }
  destruct (Hvalues (scalar_env 0 1 2 0) [] [] 1%R 0%R 0%R 2%R Hshaped
                    (Forall2_nil lt) eq_refl eq_refl eq_refl eq_refl)
    as [_ Hdefined].
  apply Hdefined; lra.
Defined.

(** ** Accumulators *)

Lemma targets_nth (plan : updates) (n : nat) :
  nth_error (targets plan) n = option_map fst (nth_error plan n).
Proof. unfold targets. apply nth_error_map. Qed.

(** C5, as amended.  Every accumulator a rule creates holds exactly zeros,
    in the shape of its parameter, with element type [floatX]: the
    configured float type, not the element type of the parameter.  The
    accumulators are the only new shared variables, the store is otherwise
    unchanged, and the [j]-th accumulator of the [i]-th parameter is the
    target of entry [2 * j] of that parameter's entries. *)
Theorem accumulators_zero_like
        (floatX : dtype) (r : rule) (h : hyper) (loss : expr)
        (all_params : list var) (s : Store) :
  allocated s all_params ->
  exists plan s',
    run floatX r h loss all_params s = Some (plan, s') /\
    firstn (length s) s' = s /\
    length s' = length s + length all_params * (multiplicity r - 1) /\
    (forall a, length s <= a < length s' ->
       exists i j, i < length all_params /\ j < multiplicity r - 1 /\
                   a = length s + j * length all_params + i) /\
    forall i j p v,
      nth_error all_params i = Some p -> nth_error s p = Some v ->
      j < multiplicity r - 1 ->
      let a := length s + j * length all_params + i in
      nth_error (targets plan) (multiplicity r * i + 2 * j) = Some a /\
      exists acc,
        nth_error s' a = Some acc /\
        nd_data acc = repeat 0%R (size (nd_shape v)) /\
        nd_shape acc = nd_shape v /\
        nd_dtype acc = floatX.
Proof.
  intros Hall.
  exists (plan_of r h loss all_params (length s)),
         (s ++ new_arrays floatX r s all_params).
  split; [now apply run_closed_form |].
  split; [now rewrite firstn_app, Nat.sub_diag, firstn_all, app_nil_r |].
  split; [now rewrite length_app, length_new_arrays |].
  split.
  - intros a [Hlo Hhi]. rewrite length_app, length_new_arrays in Hhi.
    set (n := length all_params) in *.
    assert (Hn : n <> 0) by (intros Hz; rewrite Hz in Hhi; simpl in Hhi; lia).
    exists ((a - length s) mod n), ((a - length s) / n).
    split; [now apply Nat.mod_upper_bound |]. split.
    + apply Nat.Div0.div_lt_upper_bound. lia.
    + pose proof (Nat.div_mod_eq (a - length s) n). lia.
  - intros i j p v Hi Hv Hj a. split.
    + rewrite targets_nth.
      rewrite (nth_error_plan_of r h loss all_params (length s) i (2 * j) p Hi)
        by (destruct r; simpl in *; lia).
      unfold a. destruct r; simpl in Hj; try lia;
        (destruct j as [|[|j]]; [| |lia]); simpl; try lia;
        f_equal; lia.
    + exists (zeros_for floatX s p). split.
      * unfold a. now apply nth_error_new_arrays.
      * unfold zeros_for. rewrite Hv. repeat split.
Qed.

Lemma accumulators_zero_like_witness :
  allocated sample_store [0; 1] /\
  exists plan s' acc,
    run float32 Adadelta sample_hyper (EShared 0) [0; 1] sample_store
    = Some (plan, s') /\
    nth_error (targets plan) 5 = Some 5 /\
    nth_error s' 5 = Some acc /\
    nd_data acc = [0; 0]%R /\ nd_shape acc = [1; 2] /\ nd_dtype acc = float32.
Proof.
  assert (Hall : allocated sample_store [0; 1]) by (repeat constructor).
  split; [exact Hall |].
  destruct (accumulators_zero_like float32 Adadelta sample_hyper (EShared 0)
              [0; 1] sample_store Hall)
    as (plan & s' & Hrun & _ & _ & _ & Hacc).
  destruct (Hacc 1 1 1 _ eq_refl eq_refl (le_n 2))
    as (Htarget & acc & Hnth & Hdata & Hshape & Hdtype).
  exists plan, s', acc. repeat split; assumption.
Defined.

(** C5 as stated fails on the element type: with [floatX = float32], the
    accumulator [momentum] creates for a [float64] parameter is [float32].
    The parameter is a scalar and the loss is the parameter itself. *)
Lemma accumulator_dtype_counterexample :
  exists plan s' param acc,
    momentum float32 (EShared 0) [0] 1 0.9 scalar_float64_store
    = Some (plan, s') /\
    targets plan = [1; 0] /\
    nth_error s' 0 = Some param /\ nth_error s' 1 = Some acc /\
    nd_dtype param = float64 /\ nd_dtype acc = float32 /\
    nd_dtype acc <> nd_dtype param.
Proof.
  assert (Hall : allocated scalar_float64_store [0]) by (repeat constructor).
  pose proof (run_closed_form float32 (mk_hyper 1 0.9 0 0) (EShared 0)
                Momentum [0] scalar_float64_store Hall) as Hrun.
  simpl run in Hrun.
  eexists. eexists. eexists. eexists.
  split; [exact Hrun |].
  split; [reflexivity |]. split; [reflexivity |]. split; [reflexivity |].
  split; [reflexivity |]. split; [reflexivity |]. discriminate.
Qed.

(** ** norm_constraint: the axes *)

(** C3.  Without [norm_axes], [norm_constraint] sums over axis 0 for rank 2
    and over every axis but 0 for ranks 3, 4 and 5; for any other rank it
    fails with a [ValueError] whose message carries the rank in decimal and
    asks for [norm_axes]; so it does for rank 1. *)
Theorem default_norm_axes (tensor_var : TensorVariable) (max_norm epsilon : R) :
  let rescaled axes :=
    inr (constrained_output (tv_expr tensor_var) max_norm axes epsilon) in
  let message n :=
    ("Unsupported tensor dimensionality " ++ format_nat n
       ++ ".Must specify `norm_axes`")%string in
  norm_constraint tensor_var max_norm None epsilon
  = match ndim tensor_var with
    | 2 => rescaled [0%Z]
    | 3 => rescaled [1%Z; 2%Z]
    | 4 => rescaled [1%Z; 2%Z; 3%Z]
    | 5 => rescaled [1%Z; 2%Z; 3%Z; 4%Z]
    | n => inl (ValueError (message n))
    end /\
  norm_constraint (mk_tensor (tv_expr tensor_var) 1) max_norm None epsilon
  = inl (ValueError
           "Unsupported tensor dimensionality 1.Must specify `norm_axes`") /\
  (forall n,
      option_map Nat.of_uint (NilEmpty.uint_of_string (format_nat n)) = Some n) /\
  (forall k, 3 <= ndim tensor_var <= 5 ->
     sum_over (ndim tensor_var) None
     = inr (map Z.of_nat (seq 1 (ndim tensor_var - 1))) /\
     (In (Z.of_nat k) (map Z.of_nat (seq 1 (ndim tensor_var - 1)))
      <-> 1 <= k < ndim tensor_var)).
Proof.
  intros rescaled message. unfold norm_constraint.
  split; [| split; [| split]].
  - destruct (ndim tensor_var) as [|[|[|[|[|[|n]]]]]]; reflexivity.
  - reflexivity.
  - intros n. unfold format_nat. rewrite NilEmpty.usu. simpl.
    now rewrite DecimalNat.Unsigned.of_to.
  - intros k Hrank. split.
    + destruct (ndim tensor_var) as [|[|[|[|[|[|n]]]]]]; try lia; reflexivity.
    + rewrite in_map_iff. split.
      * intros (j & Hj & Hin). apply Nat2Z.inj in Hj. subst j.
        apply in_seq in Hin. lia.
      * intros Hk. exists k. split; [reflexivity |]. apply in_seq. lia.
Qed.

(** ** Slices of a sum with kept dimensions *)

Section Slices.

Variable ax : list nat.

Lemma keepdims_shrunk (shp : list nat) :
  forall k,
    Forall2 (fun d r => r = d \/ r = 1) shp (keepdims_shape k ax shp).
Proof.
  induction shp as [|d shp IH]; intros k; simpl; constructor.
  - destruct (reduced ax k); auto.
  - apply IH.
Qed.

Lemma keepdims_length (shp : list nat) :
  forall k, length (keepdims_shape k ax shp) = length shp.
Proof.
  induction shp as [|d shp IH]; intros k; simpl; [reflexivity |].
  now rewrite IH.
Qed.

Lemma broadcast_index_cons (d : nat) (shp : list nat) (i : nat) (idx : index) :
  length idx = length shp ->
  broadcast_index (d :: shp) (i :: idx)
  = (if d =? 1 then 0 else i) :: broadcast_index shp idx.
Proof.
  intros Hlen. unfold broadcast_index. simpl length.
  rewrite Hlen, !Nat.sub_diag. reflexivity.
Qed.

Lemma broadcast_index_length (shp : list nat) (idx : index) :
  length idx = length shp -> length (broadcast_index shp idx) = length shp.
Proof.
  intros Hlen. unfold broadcast_index.
  rewrite Hlen, Nat.sub_diag. simpl.
  rewrite length_map, length_combine. lia.
Qed.

Lemma broadcast_index_idem (shp : list nat) :
  forall idx,
    length idx = length shp ->
    broadcast_index shp (broadcast_index shp idx) = broadcast_index shp idx.
Proof.
  induction shp as [|d shp IH]; intros idx Hlen.
  - reflexivity.
  - destruct idx as [|i idx]; [discriminate Hlen |].
    injection Hlen as Hlen.
    rewrite broadcast_index_cons by assumption.
    rewrite broadcast_index_cons by now apply broadcast_index_length.
    rewrite IH by assumption. f_equal.
    destruct (d =? 1); reflexivity.
Qed.

(** The slice through an index does not depend on its position along the
    reduced axes. *)
Lemma slice_broadcast (shp : list nat) (idx : index) :
  in_bounds shp idx ->
  forall k,
    slice k ax shp (broadcast_index (keepdims_shape k ax shp) idx)
    = slice k ax shp idx.
Proof.
  induction 1 as [|i d idx shp Hlt Hin IH]; intros k.
  - reflexivity.
  - simpl keepdims_shape.
    rewrite broadcast_index_cons
      by (rewrite keepdims_length; now apply in_bounds_length).
    simpl. rewrite IH.
    destruct (reduced ax k); [reflexivity |].
    destruct (d =? 1) eqn:E; [|reflexivity].
    apply Nat.eqb_eq in E. replace i with 0 by lia. reflexivity.
Qed.

Lemma slice_in_bounds (shp : list nat) (idx : index) :
  in_bounds shp idx ->
  forall k j, In j (slice k ax shp idx) -> in_bounds shp j.
Proof.
  induction 1 as [|i d idx shp Hlt Hin IH]; intros k j Hj; simpl in Hj.
  - destruct Hj as [<- | []]. constructor.
  - destruct (reduced ax k).
    + apply in_flat_map in Hj. destruct Hj as (j0 & Hj0 & Hj).
      apply in_map_iff in Hj. destruct Hj as (j' & <- & Hj').
      apply in_seq in Hj0. constructor; [lia | now apply (IH (S k))].
    + apply in_map_iff in Hj. destruct Hj as (j' & <- & Hj').
      constructor; [assumption | now apply (IH (S k))].
Qed.

Lemma slice_same (shp : list nat) (idx : index) :
  in_bounds shp idx ->
  forall k j, In j (slice k ax shp idx) ->
              slice k ax shp j = slice k ax shp idx.
Proof.
  induction 1 as [|i d idx shp Hlt Hin IH]; intros k j Hj; simpl in Hj.
  - destruct Hj as [<- | []]. reflexivity.
  - destruct (reduced ax k) eqn:E.
    + apply in_flat_map in Hj. destruct Hj as (j0 & Hj0 & Hj).
      apply in_map_iff in Hj. destruct Hj as (j' & <- & Hj').
      simpl. rewrite E. now rewrite (IH (S k) j' Hj').
    + apply in_map_iff in Hj. destruct Hj as (j' & <- & Hj').
      simpl. rewrite E. now rewrite (IH (S k) j' Hj').
Qed.

Lemma slice_self (shp : list nat) (idx : index) :
  in_bounds shp idx -> forall k, In idx (slice k ax shp idx).
Proof.
  induction 1 as [|i d idx shp Hlt Hin IH]; intros k; simpl.
  - now left.
  - destruct (reduced ax k).
    + apply in_flat_map. exists i. split; [apply in_seq; lia |].
      apply in_map. apply IH.
    + apply in_map. apply IH.
Qed.

End Slices.

(** ** Evaluating the output of norm_constraint *)

Section Constrained.

Variable env : Env.

Lemma sum_keepdims_defined (axes : list Z) (ax : list nat) (t : tensor) :
  normalize_axes (length (shape t)) axes = Some ax ->
  sum_keepdims axes t
  = Some {| shape := keepdims_shape 0 ax (shape t);
            elem := fun idx =>
                      sum_elems (map (elem t) (slice 0 ax (shape t) idx)) |}.
Proof. intros H. unfold sum_keepdims. now rewrite H. Qed.

Lemma lift3_scalars (f : R -> R -> R -> option R) (t : tensor) (c1 c2 : R) :
  lift3 f t (scalar c1) (scalar c2)
  = Some {| shape := shape t;
            elem := fun idx =>
                      opt_bind (elem t (broadcast_index (shape t) idx))
                               (fun r => f r c1 c2) |}.
Proof.
  unfold lift3. simpl shape. rewrite !broadcast_shape_nil_r. reflexivity.
Qed.

Lemma lift2_scalar_l (f : R -> R -> option R) (c : R) (t : tensor) :
  lift2 f (scalar c) t
  = Some {| shape := shape t;
            elem := fun idx =>
                      opt_bind (elem t (broadcast_index (shape t) idx))
                               (fun r => f c r) |}.
Proof.
  unfold lift2. simpl shape. rewrite broadcast_shape_nil_l. reflexivity.
Qed.

Lemma lift2_shrunk (f : R -> R -> option R) (a b : tensor) :
  Forall2 (fun d r => r = d \/ r = 1) (shape a) (shape b) ->
  lift2 f a b
  = Some {| shape := shape a;
            elem := fun idx =>
                      opt_bind (elem a (broadcast_index (shape a) idx)) (fun r =>
                      opt_bind (elem b (broadcast_index (shape b) idx)) (fun q =>
                      f r q)) |}.
Proof.
  intros H. unfold lift2. rewrite (broadcast_shape_shrunk _ _ H).
  f_equal.
Qed.

Lemma shrunk_refl (l : list nat) : Forall2 (fun d r => r = d \/ r = 1) l l.
Proof. induction l; constructor; auto. Qed.

Lemma constrained_eval (e : expr) (x : tensor) (axes : list Z) (ax : list nat)
      (max_norm epsilon : R) :
  eval env e = Some x ->
  normalize_axes (length (shape x)) axes = Some ax ->
  exists y,
    eval env (constrained_output e max_norm axes epsilon) = Some y /\
    shape y = shape x /\
    forall idx, in_bounds (shape x) idx ->
      elem y idx
      = opt_bind (elem x idx) (fun r =>
        opt_bind (slice_norm ax x idx) (rescale max_norm epsilon r)).
Proof.
  intros Hx Hax. unfold constrained_output. cbn [eval]. rewrite Hx.
  cbn [opt_bind].
  rewrite (sum_keepdims_defined axes ax (lift1 (fun r => Some (r * r)%R) x))
    by exact Hax.
  cbn [opt_bind].
  set (norms := lift1 r_sqrt _).
  assert (Hnorms : forall idx, elem norms idx = slice_norm ax x idx)
    by reflexivity.
  assert (Hshape : shape norms = keepdims_shape 0 ax (shape x))
    by reflexivity.
  clearbody norms.
  rewrite lift3_scalars, lift2_scalar_l. cbn [opt_bind].
  rewrite lift2_shrunk by apply shrunk_refl. cbn [opt_bind shape].
  rewrite lift2_shrunk
    by (cbn [shape]; rewrite Hshape; apply keepdims_shrunk).
  eexists. split; [reflexivity |]. split; [reflexivity |].
  intros idx Hin. cbn [elem shape].
  rewrite (broadcast_index_id (shape x) idx Hin).
  destruct (elem x idx) as [r|]; [|reflexivity]. cbn [opt_bind].
  assert (Hlen : length idx = length (shape norms))
    by (rewrite Hshape, keepdims_length; now apply in_bounds_length).
  rewrite !broadcast_index_idem
    by (repeat apply broadcast_index_length; exact Hlen).
  rewrite Hnorms, Hshape. unfold slice_norm.
  rewrite (slice_broadcast ax (shape x) idx Hin 0).
  fold (slice_norm ax x idx).
  destruct (slice_norm ax x idx) as [n|]; [|reflexivity].
  unfold rescale, total2. cbn [opt_bind].
  destruct (r_div (r_clip n 0 max_norm) (epsilon + n)); reflexivity.
Qed.

End Constrained.

(** ** Norms of rescaled slices *)

Section SliceNorms.

Lemma sum_elems_defined (f : index -> option R) (J : list index) (t : R) :
  sum_elems (map f J) = Some t -> forall j, In j J -> exists v, f j = Some v.
Proof.
  revert t. induction J as [|i J IH]; intros t Hsum j Hj; [destruct Hj |].
  simpl in Hsum.
  destruct (f i) as [a|] eqn:Ei; [|discriminate Hsum].
  destruct (sum_elems (map f J)) as [b|] eqn:Es; [|discriminate Hsum].
  destruct Hj as [<- | Hj]; [now exists a | now apply (IH b)].
Qed.

Lemma sum_elems_undefined (f : index -> option R) (J : list index) (j : index) :
  In j J -> f j = None -> sum_elems (map f J) = None.
Proof.
  intros Hj Hnone. destruct (sum_elems (map f J)) as [t|] eqn:Es; [|reflexivity].
  destruct (sum_elems_defined f J t Es j Hj) as (v & Hv). congruence.
Qed.

Lemma sum_squares_nonneg (g : index -> option R) (J : list index) :
  forall t, sum_elems (map (squared g) J) = Some t -> (0 <= t)%R.
Proof.
  induction J as [|i J IH]; intros t Hsum; simpl in Hsum.
  - injection Hsum as <-. lra.
  - unfold squared at 1 in Hsum.
    destruct (g i) as [a|]; [|discriminate Hsum]. simpl in Hsum.
    destruct (sum_elems (map (squared g) J)) as [b|]; [|discriminate Hsum].
    injection Hsum as <-. specialize (IH b eq_refl). nra.
Qed.

Lemma sum_squares_scaled (g g' : index -> option R) (c : R) (J : list index) :
  (forall j v, In j J -> g j = Some v -> g' j = Some (v * c)%R) ->
  forall t, sum_elems (map (squared g) J) = Some t ->
            sum_elems (map (squared g') J) = Some (c * c * t)%R.
Proof.
  induction J as [|i J IH]; intros Hscaled t Hsum; simpl in *.
  - injection Hsum as <-. f_equal. ring.
  - unfold squared at 1 in Hsum. unfold squared at 1.
    destruct (g i) as [a|] eqn:Ei; [|discriminate Hsum]. simpl in Hsum.
    rewrite (Hscaled i a (or_introl eq_refl) Ei). simpl.
    destruct (sum_elems (map (squared g) J)) as [b|]; [|discriminate Hsum].
    rewrite (IH (fun j v Hj => Hscaled j v (or_intror Hj)) b eq_refl).
    injection Hsum as <-. f_equal. ring.
Qed.

Lemma slice_norm_unfold (ax : list nat) (a : tensor) (idx : index) :
  slice_norm ax a idx
  = opt_bind (sum_elems (map (squared (elem a)) (slice 0 ax (shape a) idx)))
             r_sqrt.
Proof. reflexivity. Qed.

(** What a defined norm says: the squares sum to [t] and [n = sqrt t]. *)
Lemma slice_norm_defined (ax : list nat) (a : tensor) (idx : index) (n : R) :
  slice_norm ax a idx = Some n ->
  exists t,
    sum_elems (map (squared (elem a)) (slice 0 ax (shape a) idx)) = Some t /\
    (0 <= t)%R /\ n = sqrt t.
Proof.
  rewrite slice_norm_unfold. intros H.
  destruct (sum_elems _) as [t|] eqn:Es; [|discriminate H].
  exists t. split; [reflexivity |].
  pose proof (sum_squares_nonneg _ _ t Es) as Ht.
  split; [exact Ht |]. simpl in H. rewrite r_sqrt_defined in H by exact Ht.
  congruence.
Qed.

Lemma slice_norm_nonneg (ax : list nat) (a : tensor) (idx : index) (n : R) :
  slice_norm ax a idx = Some n -> (0 <= n)%R.
Proof.
  intros H. destruct (slice_norm_defined ax a idx n H) as (t & _ & _ & ->).
  apply sqrt_pos.
Qed.

Lemma slice_norm_elem (ax : list nat) (a : tensor) (idx : index) (n : R) :
  in_bounds (shape a) idx -> slice_norm ax a idx = Some n ->
  exists v, elem a idx = Some v.
Proof.
  intros Hin H. destruct (slice_norm_defined ax a idx n H) as (t & Hsum & _).
  destruct (sum_elems_defined _ _ t Hsum idx (slice_self ax _ idx Hin 0))
    as (v & Hv).
  unfold squared in Hv. destruct (elem a idx) as [r|]; [|discriminate Hv].
  now exists r.
Qed.

Lemma slice_norm_same (ax : list nat) (a : tensor) (idx j : index) :
  in_bounds (shape a) idx -> In j (slice 0 ax (shape a) idx) ->
  slice_norm ax a j = slice_norm ax a idx.
Proof.
  intros Hin Hj. rewrite !slice_norm_unfold.
  now rewrite (slice_same ax (shape a) idx Hin 0 j Hj).
Qed.

(** An undefined element leaves the norm of its slice undefined. *)
Lemma slice_norm_undefined (ax : list nat) (a : tensor) (idx : index) :
  in_bounds (shape a) idx -> elem a idx = None -> slice_norm ax a idx = None.
Proof.
  intros Hin Hnone. rewrite slice_norm_unfold.
  rewrite (sum_elems_undefined (squared (elem a)) _ idx); [reflexivity | |].
  - now apply slice_self.
  - unfold squared. now rewrite Hnone.
Qed.

Variable ax : list nat.
Variables max_norm epsilon : R.
Variables x y : tensor.

Hypothesis same_shape : shape y = shape x.
Hypothesis rescaled :
  forall idx, in_bounds (shape x) idx ->
    elem y idx
    = opt_bind (elem x idx) (fun r =>
      opt_bind (slice_norm ax x idx) (rescale max_norm epsilon r)).

(** Every element of a slice of norm [n] is multiplied by the same factor,
    and so is the norm, up to the sign. *)
Lemma rescaled_norm (idx : index) (n c : R) :
  in_bounds (shape x) idx ->
  slice_norm ax x idx = Some n ->
  r_div (r_clip n 0 max_norm) (epsilon + n) = Some c ->
  slice_norm ax y idx = Some (Rabs c * n)%R /\
  forall v, elem x idx = Some v -> elem y idx = Some (v * c)%R.
Proof.
  intros Hin Hn Hc.
  assert (Hscaled : forall j v, In j (slice 0 ax (shape x) idx) ->
                                elem x j = Some v -> elem y j = Some (v * c)%R).
  { intros j v Hj Hv.
    rewrite (rescaled j (slice_in_bounds ax _ idx Hin 0 j Hj)), Hv.
    cbn [opt_bind]. rewrite (slice_norm_same ax x idx j Hin Hj), Hn.
    cbn [opt_bind]. unfold rescale. now rewrite Hc. }
  split.
  - destruct (slice_norm_defined ax x idx n Hn) as (t & Hsum & Ht & ->).
    rewrite slice_norm_unfold, same_shape.
    rewrite (sum_squares_scaled (elem x) (elem y) c _ Hscaled t Hsum).
    cbn [opt_bind]. rewrite r_sqrt_defined by nra. f_equal.
    rewrite sqrt_mult by nra. f_equal.
    change (c * c)%R with (Rsqr c). apply sqrt_Rsqr_abs.
  - intros v Hv. apply Hscaled; [now apply slice_self | exact Hv].
Qed.

(** A slice without a norm, or whose factor is undefined, has no defined
    element in the output. *)
Lemma rescaled_undefined (idx : index) :
  in_bounds (shape x) idx ->
  (slice_norm ax x idx = None \/
   exists n, slice_norm ax x idx = Some n /\
             r_div (r_clip n 0 max_norm) (epsilon + n) = None) ->
  elem y idx = None.
Proof.
  intros Hin H. rewrite (rescaled idx Hin).
  destruct (elem x idx) as [v|]; [|reflexivity]. cbn [opt_bind].
  destruct H as [-> | (n & -> & Hc)]; [reflexivity |].
  cbn [opt_bind]. unfold rescale. now rewrite Hc.
Qed.

End SliceNorms.

(** ** norm_constraint: the rescaling *)

Lemma r_clip_above (n max_norm : R) :
  (0 <= n)%R -> (max_norm < n)%R -> r_clip n 0 max_norm = max_norm.
Proof.
  intros H0 H1. unfold r_clip.
  destruct (Rlt_dec n 0); [lra |]. destruct (Rlt_dec max_norm n); [reflexivity | lra].
Qed.

Lemma r_clip_within (n max_norm : R) :
  (0 <= n)%R -> (n <= max_norm)%R -> r_clip n 0 max_norm = n.
Proof.
  intros H0 H1. unfold r_clip.
  destruct (Rlt_dec n 0); [lra |]. destruct (Rlt_dec max_norm n); [lra | reflexivity].
Qed.

Lemma rescale_within (max_norm v n : R) :
  (0 < n <= max_norm)%R -> rescale max_norm 0 v n = Some v.
Proof.
  intros [H0 H1]. unfold rescale.
  rewrite r_clip_within by lra. rewrite r_div_defined by lra.
  cbn [opt_bind]. f_equal. field. lra.
Qed.

Lemma rescale_zero_norm (max_norm v : R) : rescale max_norm 0 v 0 = None.
Proof.
  unfold rescale. replace (0 + 0)%R with 0%R by lra. now rewrite r_div_zero.
Qed.

(** C4, as amended.  [norm_constraint] returns
    [tensor * (clip(norm, 0, max_norm) / (epsilon + norm))] with
    [norm = sqrt(sum(tensor^2, axes, keepdims=True))].  With [epsilon = 0]:
    a slice whose norm exceeds [max_norm >= 0] comes out with norm exactly
    [max_norm]; a slice with [0 < norm <= max_norm] comes out unchanged; a
    slice of norm 0 has no defined value (0/0); and for [max_norm > 0]
    applying [norm_constraint] to its own output gives that output again. *)
Theorem norm_constraint_rescales
        (env : Env) (tensor_var : TensorVariable) (max_norm : R)
        (norm_axes : option (list Z)) (axes : list Z) (ax : list nat)
        (x : tensor) :
  sum_over (ndim tensor_var) norm_axes = inr axes ->
  eval env (tv_expr tensor_var) = Some x ->
  normalize_axes (length (shape x)) axes = Some ax ->
  (forall epsilon,
      let norm := ESqrt (ESum (ESqr (tv_expr tensor_var)) axes) in
      norm_constraint tensor_var max_norm norm_axes epsilon
      = inr (EMul (tv_expr tensor_var)
                  (EDiv (EClip norm (EConst 0) (EConst max_norm))
                        (EAdd (EConst epsilon) norm)))) /\
  (forall epsilon,
      exists out y,
        norm_constraint tensor_var max_norm norm_axes epsilon = inr out /\
        eval env out = Some y /\ shape y = shape x /\
        forall idx, in_bounds (shape x) idx ->
          elem y idx
          = opt_bind (elem x idx) (fun r =>
            opt_bind (slice_norm ax x idx) (rescale max_norm epsilon r))) /\
  exists out y,
    norm_constraint tensor_var max_norm norm_axes 0 = inr out /\
    eval env out = Some y /\ shape y = shape x /\
    (forall idx n,
        in_bounds (shape x) idx -> slice_norm ax x idx = Some n ->
        ((0 <= max_norm < n)%R -> slice_norm ax y idx = Some max_norm) /\
        ((0 < n <= max_norm)%R -> elem y idx = elem x idx) /\
        (n = 0%R -> elem y idx = None)) /\
    ((0 < max_norm)%R ->
     exists out2,
       norm_constraint (mk_tensor out (ndim tensor_var)) max_norm norm_axes 0
       = inr out2 /\
       same_result (eval env out2) (Some y)).
Proof.
  intros Haxes Hx Hax.
  assert (Hrun : forall e epsilon,
             norm_constraint (mk_tensor e (ndim tensor_var)) max_norm
                             norm_axes epsilon
             = inr (constrained_output e max_norm axes epsilon)).
  { intros e epsilon. unfold norm_constraint. simpl ndim. now rewrite Haxes. }
  assert (Hrun0 : forall epsilon,
             norm_constraint tensor_var max_norm norm_axes epsilon
             = inr (constrained_output (tv_expr tensor_var) max_norm axes
                                       epsilon)).
  { intros epsilon. unfold norm_constraint. now rewrite Haxes. }
  split; [intros epsilon norm; apply Hrun0 |].
  split.
  { intros epsilon.
    destruct (constrained_eval env (tv_expr tensor_var) x axes ax max_norm
                epsilon Hx Hax) as (y & Hy & Hshape & Helem).
    exists (constrained_output (tv_expr tensor_var) max_norm axes epsilon), y.
    repeat split; auto. }
  destruct (constrained_eval env (tv_expr tensor_var) x axes ax max_norm 0
              Hx Hax) as (y & Hy & Hshape & Helem).
  exists (constrained_output (tv_expr tensor_var) max_norm axes 0), y.
  split; [apply Hrun0 |]. split; [exact Hy |]. split; [exact Hshape |].
  split.
  - intros idx n Hin Hn.
    pose proof (slice_norm_nonneg ax x idx n Hn) as Hn0.
    split; [| split].
    + intros [Hmax Hlt].
      assert (Hc : r_div (r_clip n 0 max_norm) (0 + n)
                   = Some (max_norm / (0 + n))%R)
        by (rewrite r_clip_above by lra; apply r_div_defined; lra).
      destruct (rescaled_norm ax max_norm 0 x y Hshape Helem idx n _ Hin Hn Hc)
        as [Hnorm _].
      rewrite Hnorm. f_equal.
      rewrite Rabs_pos_eq.
      * field. lra.
      * apply Rmult_le_pos; [lra |]. apply Rlt_le, Rinv_0_lt_compat. lra.
    + intros Hwithin.
      destruct (slice_norm_elem ax x idx n Hin Hn) as (v & Hv).
      rewrite (Helem idx Hin), Hv, Hn. cbn [opt_bind].
      now apply rescale_within.
    + intros ->.
      apply (rescaled_undefined ax max_norm 0 x y Helem idx Hin).
      right. exists 0%R. split; [exact Hn |].
      replace (0 + 0)%R with 0%R by lra. apply r_div_zero.
  - intros Hpos.
    exists (constrained_output
              (constrained_output (tv_expr tensor_var) max_norm axes 0)
              max_norm axes 0).
    split; [apply Hrun |].
    assert (Hax' : normalize_axes (length (shape y)) axes = Some ax)
      by now rewrite Hshape.
    destruct (constrained_eval env _ y axes ax max_norm 0 Hy Hax')
      as (z & Hz & Hshape_z & Helem_z).
    rewrite Hz. simpl. split; [exact Hshape_z |].
    intros idx Hin. rewrite Hshape_z in Hin.
    rewrite (Helem_z idx Hin). rewrite Hshape in Hin.
    destruct (slice_norm ax x idx) as [n|] eqn:Hn.
    + pose proof (slice_norm_nonneg ax x idx n Hn) as Hn0.
      destruct (Req_dec_T n 0) as [-> | Hnz].
      * rewrite (rescaled_undefined ax max_norm 0 x y Helem idx Hin);
          [reflexivity |].
        right. exists 0%R. split; [exact Hn |].
        replace (0 + 0)%R with 0%R by lra. apply r_div_zero.
      * set (m := r_clip n 0 max_norm).
        assert (Hm : (0 < m <= max_norm)%R /\ (m <= n)%R).
        { unfold m. destruct (Rlt_dec max_norm n).
          - rewrite r_clip_above by lra. lra.
          - rewrite r_clip_within by lra. lra. }
        assert (Hc : r_div m (0 + n) = Some (m / (0 + n))%R)
          by (apply r_div_defined; lra).
        destruct (rescaled_norm ax max_norm 0 x y Hshape Helem idx n _
                    Hin Hn Hc) as [Hnorm Hscaled].
        destruct (slice_norm_elem ax x idx n Hin Hn) as (v & Hv).
        rewrite (Hscaled v Hv), Hnorm. cbn [opt_bind].
        apply rescale_within.
        rewrite Rabs_pos_eq.
        -- replace (m / (0 + n) * n)%R with m by (field; lra). lra.
        -- apply Rmult_le_pos; [lra |]. apply Rlt_le, Rinv_0_lt_compat. lra.
    + rewrite (rescaled_undefined ax max_norm 0 x y Helem idx Hin);
        [reflexivity | now left].
Qed.

(** The norm of a column of a 2x2 matrix [[a, b], [c, d]] held in a shared
    variable. *)
Lemma column_norms (dt : dtype) (a b c d : R) :
  let x := value_of {| nd_dtype := dt; nd_shape := [2; 2];
                       nd_data := [a; b; c; d] |} in
  forall i, i < 2 ->
    slice_norm [0] x [i; 0] = Some (sqrt (a * a + c * c)) /\
    slice_norm [0] x [i; 1] = Some (sqrt (b * b + d * d)).
Proof.
  intros x i Hi. rewrite !slice_norm_unfold.
  assert (Hcases : i = 0 \/ i = 1) by lia.
  destruct Hcases as [-> | ->]; simpl; unfold squared; simpl;
    (split; (rewrite r_sqrt_defined by nra; do 2 f_equal; ring)).
Qed.

Lemma norm_constraint_rescales_witness :
  sum_over (ndim matrix_var) None = inr [0%Z] /\
  (exists x,
      eval columns_env (tv_expr matrix_var) = Some x /\
      normalize_axes (length (shape x)) [0%Z] = Some [0] /\
      slice_norm [0] x [0; 0] = Some 20%R /\
      slice_norm [0] x [0; 1] = Some 5%R /\
      exists out y,
        norm_constraint matrix_var 10 None 0 = inr out /\
        eval columns_env out = Some y /\
        slice_norm [0] y [0; 0] = Some 10%R /\
        elem y [0; 1] = elem x [0; 1] /\
        exists out2,
          norm_constraint (mk_tensor out 2) 10 None 0 = inr out2 /\
          same_result (eval columns_env out2) (Some y)).
Proof.
  set (env := columns_env). set (tensor_var := matrix_var).
  set (x := value_of {| nd_dtype := float64; nd_shape := [2; 2];
                        nd_data := [12; 3; 16; 4]%R |}).
  assert (Haxes : sum_over (ndim tensor_var) None = inr [0%Z]) by reflexivity.
  assert (Hx : eval env (tv_expr tensor_var) = Some x) by reflexivity.
  assert (Hax : normalize_axes (length (shape x)) [0%Z] = Some [0])
    by reflexivity.
  assert (Hn0 : slice_norm [0] x [0; 0] = Some 20%R).
  { unfold x. rewrite (proj1 (column_norms float64 12 3 16 4 0 (le_S 1 1 (le_n 1)))).
    f_equal. replace (12 * 12 + 16 * 16)%R with (20 * 20)%R by lra.
    apply sqrt_square. lra. }
  assert (Hn1 : slice_norm [0] x [0; 1] = Some 5%R).
  { unfold x. rewrite (proj2 (column_norms float64 12 3 16 4 0 (le_S 1 1 (le_n 1)))).
    f_equal. replace (3 * 3 + 4 * 4)%R with (5 * 5)%R by lra.
    apply sqrt_square. lra. }
  split; [exact Haxes |].
  exists x. split; [exact Hx |]. split; [exact Hax |].
  split; [exact Hn0 |]. split; [exact Hn1 |].
  destruct (norm_constraint_rescales env tensor_var 10 None [0%Z] [0] x
              Haxes Hx Hax)
    as (_ & _ & out & y & Hout & Hy & _ & Hslices & Hidem).
  exists out, y. split; [exact Hout |]. split; [exact Hy |].
  assert (Hin0 : in_bounds (shape x) [0; 0])
    by (repeat constructor).
  assert (Hin1 : in_bounds (shape x) [0; 1])
    by (repeat constructor).
  split; [apply (proj1 (Hslices [0; 0] 20%R Hin0 Hn0)); lra |].
  split; [apply (proj1 (proj2 (Hslices [0; 1] 5%R Hin1 Hn1))); lra |].
  apply Hidem. lra.
Defined.

(** C4 as stated fails in three places when [epsilon = 0]: a zero column,
    within any [max_norm], comes out undefined instead of unchanged; with
    [max_norm = -1] a column of norm 5 comes out with norm 1; with
    [max_norm = 0] a second application turns the zeros of the first into
    undefined values. *)
Lemma norm_constraint_counterexample :
  (exists x out y,
     eval zero_column_env (EShared 0) = Some x /\
     norm_constraint matrix_var 10 None 0 = inr out /\
     eval zero_column_env out = Some y /\
     slice_norm [0] x [0; 0] = Some 0%R /\
     elem x [0; 0] = Some 0%R /\
     elem y [0; 0] = None) /\
  (exists x out y,
     eval columns_env (EShared 0) = Some x /\
     norm_constraint matrix_var (-1) None 0 = inr out /\
     eval columns_env out = Some y /\
     slice_norm [0] x [0; 1] = Some 5%R /\
     slice_norm [0] y [0; 1] = Some 1%R) /\
  (exists out y out2 z,
     norm_constraint matrix_var 0 None 0 = inr out /\
     eval columns_env out = Some y /\
     norm_constraint (mk_tensor out 2) 0 None 0 = inr out2 /\
     eval columns_env out2 = Some z /\
     elem y [0; 1] = Some 0%R /\
     elem z [0; 1] = None).
Proof.
  assert (Hax : forall dt data,
             normalize_axes
               (length (shape (value_of (mk_ndarray dt [2; 2] data))))
               [0%Z] = Some [0]) by reflexivity.
  assert (Hin0 : in_bounds [2; 2] [0; 0]) by (repeat constructor).
  assert (Hin1 : in_bounds [2; 2] [0; 1]) by (repeat constructor).
  split; [| split].
  - set (env := zero_column_env).
    set (x := value_of (mk_ndarray float64 [2; 2] [0; 3; 0; 4]%R)).
    assert (Hx : eval env (EShared 0) = Some x) by reflexivity.
    destruct (constrained_eval env (EShared 0) x [0%Z] [0] 10 0 Hx (Hax _ _))
      as (y & Hy & _ & Helem).
    assert (Hn : slice_norm [0] x [0; 0] = Some 0%R).
    { unfold x.
      rewrite (proj1 (column_norms float64 0 3 0 4 0 (le_S 1 1 (le_n 1)))).
      f_equal. replace (0 * 0 + 0 * 0)%R with 0%R by lra. apply sqrt_0. }
    exists x, (constrained_output (EShared 0) 10 [0%Z] 0), y.
    split; [exact Hx |]. split; [reflexivity |]. split; [exact Hy |].
    split; [exact Hn |]. split; [reflexivity |].
    rewrite (Helem [0; 0] Hin0), Hn.
    change (elem x [0; 0]) with (Some 0%R). cbn [opt_bind].
    apply rescale_zero_norm.
  - set (env := columns_env).
    set (x := value_of (mk_ndarray float64 [2; 2] [12; 3; 16; 4]%R)).
    assert (Hx : eval env (EShared 0) = Some x) by reflexivity.
    destruct (constrained_eval env (EShared 0) x [0%Z] [0] (-1) 0 Hx (Hax _ _))
      as (y & Hy & Hshape & Helem).
    assert (Hn : slice_norm [0] x [0; 1] = Some 5%R).
    { unfold x.
      rewrite (proj2 (column_norms float64 12 3 16 4 0 (le_S 1 1 (le_n 1)))).
      f_equal. replace (3 * 3 + 4 * 4)%R with (5 * 5)%R by lra.
      apply sqrt_square. lra. }
    exists x, (constrained_output (EShared 0) (-1) [0%Z] 0), y.
    split; [exact Hx |]. split; [reflexivity |]. split; [exact Hy |].
    split; [exact Hn |].
    assert (Hc : r_div (r_clip 5 0 (-1)) (0 + 5) = Some (-1 / (0 + 5))%R)
      by (rewrite r_clip_above by lra; apply r_div_defined; lra).
    destruct (rescaled_norm [0] (-1) 0 x y Hshape Helem [0; 1] 5 _ Hin1 Hn Hc)
      as [Hnorm _].
    rewrite Hnorm. f_equal.
    rewrite Rabs_left by lra. lra.
  - set (env := columns_env).
    set (x := value_of (mk_ndarray float64 [2; 2] [12; 3; 16; 4]%R)).
    assert (Hx : eval env (EShared 0) = Some x) by reflexivity.
    destruct (constrained_eval env (EShared 0) x [0%Z] [0] 0 0 Hx (Hax _ _))
      as (y & Hy & Hshape & Helem).
    assert (Hax' : normalize_axes (length (shape y)) [0%Z] = Some [0])
      by now rewrite Hshape.
    destruct (constrained_eval env _ y [0%Z] [0] 0 0 Hy Hax')
      as (z & Hz & Hshape_z & Helem_z).
    assert (Hn : slice_norm [0] x [0; 1] = Some 5%R).
    { unfold x.
      rewrite (proj2 (column_norms float64 12 3 16 4 0 (le_S 1 1 (le_n 1)))).
      f_equal. replace (3 * 3 + 4 * 4)%R with (5 * 5)%R by lra.
      apply sqrt_square. lra. }
    assert (Hc : r_div (r_clip 5 0 0) (0 + 5) = Some (0 / (0 + 5))%R)
      by (rewrite r_clip_above by lra; apply r_div_defined; lra).
    destruct (rescaled_norm [0] 0 0 x y Hshape Helem [0; 1] 5 _ Hin1 Hn Hc)
      as [Hnorm Hscaled].
    assert (Hy1 : elem y [0; 1] = Some 0%R).
    { rewrite (Hscaled 3%R eq_refl). f_equal. lra. }
    exists (constrained_output (EShared 0) 0 [0%Z] 0), y,
           (constrained_output (constrained_output (EShared 0) 0 [0%Z] 0)
                               0 [0%Z] 0), z.
    split; [reflexivity |]. split; [exact Hy |]. split; [reflexivity |].
    split; [exact Hz |]. split; [exact Hy1 |].
    assert (Hin1y : in_bounds (shape y) [0; 1]) by now rewrite Hshape.
    rewrite (Helem_z [0; 1] Hin1y), Hy1, Hnorm. cbn [opt_bind].
    replace (Rabs (0 / (0 + 5)) * 5)%R with 0%R.
    + apply rescale_zero_norm.
    + replace (0 / (0 + 5))%R with 0%R by lra. rewrite Rabs_R0. lra.
Qed.

(** ** norm_constraint with explicit axes *)

Lemma axis_in_rank_normalize (n : nat) (a : Z) :
  axis_in_rank n a = true <-> normalize_axis n a <> None.
Proof.
  unfold axis_in_rank, normalize_axis.
  destruct (Z.leb_spec 0 a), (Z.ltb_spec a (Z.of_nat n)),
           (Z.ltb_spec a 0), (Z.leb_spec (- Z.of_nat n) a);
    simpl; split; intros Hgoal;
    try reflexivity; try discriminate; try lia;
    exfalso; apply Hgoal; reflexivity.
Qed.

(** The axes [T.sum] accepts are the axes a sum has a value for. *)
Lemma axes_in_rank_normalize (n : nat) (axes : list Z) :
  forallb (axis_in_rank n) axes = true
  <-> exists ax, normalize_axes n axes = Some ax.
Proof.
  induction axes as [|a axes IH]; simpl.
  - split; [intros _; now exists [] | reflexivity].
  - rewrite andb_true_iff, IH, axis_in_rank_normalize. split.
    + intros [Hhere (ax & Hrest)]. rewrite Hrest.
      destruct (normalize_axis n a) as [k|]; [now eexists | now destruct Hhere].
    + intros (ax & Hax).
      destruct (normalize_axis n a) as [k|]; [|discriminate Hax].
      destruct (normalize_axes n axes) as [ks|]; [|discriminate Hax].
      split; [discriminate | now eexists].
Qed.

(** C10 as stated fails on an axis outside the rank: building the sum
    raises.  Axis 2 of a matrix, and axis 0 of a scalar. *)
Lemma explicit_axes_counterexample :
  norm_constraint_checked matrix_var 10 (Some [2%Z]) 1e-7
  = inl TheanoValueError /\
  norm_constraint_checked (mk_tensor (EShared 0) 0) 10 (Some [0%Z]) 1e-7
  = inl TheanoValueError.
Proof. split; reflexivity. Qed.

(** C10, as amended.  With [norm_axes] given, the dispatch on the rank and
    its error are bypassed for every rank: the axes are the given ones and
    the unsupported-dimensionality [ValueError] is never raised.
    [norm_constraint] returns exactly when every given axis is an axis of
    the tensor ([-ndim <= axis < ndim]); the norm inside the result then
    sums over exactly the given axes and, for a tensor of that rank, the
    result has a value, built from the norms over those axes.  An axis
    outside the rank makes [T.sum] raise. *)
Theorem explicit_axes_bypass_dispatch
        (tensor_var : TensorVariable) (max_norm : R) (norm_axes : list Z)
        (epsilon : R) :
  let norms := ESqrt (ESum (ESqr (tv_expr tensor_var)) norm_axes) in
  let rescaled :=
    EMul (tv_expr tensor_var)
         (EDiv (EClip norms (EConst 0) (EConst max_norm))
               (EAdd (EConst epsilon) norms)) in
  let result :=
    norm_constraint_checked tensor_var max_norm (Some norm_axes) epsilon in
  sum_over (ndim tensor_var) (Some norm_axes) = inr norm_axes /\
  (forall msg, result <> inl (ValueError msg)) /\
  (result = inr rescaled
   <-> forallb (axis_in_rank (ndim tensor_var)) norm_axes = true) /\
  (result = inl TheanoValueError
   <-> forallb (axis_in_rank (ndim tensor_var)) norm_axes = false) /\
  (forall out, result = inr out -> out = rescaled) /\
  (forall env x,
      eval env (tv_expr tensor_var) = Some x ->
      length (shape x) = ndim tensor_var ->
      result = inr rescaled ->
      exists ax y,
        normalize_axes (length (shape x)) norm_axes = Some ax /\
        eval env rescaled = Some y /\ shape y = shape x /\
        forall idx, in_bounds (shape x) idx ->
          elem y idx
          = opt_bind (elem x idx) (fun r =>
            opt_bind (slice_norm ax x idx) (rescale max_norm epsilon r))).
Proof.
  intros norms rescaled result.
  assert (Hresult :
            result
            = if forallb (axis_in_rank (ndim tensor_var)) norm_axes
              then inr rescaled else inl TheanoValueError) by reflexivity.
  split; [reflexivity |].
  split; [intros msg; rewrite Hresult;
          destruct (forallb _ norm_axes); discriminate |].
  split; [rewrite Hresult; destruct (forallb _ norm_axes);
          split; intros H; try reflexivity; discriminate H |].
  split; [rewrite Hresult; destruct (forallb _ norm_axes);
          split; intros H; try reflexivity; discriminate H |].
  split.
  - intros out. rewrite Hresult. destruct (forallb _ norm_axes); intros H.
    + now injection H as <-.
    + discriminate H.
  - intros env x Hx Hrank Hreturns.
    assert (Hvalid : forallb (axis_in_rank (ndim tensor_var)) norm_axes
                     = true).
    { rewrite Hresult in Hreturns.
      destruct (forallb _ norm_axes); [reflexivity | discriminate Hreturns]. }
    apply axes_in_rank_normalize in Hvalid. destruct Hvalid as (ax & Hax).
    rewrite <- Hrank in Hax.
    destruct (constrained_eval env (tv_expr tensor_var) x norm_axes ax
                max_norm epsilon Hx Hax) as (y & Hy & Hshape & Helem).
    exists ax, y. repeat split; auto.
Qed.

(** * Further properties *)

(** ** The targets of a plan *)

Section Targets.

Variable h : hyper.
Variable loss : expr.
Variable r : rule.
Variables base n : nat.

(** The targets the parameters [ps], at positions [k0] onwards, give. *)
Lemma in_targets_block (ps : list var) :
  forall k0 t,
    In t (targets (flat_map (fun '(p, i) =>
                               entries r h loss p (base + i) (base + n + i))
                            (indexed ps k0)))
    <-> In t ps \/
        exists i, k0 <= i < k0 + length ps /\
                  ((2 <= multiplicity r /\ t = base + i) \/
                   (multiplicity r = 3 /\ t = base + n + i)).
Proof.
  unfold indexed.
  induction ps as [|p ps IH]; intros k0 t; simpl.
  - split; [intros [] | intros [[] | (i & Hi & _)]; lia].
  - unfold targets in *. rewrite map_app, in_app_iff, IH.
    fold (targets (entries r h loss p (base + k0) (base + n + k0))).
    rewrite targets_entries. split.
    + intros [Hhere | [Hin | (i & Hi & Hacc)]].
      * destruct r; simpl in Hhere;
          repeat match goal with
                 | H : _ \/ _ |- _ => destruct H
                 | H : False |- _ => destruct H
                 end; subst;
          solve [ left; now left
                | right; exists k0; split; [lia |]; simpl;
                  first [ left; split; [lia | reflexivity]
                        | right; split; reflexivity ] ].
      * left. now right.
      * right. exists i. split; [lia | exact Hacc].
    + intros [[<- | Hin] | (i & Hi & Hacc)].
      * left. destruct r; simpl; tauto.
      * right. now left.
      * destruct (Nat.eq_dec i k0) as [-> | Hne].
        -- left. destruct Hacc as [[Hk ->] | [Hk ->]];
             destruct r; simpl in Hk; try lia; simpl; tauto.
        -- right. right. exists i. split; [lia | exact Hacc].
Qed.

Lemma NoDup_targets_block (ps : list var) :
  NoDup ps -> Forall (fun p => p < base) ps ->
  forall k0,
    k0 + length ps <= n ->
    NoDup (targets (flat_map (fun '(p, i) =>
                                entries r h loss p (base + i) (base + n + i))
                             (indexed ps k0))).
Proof.
  induction 1 as [|p ps Hnotin Hnd IH]; intros Hlt k0 Hlen.
  - constructor.
  - inversion Hlt as [|? ? Hp Hps]; subst. simpl in Hlen.
    unfold indexed. simpl. unfold targets. rewrite map_app.
    fold (targets (entries r h loss p (base + k0) (base + n + k0))).
    fold (targets (flat_map (fun '(p, i) =>
                               entries r h loss p (base + i) (base + n + i))
                            (combine ps (seq (S k0) (length ps))))).
    fold (indexed ps (S k0)).
    apply NoDup_app.
    + rewrite targets_entries.
      destruct r; repeat constructor; simpl; intros Hin;
        repeat match goal with
               | H : _ \/ _ |- _ => destruct H
               end; lia.
    + apply IH; [assumption | lia].
    + intros t Hhere Hrest. apply in_targets_block in Hrest.
      rewrite targets_entries in Hhere.
      assert (Hcases : t = p \/ (2 <= multiplicity r /\ t = base + k0) \/
                       (multiplicity r = 3 /\ t = base + n + k0)).
      { destruct r; simpl in Hhere;
          repeat match goal with
                 | H : _ \/ _ |- _ => destruct H
                 | H : False |- _ => destruct H
                 end; subst; simpl; auto; right; lia. }
      destruct Hrest as [Hin | (i & Hi & Hacc)].
      * rewrite Forall_forall in Hps. specialize (Hps t Hin).
        destruct Hcases as [-> | Hcases]; [contradiction | lia].
      * destruct Hcases as [-> | Hcases]; lia.
Qed.

End Targets.

(** X1.  The targets of a plan are the parameters and the shared variables
    the call created, nothing else: no entry writes to another variable
    that existed before, and every accumulator created is written. *)
Theorem targets_are_parameters_or_new
        (floatX : dtype) (r : rule) (h : hyper) (loss : expr)
        (all_params : list var) (s : Store) :
  allocated s all_params ->
  exists plan s',
    run floatX r h loss all_params s = Some (plan, s') /\
    forall t, In t (targets plan)
              <-> In t all_params \/ length s <= t < length s'.
Proof.
  intros Hall.
  exists (plan_of r h loss all_params (length s)),
         (s ++ new_arrays floatX r s all_params).
  split; [now apply run_closed_form |].
  intros t. rewrite length_app, length_new_arrays. unfold plan_of.
  rewrite in_targets_block. simpl.
  set (n := length all_params). split.
  - intros [Hin | (i & Hi & [[Hk ->] | [Hk ->]])].
    + now left.
    + right. nia.
    + right. rewrite Hk. simpl. lia.
  - intros [Hin | Hnew]; [now left | right].
    destruct (Nat.lt_ge_cases (t - length s) n) as [Hlow | Hhigh].
    + exists (t - length s). split; [lia |]. left.
      split; [| lia]. destruct r; simpl in *; lia.
    + exists (t - length s - n). split.
      * destruct r; simpl in *; lia.
      * right. split; [| lia]. destruct r; simpl in *; lia.
Qed.

Lemma targets_are_parameters_or_new_witness :
  allocated sample_store [0; 1] /\
  exists plan s',
    run float32 Adadelta sample_hyper (EShared 0) [0; 1] sample_store
    = Some (plan, s') /\
    forall t, In t (targets plan)
              <-> In t [0; 1] \/ length sample_store <= t < length s'.
Proof.
  assert (Hall : allocated sample_store [0; 1]) by (repeat constructor).
  split; [exact Hall |].
  exact (targets_are_parameters_or_new float32 Adadelta sample_hyper
           (EShared 0) [0; 1] sample_store Hall).
Defined.

(** X2.  On distinct parameters no shared variable is the target of two
    entries of the plan. *)
Theorem distinct_targets
        (floatX : dtype) (r : rule) (h : hyper) (loss : expr)
        (all_params : list var) (s : Store) :
  allocated s all_params -> NoDup all_params ->
  exists plan s',
    run floatX r h loss all_params s = Some (plan, s') /\
    NoDup (targets plan).
Proof.
  intros Hall Hnd.
  exists (plan_of r h loss all_params (length s)),
         (s ++ new_arrays floatX r s all_params).
  split; [now apply run_closed_form |].
  unfold plan_of. apply NoDup_targets_block; auto.
Qed.

Lemma distinct_targets_witness :
  allocated sample_store [0; 1] /\ NoDup [0; 1] /\
  exists plan s',
    run float32 Adadelta sample_hyper (EShared 0) [0; 1] sample_store
    = Some (plan, s') /\
    NoDup (targets plan).
Proof.
  assert (Hall : allocated sample_store [0; 1]) by (repeat constructor).
  assert (Hnd : NoDup [0; 1])
    by (constructor;
        [ simpl; intros [H | []]; discriminate H
        | constructor; [intros [] | constructor] ]).
  split; [exact Hall |]. split; [exact Hnd |].
  exact (distinct_targets float32 Adadelta sample_hyper (EShared 0) [0; 1]
           sample_store Hall Hnd).
Defined.

(** X3.  A second call, of any rule, on the store the first call left
    creates accumulators of its own: a variable both plans write to is a
    parameter of both calls, and the first call's store is a prefix of the
    second's. *)
Theorem second_call_has_own_accumulators
        (floatX : dtype) (r1 r2 : rule) (h1 h2 : hyper) (loss1 loss2 : expr)
        (params1 params2 : list var) (s : Store) :
  allocated s params1 -> allocated s params2 ->
  exists plan1 s1 plan2 s2,
    run floatX r1 h1 loss1 params1 s = Some (plan1, s1) /\
    run floatX r2 h2 loss2 params2 s1 = Some (plan2, s2) /\
    firstn (length s1) s2 = s1 /\
    forall t, In t (targets plan1) -> In t (targets plan2) ->
              In t params1 /\ In t params2.
Proof.
  intros Hall1 Hall2.
  set (s1 := s ++ new_arrays floatX r1 s params1).
  assert (Hall2' : allocated s1 params2).
  { unfold allocated, s1 in *. rewrite Forall_forall in *.
    intros p Hp. rewrite length_app. specialize (Hall2 p Hp). lia. }
  exists (plan_of r1 h1 loss1 params1 (length s)), s1,
         (plan_of r2 h2 loss2 params2 (length s1)),
         (s1 ++ new_arrays floatX r2 s1 params2).
  split; [now apply run_closed_form |].
  split; [now apply run_closed_form |].
  split; [now rewrite firstn_app, Nat.sub_diag, firstn_all, app_nil_r |].
  intros t H1 H2. unfold plan_of in H1, H2.
  apply in_targets_block in H1. apply in_targets_block in H2.
  assert (Hlen : length s1 = length s
                             + length params1 * (multiplicity r1 - 1))
    by (unfold s1; now rewrite length_app, length_new_arrays).
  assert (Hgrow : length s <= length s1)
    by (unfold s1; rewrite length_app; lia).
  unfold allocated in Hall1, Hall2. rewrite Forall_forall in Hall1, Hall2.
  destruct H2 as [Hin2 | (i2 & Hi2 & Hacc2)].
  - specialize (Hall2 t Hin2).
    destruct H1 as [Hin1 | (i1 & Hi1 & Hacc1)]; [now split | lia].
  - assert (Hnew : length s1 <= t) by (destruct Hacc2 as [[_ ->] | [_ ->]]; lia).
    destruct H1 as [Hin1 | (i1 & Hi1 & [[Hk Ht] | [Hk Ht]])].
    + specialize (Hall1 t Hin1). lia.
    + nia.
    + rewrite Hk in Hlen. simpl in Hlen. lia.
Qed.

Lemma second_call_has_own_accumulators_witness :
  allocated sample_store [0; 1] /\ allocated sample_store [1] /\
  exists plan1 s1 plan2 s2,
    run float32 Momentum sample_hyper (EShared 0) [0; 1] sample_store
    = Some (plan1, s1) /\
    run float32 Adadelta sample_hyper (EShared 0) [1] s1 = Some (plan2, s2) /\
    firstn (length s1) s2 = s1 /\
    forall t, In t (targets plan1) -> In t (targets plan2) ->
              In t [0; 1] /\ In t [1].
Proof.
  assert (Hall1 : allocated sample_store [0; 1]) by (repeat constructor).
  assert (Hall2 : allocated sample_store [1]) by (repeat constructor).
  split; [exact Hall1 |]. split; [exact Hall2 |].
  exact (second_call_has_own_accumulators float32 Momentum Adadelta
           sample_hyper sample_hyper (EShared 0) (EShared 0) [0; 1] [1]
           sample_store Hall1 Hall2).
Defined.

(** ** Parameters in groups *)

Section Groups.

Lemma indexed_app {A} (l1 l2 : list A) :
  forall k, indexed (l1 ++ l2) k = indexed l1 k ++ indexed l2 (k + length l1).
Proof.
  unfold indexed. induction l1 as [|a l1 IH]; intros k; simpl.
  - now rewrite Nat.add_0_r.
  - f_equal. rewrite IH. now rewrite Nat.add_succ_r.
Qed.

Lemma flat_map_indexed_shift {A B} (G : A -> nat -> list B) (l : list A) :
  forall j k,
    flat_map (fun '(p, i) => G p i) (indexed l (j + k))
    = flat_map (fun '(p, i) => G p (j + i)) (indexed l k).
Proof.
  unfold indexed. induction l as [|a l IH]; intros j k; simpl.
  - reflexivity.
  - f_equal. rewrite <- Nat.add_succ_r. apply IH.
Qed.

(** Only [adadelta] uses a second accumulator. *)
Lemma entries_second_unused (r : rule) (h : hyper) (loss : expr)
      (p a d d' : var) :
  multiplicity r <= 2 -> entries r h loss p a d = entries r h loss p a d'.
Proof. destruct r; simpl; intros Hk; try reflexivity; lia. Qed.

Lemma plan_of_app (r : rule) (h : hyper) (loss : expr)
      (ps1 ps2 : list var) (base : nat) :
  multiplicity r <= 2 ->
  plan_of r h loss (ps1 ++ ps2) base
  = plan_of r h loss ps1 base
    ++ plan_of r h loss ps2 (base + length ps1 * (multiplicity r - 1)).
Proof.
  intros Hk. unfold plan_of.
  rewrite indexed_app, flat_map_app.
  replace (0 + length ps1) with (length ps1 + 0) by lia. f_equal.
  - apply flat_map_ext. intros [p i]. now apply entries_second_unused.
  - rewrite (flat_map_indexed_shift
               (fun p i => entries r h loss p (base + i)
                                   (base + length (ps1 ++ ps2) + i))
               ps2 (length ps1) 0).
    apply flat_map_ext. intros [p i].
    destruct r; simpl in Hk; try lia; simpl;
      rewrite ?Nat.mul_0_r, ?Nat.mul_1_r, ?Nat.add_0_r;
      unfold entries; simpl; rewrite ?Nat.add_assoc; reflexivity.
Qed.

Lemma zeros_for_extended (floatX : dtype) (s extra : Store) (ps : list var) :
  allocated s ps ->
  map (zeros_for floatX (s ++ extra)) ps = map (zeros_for floatX s) ps.
Proof.
  intros Hall. apply map_ext_in. intros p Hp.
  unfold allocated in Hall. rewrite Forall_forall in Hall.
  unfold zeros_for. now rewrite nth_error_app1 by auto.
Qed.

End Groups.

(** X4.  For [sgd], [momentum], [nesterov_momentum], [adagrad] and
    [rmsprop], a call on two groups of parameters at once gives the plan
    and the store of a call on the first group followed by a call on the
    second. *)
Theorem groups_compose
        (floatX : dtype) (r : rule) (h : hyper) (loss : expr)
        (params1 params2 : list var) (s : Store) :
  multiplicity r <= 2 ->
  allocated s (params1 ++ params2) ->
  exists plan1 s1 plan2 s2,
    run floatX r h loss params1 s = Some (plan1, s1) /\
    run floatX r h loss params2 s1 = Some (plan2, s2) /\
    run floatX r h loss (params1 ++ params2) s = Some (plan1 ++ plan2, s2).
Proof.
  intros Hk Hall.
  assert (Hall1 : allocated s params1)
    by (unfold allocated in *; now apply Forall_app in Hall).
  assert (Hall2 : allocated s params2)
    by (unfold allocated in *; now apply Forall_app in Hall).
  set (s1 := s ++ new_arrays floatX r s params1).
  assert (Hall2' : allocated s1 params2).
  { unfold allocated, s1 in *. rewrite Forall_forall in *.
    intros p Hp. rewrite length_app. specialize (Hall2 p Hp). lia. }
  exists (plan_of r h loss params1 (length s)), s1,
         (plan_of r h loss params2 (length s1)),
         (s1 ++ new_arrays floatX r s1 params2).
  split; [now apply run_closed_form |].
  split; [now apply run_closed_form |].
  rewrite (run_closed_form floatX h loss r (params1 ++ params2) s Hall).
  apply f_equal. apply f_equal2.
  - rewrite plan_of_app by assumption. apply f_equal. apply f_equal.
    unfold s1. now rewrite length_app, length_new_arrays.
  - unfold s1. rewrite <- app_assoc. f_equal. unfold new_arrays.
    rewrite (zeros_for_extended floatX s _ params2 Hall2).
    destruct r; simpl in Hk; try lia; simpl.
    + reflexivity.
    + now rewrite !app_nil_r, map_app.
    + now rewrite !app_nil_r, map_app.
    + now rewrite !app_nil_r, map_app.
    + now rewrite !app_nil_r, map_app.
Qed.

Lemma groups_compose_witness :
  multiplicity Rmsprop <= 2 /\
  allocated sample_store ([0] ++ [1]) /\
  exists plan1 s1 plan2 s2,
    run float32 Rmsprop sample_hyper (EShared 0) [0] sample_store
    = Some (plan1, s1) /\
    run float32 Rmsprop sample_hyper (EShared 0) [1] s1 = Some (plan2, s2) /\
    run float32 Rmsprop sample_hyper (EShared 0) ([0] ++ [1]) sample_store
    = Some (plan1 ++ plan2, s2).
Proof.
  assert (Hk : multiplicity Rmsprop <= 2) by (simpl; lia).
  assert (Hall : allocated sample_store ([0] ++ [1])) by (repeat constructor).
  split; [exact Hk |]. split; [exact Hall |].
  exact (groups_compose float32 Rmsprop sample_hyper (EShared 0) [0] [1]
           sample_store Hk Hall).
Defined.

(** X5.  Without parameters every rule returns the empty plan and leaves
    the store as it was; on allocated parameters the plan is empty only
    then. *)
Theorem empty_plan
        (floatX : dtype) (r : rule) (h : hyper) (loss : expr) (s : Store) :
  run floatX r h loss [] s = Some ([], s) /\
  forall all_params plan s',
    allocated s all_params ->
    run floatX r h loss all_params s = Some (plan, s') ->
    plan = [] -> all_params = [].
Proof.
  split.
  - rewrite run_closed_form by constructor.
    unfold plan_of, new_arrays. simpl. f_equal. f_equal.
    rewrite <- (app_nil_r s) at 2. f_equal.
    induction (multiplicity r - 1); simpl; auto.
  - intros all_params plan s' Hall Hrun Hempty.
    rewrite run_closed_form in Hrun by assumption.
    injection Hrun as <- _.
    apply (f_equal (@length _)) in Hempty.
    rewrite length_plan_of in Hempty. simpl in Hempty.
    destruct all_params; [reflexivity |].
    destruct r; simpl in Hempty; lia.
Qed.

(** ** Relations between the rules *)

(** X6.  With [momentum = 0], [momentum] and [nesterov_momentum] propose
    for every parameter the value [sgd] proposes, [param - learning_rate *
    grad], whatever the accumulator holds. *)
Theorem zero_momentum_is_sgd
        (floatX : dtype) (loss : expr) (all_params : list var)
        (learning_rate : R) (s : Store) :
  allocated s all_params ->
  exists plan_m plan_n plan_s s',
    momentum floatX loss all_params learning_rate 0 s = Some (plan_m, s') /\
    nesterov_momentum floatX loss all_params learning_rate 0 s
    = Some (plan_n, s') /\
    sgd loss all_params learning_rate s = Some (plan_s, s) /\
    forall i p, nth_error all_params i = Some p ->
      exists new_m new_n new_s,
        nth_error plan_m (2 * i + 1) = Some (p, new_m) /\
        nth_error plan_n (2 * i + 1) = Some (p, new_n) /\
        nth_error plan_s i = Some (p, new_s) /\
        forall env shp idx x v0 g,
          shaped env shp loss p [length s + i] -> in_bounds shp idx ->
          shared_at env idx p = Some x ->
          shared_at env idx (length s + i) = Some v0 ->
          grad_at env idx loss p = Some g ->
          value_at env shp new_m idx (Some (x - learning_rate * g)%R) /\
          value_at env shp new_n idx (Some (x - learning_rate * g)%R) /\
          value_at env shp new_s idx (Some (x - learning_rate * g)%R).
Proof.
  intros Hall.
  set (h := mk_hyper learning_rate 0 0 0).
  exists (plan_of Momentum h loss all_params (length s)),
         (plan_of NesterovMomentum h loss all_params (length s)),
         (plan_of Sgd h loss all_params (length s)),
         (s ++ new_arrays floatX Momentum s all_params).
  split; [exact (run_closed_form floatX h loss Momentum all_params s Hall) |].
  split;
    [exact (run_closed_form floatX h loss NesterovMomentum all_params s Hall) |].
  split; [exact (sgd_run h loss all_params s) |].
  intros i p Hi.
  pose proof (nth_error_plan_of Momentum h loss all_params (length s) i 1 p Hi)
    as Hm.
  pose proof (nth_error_plan_of NesterovMomentum h loss all_params (length s)
                i 1 p Hi) as Hn.
  pose proof (nth_error_plan_of Sgd h loss all_params (length s) i 0 p Hi)
    as Hs.
  simpl multiplicity in *. rewrite Nat.mul_1_l, Nat.add_0_r in Hs.
  eexists. eexists. eexists.
  split; [apply Hm; lia |]. split; [apply Hn; lia |]. split; [apply Hs; lia |].
  intros env shp idx x v0 g Hsh Hin Hx Hv Hg.
  split; [| split].
  - entry_value Hsh.
    replace (x - learning_rate * g)%R
      with (x + (0 * v0 - learning_rate * g))%R by ring.
    exact Hval.
  - entry_value Hsh.
    replace (x - learning_rate * g)%R
      with (x + 0 * (0 * v0 - learning_rate * g) - learning_rate * g)%R
      by ring.
    exact Hval.
  - entry_value Hsh. exact Hval.
Qed.

Lemma zero_momentum_is_sgd_witness :
  allocated sample_store [0; 1] /\
  exists plan_m plan_n plan_s s',
    momentum float32 (EShared 0) [0; 1] 1 0 sample_store
    = Some (plan_m, s') /\
    nesterov_momentum float32 (EShared 0) [0; 1] 1 0 sample_store
    = Some (plan_n, s') /\
    sgd (EShared 0) [0; 1] 1 sample_store = Some (plan_s, sample_store) /\
    exists new_m new_n new_s,
      nth_error plan_m 1 = Some (0, new_m) /\
      nth_error plan_n 1 = Some (0, new_n) /\
      nth_error plan_s 0 = Some (0, new_s) /\
      value_at (scalar_env 0 5 2 7) [] new_m [] (Some (5 - 1 * 2)%R) /\
      value_at (scalar_env 0 5 2 7) [] new_n [] (Some (5 - 1 * 2)%R) /\
      value_at (scalar_env 0 5 2 7) [] new_s [] (Some (5 - 1 * 2)%R).
Proof.
  assert (Hall : allocated sample_store [0; 1]) by (repeat constructor).
  split; [exact Hall |].
  destruct (zero_momentum_is_sgd float32 (EShared 0) [0; 1] 1 sample_store
              Hall) as (plan_m & plan_n & plan_s & s' & Hm & Hn & Hs & Hent).
  exists plan_m, plan_n, plan_s, s'.
  split; [exact Hm |]. split; [exact Hn |]. split; [exact Hs |].
  destruct (Hent 0 0 eq_refl)
    as (new_m & new_n & new_s & H1 & H2 & H3 & Hval).
  exists new_m, new_n, new_s.
  split; [exact H1 |]. split; [exact H2 |]. split; [exact H3 |].
  apply (Hval (scalar_env 0 5 2 7) [] [] 5%R 7%R 2%R).
  - split.
    + intros v _. eexists. split; reflexivity.
    + eexists. split; reflexivity.
  - constructor.
  - reflexivity.
  - reflexivity.
  - reflexivity.
Defined.

(** X7.  [nesterov_momentum] proposes what [momentum] proposes plus
    [momentum] times the change of the accumulator in this step. *)
Theorem nesterov_from_momentum
        (floatX : dtype) (loss : expr) (all_params : list var)
        (learning_rate momentum_ : R) (s : Store) :
  allocated s all_params ->
  exists plan_m plan_n s',
    momentum floatX loss all_params learning_rate momentum_ s
    = Some (plan_m, s') /\
    nesterov_momentum floatX loss all_params learning_rate momentum_ s
    = Some (plan_n, s') /\
    forall i p, nth_error all_params i = Some p ->
      exists v_new new_m new_n,
        nth_error plan_n (2 * i) = Some (length s + i, v_new) /\
        nth_error plan_m (2 * i + 1) = Some (p, new_m) /\
        nth_error plan_n (2 * i + 1) = Some (p, new_n) /\
        forall env shp idx x v0 g,
          shaped env shp loss p [length s + i] -> in_bounds shp idx ->
          shared_at env idx p = Some x ->
          shared_at env idx (length s + i) = Some v0 ->
          grad_at env idx loss p = Some g ->
          exists v1 xm xn,
            value_at env shp v_new idx (Some v1) /\
            value_at env shp new_m idx (Some xm) /\
            value_at env shp new_n idx (Some xn) /\
            xn = (xm + momentum_ * (v1 - v0))%R.
Proof.
  intros Hall.
  set (h := mk_hyper learning_rate momentum_ 0 0).
  exists (plan_of Momentum h loss all_params (length s)),
         (plan_of NesterovMomentum h loss all_params (length s)),
         (s ++ new_arrays floatX Momentum s all_params).
  split; [exact (run_closed_form floatX h loss Momentum all_params s Hall) |].
  split;
    [exact (run_closed_form floatX h loss NesterovMomentum all_params s Hall) |].
  intros i p Hi.
  pose proof (nth_error_plan_of NesterovMomentum h loss all_params (length s)
                i 0 p Hi) as Hv.
  pose proof (nth_error_plan_of Momentum h loss all_params (length s) i 1 p Hi)
    as Hm.
  pose proof (nth_error_plan_of NesterovMomentum h loss all_params (length s)
                i 1 p Hi) as Hn.
  simpl multiplicity in *. rewrite Nat.add_0_r in Hv.
  eexists. eexists. eexists.
  split; [apply Hv; lia |]. split; [apply Hm; lia |]. split; [apply Hn; lia |].
  intros env shp idx x v0 g Hsh Hin Hx Hacc Hg.
  eexists. eexists. eexists.
  split; [entry_value Hsh; exact Hval |].
  split; [entry_value Hsh; exact Hval |].
  split; [entry_value Hsh; exact Hval |].
  unfold h. cbn [momentum_coef Rules.learning_rate]. ring.
Qed.

Lemma nesterov_from_momentum_witness :
  allocated sample_store [0; 1] /\
  exists plan_m plan_n s',
    momentum float32 (EShared 0) [0; 1] 1 0.9 sample_store
    = Some (plan_m, s') /\
    nesterov_momentum float32 (EShared 0) [0; 1] 1 0.9 sample_store
    = Some (plan_n, s') /\
    exists v_new new_m new_n v1 xm xn,
      nth_error plan_n 0 = Some (2, v_new) /\
      nth_error plan_m 1 = Some (0, new_m) /\
      nth_error plan_n 1 = Some (0, new_n) /\
      value_at (scalar_env 0 5 2 7) [] v_new [] (Some v1) /\
      value_at (scalar_env 0 5 2 7) [] new_m [] (Some xm) /\
      value_at (scalar_env 0 5 2 7) [] new_n [] (Some xn) /\
      xn = (xm + 0.9 * (v1 - 7))%R.
Proof.
  assert (Hall : allocated sample_store [0; 1]) by (repeat constructor).
  split; [exact Hall |].
  destruct (nesterov_from_momentum float32 (EShared 0) [0; 1] 1 0.9
              sample_store Hall) as (plan_m & plan_n & s' & Hm & Hn & Hent).
  exists plan_m, plan_n, s'. split; [exact Hm |]. split; [exact Hn |].
  destruct (Hent 0 0 eq_refl)
    as (v_new & new_m & new_n & H1 & H2 & H3 & Hval).
  assert (Hshaped : shaped (scalar_env 0 5 2 7) [] (EShared 0) 0
                           [length sample_store + 0]).
  { split.
    - intros v _. eexists. split; reflexivity.
    - eexists. split; reflexivity. }
  destruct (Hval (scalar_env 0 5 2 7) [] [] 5%R 7%R 2%R Hshaped
                 (Forall2_nil lt) eq_refl eq_refl eq_refl)
    as (v1 & xm & xn & Hv1 & Hxm & Hxn & Hrel).
  exists v_new, new_m, new_n, v1, xm, xn.
  repeat split; assumption.
Defined.

(** ** Steps that stay defined and bounded *)

Lemma step_bound (lr g q b : R) :
  (0 < q)%R -> (0 <= b)%R -> (b * Rabs g <= q)%R ->
  (b * Rabs (lr * g / q) <= Rabs lr)%R.
Proof.
  intros Hq Hb Hg. unfold Rdiv. rewrite !Rabs_mult.
  rewrite (Rabs_pos_eq (/ q)) by (apply Rlt_le, Rinv_0_lt_compat; exact Hq).
  pose proof (Rabs_pos lr) as Hlr. pose proof (Rabs_pos g) as Hg0.
  assert (Hunit : (b * Rabs g * / q <= 1)%R).
  { apply (Rmult_le_reg_r q); [exact Hq |].
    replace (b * Rabs g * / q * q)%R with (b * Rabs g)%R by (field; lra).
    lra. }
  assert (Hnonneg : (0 <= b * Rabs g * / q)%R).
  { apply Rmult_le_pos; [apply Rmult_le_pos; assumption |].
    apply Rlt_le, Rinv_0_lt_compat; exact Hq. }
  replace (b * (Rabs lr * Rabs g * / q))%R
    with (Rabs lr * (b * Rabs g * / q))%R by ring.
  rewrite <- (Rmult_1_r (Rabs lr)) at 2.
  apply Rmult_le_compat_l; assumption.
Qed.

Lemma abs_le_sqrt (g t : R) : (g ^ 2 <= t)%R -> (Rabs g <= sqrt t)%R.
Proof.
  intros H. rewrite <- (sqrt_Rsqr_abs g). apply sqrt_le_1_alt.
  unfold Rsqr. lra.
Qed.

(** X8.  A step of [adagrad] from a non-negative accumulator with a positive
    [epsilon]: the accumulator does not decrease, the proposed parameter is
    defined, and it is within [|learning_rate|] of the parameter. *)
Theorem adagrad_step_bounded
        (floatX : dtype) (loss : expr) (all_params : list var)
        (learning_rate epsilon : R) (s : Store) :
  allocated s all_params ->
  exists plan s',
    adagrad floatX loss all_params learning_rate epsilon s
    = Some (plan, s') /\
    forall i p, nth_error all_params i = Some p ->
      exists acc_new proposed,
        nth_error plan (2 * i) = Some (length s + i, acc_new) /\
        nth_error plan (2 * i + 1) = Some (p, proposed) /\
        forall env shp idx x a g,
          shaped env shp loss p [length s + i] -> in_bounds shp idx ->
          shared_at env idx p = Some x ->
          shared_at env idx (length s + i) = Some a ->
          grad_at env idx loss p = Some g ->
          (0 <= a)%R -> (0 < epsilon)%R ->
          exists a' x',
            value_at env shp acc_new idx (Some a') /\ (a <= a')%R /\
            value_at env shp proposed idx (Some x') /\
            (Rabs (x' - x) <= Rabs learning_rate)%R.
Proof.
  intros Hall.
  set (h := mk_hyper learning_rate 0 0 epsilon).
  exists (plan_of Adagrad h loss all_params (length s)),
         (s ++ new_arrays floatX Adagrad s all_params).
  split; [exact (run_closed_form floatX h loss Adagrad all_params s Hall) |].
  intros i p Hi.
  pose proof (nth_error_plan_of Adagrad h loss all_params (length s) i 0 p Hi)
    as H0.
  pose proof (nth_error_plan_of Adagrad h loss all_params (length s) i 1 p Hi)
    as H1.
  simpl multiplicity in *. rewrite Nat.add_0_r in H0.
  eexists. eexists. split; [apply H0; lia |]. split; [apply H1; lia |].
  intros env shp idx x a g Hsh Hin Hx Ha Hg Ha0 Heps.
  unfold h. cbn [Rules.learning_rate Rules.epsilon].
  assert (Hsq : (0 <= g ^ 2)%R) by nra.
  exists (a + g ^ 2)%R,
         (x - learning_rate * g / sqrt (a + g ^ 2 + epsilon))%R.
  split; [entry_value Hsh; exact Hval |]. split; [lra |]. split.
  - entry_value Hsh.
    rewrite r_sqrt_defined in Hval by lra. cbn [opt_bind] in Hval.
    rewrite r_div_defined in Hval by (apply sqrt_nonzero; lra).
    exact Hval.
  - replace (x - learning_rate * g / sqrt (a + g ^ 2 + epsilon) - x)%R
      with (- (learning_rate * g / sqrt (a + g ^ 2 + epsilon)))%R by ring.
    rewrite Rabs_Ropp.
    rewrite <- (Rmult_1_l (Rabs (learning_rate * g / _))).
    apply step_bound; [apply sqrt_lt_R0; lra | lra |].
    rewrite Rmult_1_l. apply abs_le_sqrt. lra.
Qed.

Lemma adagrad_step_bounded_witness :
  allocated sample_store [0; 1] /\
  exists plan s' acc_new proposed a' x',
    adagrad float32 (EShared 0) [0; 1] 1 1e-6 sample_store
    = Some (plan, s') /\
    nth_error plan 0 = Some (2, acc_new) /\
    nth_error plan 1 = Some (0, proposed) /\
    value_at (scalar_env 0 5 2 7) [] acc_new [] (Some a') /\ (7 <= a')%R /\
    value_at (scalar_env 0 5 2 7) [] proposed [] (Some x') /\
    (Rabs (x' - 5) <= Rabs 1)%R.
Proof.
  assert (Hall : allocated sample_store [0; 1]) by (repeat constructor).
  split; [exact Hall |].
  destruct (adagrad_step_bounded float32 (EShared 0) [0; 1] 1 1e-6
              sample_store Hall) as (plan & s' & Hrun & Hent).
  destruct (Hent 0 0 eq_refl) as (acc_new & proposed & H0 & H1 & Hval).
  assert (Hshaped : shaped (scalar_env 0 5 2 7) [] (EShared 0) 0
                           [length sample_store + 0]).
  { split.
    - intros v _. eexists. split; reflexivity.
    - eexists. split; reflexivity. }
  assert (Ha : (0 <= 7)%R) by lra.
  assert (Heps : (0 < 1e-6)%R) by lra.
  destruct (Hval (scalar_env 0 5 2 7) [] [] 5%R 7%R 2%R Hshaped
                 (Forall2_nil lt) eq_refl eq_refl eq_refl Ha Heps)
    as (a' & x' & Hacc & Hle & Hprop & Hbound).
  exists plan, s', acc_new, proposed, a', x'.
  repeat split; assumption.
Defined.

(** X9.  A step of [rmsprop] with [0 <= rho <= 1] from a non-negative
    accumulator with a positive [epsilon]: the accumulator stays
    non-negative, the proposed parameter is defined, and its distance to the
    parameter, times [sqrt(1 - rho)], is at most [|learning_rate|]. *)
Theorem rmsprop_step_bounded
        (floatX : dtype) (loss : expr) (all_params : list var)
        (learning_rate rho epsilon : R) (s : Store) :
  allocated s all_params ->
  exists plan s',
    rmsprop floatX loss all_params learning_rate rho epsilon s
    = Some (plan, s') /\
    forall i p, nth_error all_params i = Some p ->
      exists acc_new proposed,
        nth_error plan (2 * i) = Some (length s + i, acc_new) /\
        nth_error plan (2 * i + 1) = Some (p, proposed) /\
        forall env shp idx x a g,
          shaped env shp loss p [length s + i] -> in_bounds shp idx ->
          shared_at env idx p = Some x ->
          shared_at env idx (length s + i) = Some a ->
          grad_at env idx loss p = Some g ->
          (0 <= rho <= 1)%R -> (0 <= a)%R -> (0 < epsilon)%R ->
          exists a' x',
            value_at env shp acc_new idx (Some a') /\ (0 <= a')%R /\
            value_at env shp proposed idx (Some x') /\
            (sqrt (1 - rho) * Rabs (x' - x) <= Rabs learning_rate)%R.
Proof.
  intros Hall.
  set (h := mk_hyper learning_rate 0 rho epsilon).
  exists (plan_of Rmsprop h loss all_params (length s)),
         (s ++ new_arrays floatX Rmsprop s all_params).
  split; [exact (run_closed_form floatX h loss Rmsprop all_params s Hall) |].
  intros i p Hi.
  pose proof (nth_error_plan_of Rmsprop h loss all_params (length s) i 0 p Hi)
    as H0.
  pose proof (nth_error_plan_of Rmsprop h loss all_params (length s) i 1 p Hi)
    as H1.
  simpl multiplicity in *. rewrite Nat.add_0_r in H0.
  eexists. eexists. split; [apply H0; lia |]. split; [apply H1; lia |].
  intros env shp idx x a g Hsh Hin Hx Ha Hg Hrho Ha0 Heps.
  unfold h. cbn [Rules.learning_rate Rules.epsilon Rules.rho].
  assert (Hsq : (0 <= g ^ 2)%R) by nra.
  assert (Hacc : (0 <= rho * a + (1 - rho) * g ^ 2)%R) by nra.
  exists (rho * a + (1 - rho) * g ^ 2)%R,
         (x - learning_rate * g
              / sqrt (rho * a + (1 - rho) * g ^ 2 + epsilon))%R.
  split; [entry_value Hsh; exact Hval |]. split; [exact Hacc |]. split.
  - entry_value Hsh.
    rewrite r_sqrt_defined in Hval by lra. cbn [opt_bind] in Hval.
    rewrite r_div_defined in Hval by (apply sqrt_nonzero; lra).
    exact Hval.
  - match goal with
    | |- (_ * Rabs (x - ?step - x) <= _)%R =>
        replace (x - step - x)%R with (- step)%R by ring
    end.
    rewrite Rabs_Ropp.
    apply step_bound; [apply sqrt_lt_R0; lra | apply sqrt_pos |].
    rewrite <- (sqrt_Rsqr_abs g), <- sqrt_mult
      by (try apply Rle_0_sqr; lra).
    apply sqrt_le_1_alt. unfold Rsqr. nra.
Qed.

Lemma rmsprop_step_bounded_witness :
  allocated sample_store [0; 1] /\
  exists plan s' acc_new proposed a' x',
    rmsprop float32 (EShared 0) [0; 1] 1 0.9 1e-6 sample_store
    = Some (plan, s') /\
    nth_error plan 0 = Some (2, acc_new) /\
    nth_error plan 1 = Some (0, proposed) /\
    value_at (scalar_env 0 5 2 7) [] acc_new [] (Some a') /\ (0 <= a')%R /\
    value_at (scalar_env 0 5 2 7) [] proposed [] (Some x') /\
    (sqrt (1 - 0.9) * Rabs (x' - 5) <= Rabs 1)%R.
Proof.
  assert (Hall : allocated sample_store [0; 1]) by (repeat constructor).
  split; [exact Hall |].
  destruct (rmsprop_step_bounded float32 (EShared 0) [0; 1] 1 0.9 1e-6
              sample_store Hall) as (plan & s' & Hrun & Hent).
  destruct (Hent 0 0 eq_refl) as (acc_new & proposed & H0 & H1 & Hval).
  assert (Hshaped : shaped (scalar_env 0 5 2 7) [] (EShared 0) 0
                           [length sample_store + 0]).
  { split.
    - intros v _. eexists. split; reflexivity.
    - eexists. split; reflexivity. }
  assert (Hrho : (0 <= 0.9 <= 1)%R) by lra.
  assert (Ha : (0 <= 7)%R) by lra.
  assert (Heps : (0 < 1e-6)%R) by lra.
  destruct (Hval (scalar_env 0 5 2 7) [] [] 5%R 7%R 2%R Hshaped
                 (Forall2_nil lt) eq_refl eq_refl eq_refl Hrho Ha Heps)
    as (a' & x' & Hacc & Hle & Hprop & Hbound).
  exists plan, s', acc_new, proposed, a', x'.
  repeat split; assumption.
Defined.

(** ** What epsilon is there for *)

Lemma value_at_eq (env : Env) (shp : list nat) (e : expr) (idx : index)
      (r r' : option R) :
  value_at env shp e idx r -> r = r' -> value_at env shp e idx r'.
Proof. intros H <-. exact H. Qed.

(** X10.  A zero gradient: [adagrad] and [rmsprop] propose the parameter
    itself when the accumulator term plus [epsilon] is positive; on a zero
    accumulator with [epsilon = 0] the proposed value is undefined (0/0),
    the case the docstring of [rmsprop] adds [epsilon] for. *)
Theorem zero_gradient_needs_epsilon
        (floatX : dtype) (loss : expr) (all_params : list var)
        (learning_rate rho epsilon : R) (s : Store) :
  allocated s all_params ->
  exists plan_a plan_r s',
    adagrad floatX loss all_params learning_rate epsilon s
    = Some (plan_a, s') /\
    rmsprop floatX loss all_params learning_rate rho epsilon s
    = Some (plan_r, s') /\
    forall i p, nth_error all_params i = Some p ->
      exists proposed_a proposed_r,
        nth_error plan_a (2 * i + 1) = Some (p, proposed_a) /\
        nth_error plan_r (2 * i + 1) = Some (p, proposed_r) /\
        forall env shp idx x a,
          shaped env shp loss p [length s + i] -> in_bounds shp idx ->
          shared_at env idx p = Some x ->
          shared_at env idx (length s + i) = Some a ->
          grad_at env idx loss p = Some 0%R ->
          ((0 < a + epsilon)%R ->
           value_at env shp proposed_a idx (Some x)) /\
          ((0 < rho * a + epsilon)%R ->
           value_at env shp proposed_r idx (Some x)) /\
          (a = 0%R -> epsilon = 0%R ->
           value_at env shp proposed_a idx None /\
           value_at env shp proposed_r idx None).
Proof.
  intros Hall.
  set (h := mk_hyper learning_rate 0 rho epsilon).
  exists (plan_of Adagrad h loss all_params (length s)),
         (plan_of Rmsprop h loss all_params (length s)),
         (s ++ new_arrays floatX Adagrad s all_params).
  split; [exact (run_closed_form floatX h loss Adagrad all_params s Hall) |].
  split; [exact (run_closed_form floatX h loss Rmsprop all_params s Hall) |].
  intros i p Hi.
  pose proof (nth_error_plan_of Adagrad h loss all_params (length s) i 1 p Hi)
    as Ha1.
  pose proof (nth_error_plan_of Rmsprop h loss all_params (length s) i 1 p Hi)
    as Hr1.
  simpl multiplicity in *.
  eexists. eexists. split; [apply Ha1; lia |]. split; [apply Hr1; lia |].
  intros env shp idx x a Hsh Hin Hx Ha Hg.
  unfold h. cbn [Rules.learning_rate Rules.epsilon Rules.rho].
  split; [| split].
  - intros Hpos. entry_value Hsh.
    rewrite r_sqrt_defined in Hval by lra. cbn [opt_bind] in Hval.
    rewrite r_div_defined in Hval by (apply sqrt_nonzero; lra).
    cbn [opt_bind] in Hval.
    apply (value_at_eq _ _ _ _ _ _ Hval). f_equal. unfold Rdiv. ring.
  - intros Hpos. entry_value Hsh.
    rewrite r_sqrt_defined in Hval by lra. cbn [opt_bind] in Hval.
    rewrite r_div_defined in Hval by (apply sqrt_nonzero; lra).
    cbn [opt_bind] in Hval.
    apply (value_at_eq _ _ _ _ _ _ Hval). f_equal. unfold Rdiv. ring.
  - intros -> ->. split.
    + entry_value Hsh.
      replace (0 + 0 ^ 2 + 0)%R with 0%R in Hval by ring.
      rewrite r_sqrt_defined, sqrt_0 in Hval by lra. cbn [opt_bind] in Hval.
      rewrite r_div_zero in Hval. exact Hval.
    + entry_value Hsh.
      replace (rho * 0 + (1 - rho) * 0 ^ 2 + 0)%R with 0%R in Hval by ring.
      rewrite r_sqrt_defined, sqrt_0 in Hval by lra. cbn [opt_bind] in Hval.
      rewrite r_div_zero in Hval. exact Hval.
Qed.

Lemma zero_gradient_needs_epsilon_witness :
  allocated sample_store [0; 1] /\
  exists plan_a plan_r s' proposed_a proposed_r,
    adagrad float32 (EShared 0) [0; 1] 1 0 sample_store = Some (plan_a, s') /\
    rmsprop float32 (EShared 0) [0; 1] 1 0.9 0 sample_store
    = Some (plan_r, s') /\
    nth_error plan_a 1 = Some (0, proposed_a) /\
    nth_error plan_r 1 = Some (0, proposed_r) /\
    value_at (scalar_env 0 5 0 0) [] proposed_a [] None /\
    value_at (scalar_env 0 5 0 0) [] proposed_r [] None.
Proof.
  assert (Hall : allocated sample_store [0; 1]) by (repeat constructor).
  split; [exact Hall |].
  destruct (zero_gradient_needs_epsilon float32 (EShared 0) [0; 1] 1 0.9 0
              sample_store Hall) as (plan_a & plan_r & s' & Ha & Hr & Hent).
  destruct (Hent 0 0 eq_refl) as (proposed_a & proposed_r & H1 & H2 & Hval).
  assert (Hshaped : shaped (scalar_env 0 5 0 0) [] (EShared 0) 0
                           [length sample_store + 0]).
  { split.
    - intros v _. eexists. split; reflexivity.
    - eexists. split; reflexivity. }
  destruct (Hval (scalar_env 0 5 0 0) [] [] 5%R 0%R Hshaped
                 (Forall2_nil lt) eq_refl eq_refl eq_refl)
    as (_ & _ & Hundef).
  exists plan_a, plan_r, s', proposed_a, proposed_r.
  split; [exact Ha |]. split; [exact Hr |].
  split; [exact H1 |]. split; [exact H2 |].
  exact (Hundef eq_refl eq_refl).
Defined.

Lemma r_sqrt_negative (x : R) : (x < 0)%R -> r_sqrt x = None.
Proof.
  intros H. unfold r_sqrt. destruct (Rlt_dec x 0); [reflexivity | contradiction].
Qed.

(** X11.  The first step of [adadelta], from zero accumulators, with
    [epsilon >= 0].  Where [(1 - rho) * g^2 + epsilon] is positive the
    update is [u = g * sqrt(epsilon) / sqrt((1 - rho) * g^2 + epsilon)]:
    with [epsilon = 0] it is zero, so the parameter and [acc_delta] stay
    where they are, and with a positive [epsilon] and a non-zero gradient
    it is not (the docstring: epsilon is important for the very first
    update).  Where [(1 - rho) * g^2 + epsilon <= 0], as for a zero gradient
    with [epsilon = 0], the update is undefined (0/0), and so are the
    proposed parameter and the new [acc_delta]. *)
Theorem adadelta_first_step
        (floatX : dtype) (loss : expr) (all_params : list var)
        (learning_rate rho epsilon : R) (s : Store) :
  allocated s all_params ->
  exists plan s',
    adadelta floatX loss all_params learning_rate rho epsilon s
    = Some (plan, s') /\
    forall i p, nth_error all_params i = Some p ->
      let acc := length s + i in
      let acc_delta := length s + length all_params + i in
      exists new_param acc_delta_new,
        nth_error plan (3 * i + 1) = Some (p, new_param) /\
        nth_error plan (3 * i + 2) = Some (acc_delta, acc_delta_new) /\
        forall env shp idx x g,
          shaped env shp loss p [acc; acc_delta] -> in_bounds shp idx ->
          shared_at env idx p = Some x ->
          shared_at env idx acc = Some 0%R ->
          shared_at env idx acc_delta = Some 0%R ->
          grad_at env idx loss p = Some g ->
          (0 <= epsilon)%R ->
          let u := (g * sqrt epsilon / sqrt ((1 - rho) * g ^ 2 + epsilon))%R in
          ((0 < (1 - rho) * g ^ 2 + epsilon)%R ->
           value_at env shp new_param idx (Some (x - learning_rate * u)%R) /\
           value_at env shp acc_delta_new idx (Some ((1 - rho) * u ^ 2)%R) /\
           (epsilon = 0%R -> u = 0%R) /\
           ((0 < epsilon)%R -> g <> 0%R -> u <> 0%R)) /\
          (((1 - rho) * g ^ 2 + epsilon <= 0)%R ->
           value_at env shp new_param idx None /\
           value_at env shp acc_delta_new idx None).
Proof.
  intros Hall.
  set (h := mk_hyper learning_rate 0 rho epsilon).
  exists (plan_of Adadelta h loss all_params (length s)),
         (s ++ new_arrays floatX Adadelta s all_params).
  split; [exact (run_closed_form floatX h loss Adadelta all_params s Hall) |].
  intros i p Hi acc acc_delta.
  pose proof (nth_error_plan_of Adadelta h loss all_params (length s) i 1 p Hi)
    as H1.
  pose proof (nth_error_plan_of Adadelta h loss all_params (length s) i 2 p Hi)
    as H2.
  simpl multiplicity in *.
  eexists. eexists. split; [apply H1; lia |]. split; [apply H2; lia |].
  intros env shp idx x g Hsh Hin Hx Ha Hd Hg Heps u.
  unfold acc, acc_delta in *.
  unfold h. cbn [Rules.learning_rate Rules.epsilon Rules.rho].
  split.
  - intros Hpos.
    assert (Hu : (g * sqrt (0 + epsilon)
                  / sqrt (rho * 0 + (1 - rho) * g ^ 2 + epsilon))%R = u).
    { unfold u. f_equal; f_equal; f_equal; ring. }
    split; [| split; [| split]].
    + entry_value Hsh.
      rewrite !r_sqrt_defined in Hval by lra. cbn [opt_bind] in Hval.
      rewrite r_div_defined in Hval by (apply sqrt_nonzero; lra).
      cbn [opt_bind] in Hval. rewrite Hu in Hval. exact Hval.
    + entry_value Hsh.
      rewrite !r_sqrt_defined in Hval by lra. cbn [opt_bind] in Hval.
      rewrite r_div_defined in Hval by (apply sqrt_nonzero; lra).
      cbn [opt_bind] in Hval. rewrite Hu in Hval.
      replace ((1 - rho) * u ^ 2)%R with (rho * 0 + (1 - rho) * u ^ 2)%R
        by ring.
      exact Hval.
    + intros ->. unfold u. rewrite sqrt_0. unfold Rdiv. ring.
    + intros Heps_pos Hg_nz. unfold u, Rdiv.
      apply Rmult_integral_contrapositive_currified.
      * apply Rmult_integral_contrapositive_currified;
          [exact Hg_nz | apply sqrt_nonzero; exact Heps_pos].
      * apply Rinv_neq_0_compat, sqrt_nonzero. exact Hpos.
  - intros Hnonpos.
    assert (Hundef :
              opt_bind (r_sqrt (rho * 0 + (1 - rho) * g ^ 2 + epsilon))
                       (fun q => r_div (g * sqrt (0 + epsilon)) q) = None).
    { destruct (Rlt_dec (rho * 0 + (1 - rho) * g ^ 2 + epsilon) 0)
        as [Hneg | Hzero].
      - now rewrite r_sqrt_negative.
      - replace (rho * 0 + (1 - rho) * g ^ 2 + epsilon)%R with 0%R by lra.
        rewrite r_sqrt_defined, sqrt_0 by lra. cbn [opt_bind].
        apply r_div_zero. }
    split.
    + entry_value Hsh.
      rewrite (r_sqrt_defined (0 + epsilon)) in Hval by lra.
      cbn [opt_bind] in Hval. rewrite Hundef in Hval. exact Hval.
    + entry_value Hsh.
      rewrite (r_sqrt_defined (0 + epsilon)) in Hval by lra.
      cbn [opt_bind] in Hval. rewrite Hundef in Hval. exact Hval.
Qed.

Lemma adadelta_first_step_witness :
  allocated sample_store [0; 1] /\
  exists plan s' new_param acc_delta_new,
    adadelta float32 (EShared 0) [0; 1] 1 0.95 0 sample_store
    = Some (plan, s') /\
    nth_error plan 1 = Some (0, new_param) /\
    nth_error plan 2 = Some (4, acc_delta_new) /\
    value_at (scalar_env 0 5 2 0) [] new_param []
             (Some (5 - 1 * (2 * sqrt 0
                             / sqrt ((1 - 0.95) * 2 ^ 2 + 0)))%R) /\
    (2 * sqrt 0 / sqrt ((1 - 0.95) * 2 ^ 2 + 0))%R = 0%R /\
    value_at (scalar_env 0 5 0 0) [] new_param [] None /\
    value_at (scalar_env 0 5 0 0) [] acc_delta_new [] None.
Proof.
  assert (Hall : allocated sample_store [0; 1]) by (repeat constructor).
  split; [exact Hall |].
  destruct (adadelta_first_step float32 (EShared 0) [0; 1] 1 0.95 0
              sample_store Hall) as (plan & s' & Hrun & Hent).
  destruct (Hent 0 0 eq_refl)
    as (new_param & acc_delta_new & H1 & H2 & Hval).
  assert (Hshaped : forall g,
             shaped (scalar_env 0 5 g 0) [] (EShared 0) 0
                    [length sample_store + 0;
                     length sample_store + length [0; 1] + 0]).
  { intros g. split.
    - intros v _. eexists. split; reflexivity.
    - eexists. split; reflexivity. }
  assert (Heps : (0 <= 0)%R) by lra.
  assert (Hpos : (0 < (1 - 0.95) * 2 ^ 2 + 0)%R) by lra.
  assert (Hnonpos : ((1 - 0.95) * 0 ^ 2 + 0 <= 0)%R) by lra.
  destruct (Hval (scalar_env 0 5 2 0) [] [] 5%R 2%R (Hshaped 2%R)
                 (Forall2_nil lt) eq_refl eq_refl eq_refl eq_refl Heps)
    as [Hdefined _].
  destruct (Hdefined Hpos) as (Hnew & _ & Hzero & _).
  destruct (Hval (scalar_env 0 5 0 0) [] [] 5%R 0%R (Hshaped 0%R)
                 (Forall2_nil lt) eq_refl eq_refl eq_refl eq_refl Heps)
    as [_ Hundefined].
  destruct (Hundefined Hnonpos) as [Hnone1 Hnone2].
  exists plan, s', new_param, acc_delta_new.
  split; [exact Hrun |]. split; [exact H1 |]. split; [exact H2 |].
  split; [exact Hnew |]. split; [exact (Hzero eq_refl) |].
  split; assumption.
Defined.

(** X12.  A step of [adadelta] with [0 <= rho <= 1] from non-negative
    accumulators with a positive [epsilon]: both accumulators stay
    non-negative and the proposed parameter is defined. *)
Theorem adadelta_step_defined
        (floatX : dtype) (loss : expr) (all_params : list var)
        (learning_rate rho epsilon : R) (s : Store) :
  allocated s all_params ->
  exists plan s',
    adadelta floatX loss all_params learning_rate rho epsilon s
    = Some (plan, s') /\
    forall i p, nth_error all_params i = Some p ->
      let acc := length s + i in
      let acc_delta := length s + length all_params + i in
      exists acc_new new_param acc_delta_new,
        nth_error plan (3 * i) = Some (acc, acc_new) /\
        nth_error plan (3 * i + 1) = Some (p, new_param) /\
        nth_error plan (3 * i + 2) = Some (acc_delta, acc_delta_new) /\
        forall env shp idx x a d g,
          shaped env shp loss p [acc; acc_delta] -> in_bounds shp idx ->
          shared_at env idx p = Some x ->
          shared_at env idx acc = Some a ->
          shared_at env idx acc_delta = Some d ->
          grad_at env idx loss p = Some g ->
          (0 <= rho <= 1)%R -> (0 <= a)%R -> (0 <= d)%R ->
          (0 < epsilon)%R ->
          exists a' x' d',
            value_at env shp acc_new idx (Some a') /\ (0 <= a')%R /\
            value_at env shp new_param idx (Some x') /\
            value_at env shp acc_delta_new idx (Some d') /\ (0 <= d')%R.
Proof.
  intros Hall.
  set (h := mk_hyper learning_rate 0 rho epsilon).
  exists (plan_of Adadelta h loss all_params (length s)),
         (s ++ new_arrays floatX Adadelta s all_params).
  split; [exact (run_closed_form floatX h loss Adadelta all_params s Hall) |].
  intros i p Hi acc acc_delta.
  pose proof (nth_error_plan_of Adadelta h loss all_params (length s) i 0 p Hi)
    as H0.
  pose proof (nth_error_plan_of Adadelta h loss all_params (length s) i 1 p Hi)
    as H1.
  pose proof (nth_error_plan_of Adadelta h loss all_params (length s) i 2 p Hi)
    as H2.
  simpl multiplicity in *. rewrite Nat.add_0_r in H0.
  eexists. eexists. eexists.
  split; [apply H0; lia |]. split; [apply H1; lia |].
  split; [apply H2; lia |].
  intros env shp idx x a d g Hsh Hin Hx Ha Hd Hg Hrho Ha0 Hd0 Heps.
  unfold acc, acc_delta in *.
  unfold h. cbn [Rules.learning_rate Rules.epsilon Rules.rho].
  assert (Hsq : (0 <= g ^ 2)%R) by nra.
  assert (Hacc : (0 <= rho * a + (1 - rho) * g ^ 2)%R) by nra.
  set (u := (g * sqrt (d + epsilon)
             / sqrt (rho * a + (1 - rho) * g ^ 2 + epsilon))%R).
  exists (rho * a + (1 - rho) * g ^ 2)%R, (x - learning_rate * u)%R,
         (rho * d + (1 - rho) * u ^ 2)%R.
  split; [entry_value Hsh; exact Hval |]. split; [exact Hacc |].
  split; [| split].
  - entry_value Hsh.
    rewrite !r_sqrt_defined in Hval by lra. cbn [opt_bind] in Hval.
    rewrite r_div_defined in Hval by (apply sqrt_nonzero; lra).
    exact Hval.
  - entry_value Hsh.
    rewrite !r_sqrt_defined in Hval by lra. cbn [opt_bind] in Hval.
    rewrite r_div_defined in Hval by (apply sqrt_nonzero; lra).
    exact Hval.
  - assert (Hu : (0 <= u ^ 2)%R) by nra. nra.
Qed.

Lemma adadelta_step_defined_witness :
  allocated sample_store [0; 1] /\
  exists plan s' acc_new new_param acc_delta_new a' x' d',
    adadelta float32 (EShared 0) [0; 1] 1 0.95 1e-6 sample_store
    = Some (plan, s') /\
    nth_error plan 0 = Some (2, acc_new) /\
    nth_error plan 1 = Some (0, new_param) /\
    nth_error plan 2 = Some (4, acc_delta_new) /\
    value_at (scalar_env 0 5 2 7) [] acc_new [] (Some a') /\ (0 <= a')%R /\
    value_at (scalar_env 0 5 2 7) [] new_param [] (Some x') /\
    value_at (scalar_env 0 5 2 7) [] acc_delta_new [] (Some d') /\
    (0 <= d')%R.
Proof.
  assert (Hall : allocated sample_store [0; 1]) by (repeat constructor).
  split; [exact Hall |].
  destruct (adadelta_step_defined float32 (EShared 0) [0; 1] 1 0.95 1e-6
              sample_store Hall) as (plan & s' & Hrun & Hent).
  destruct (Hent 0 0 eq_refl)
    as (acc_new & new_param & acc_delta_new & H0 & H1 & H2 & Hval).
  assert (Hshaped : shaped (scalar_env 0 5 2 7) [] (EShared 0) 0
                           [length sample_store + 0;
                            length sample_store + length [0; 1] + 0]).
  { split.
    - intros v _. eexists. split; reflexivity.
    - eexists. split; reflexivity. }
  assert (Hrho : (0 <= 0.95 <= 1)%R) by lra.
  assert (Ha : (0 <= 7)%R) by lra.
  assert (Heps : (0 < 1e-6)%R) by lra.
  destruct (Hval (scalar_env 0 5 2 7) [] [] 5%R 7%R 7%R 2%R Hshaped
                 (Forall2_nil lt) eq_refl eq_refl eq_refl eq_refl
                 Hrho Ha Ha Heps)
    as (a' & x' & d' & Hacc & Ha' & Hnew & Hdelta & Hd').
  exists plan, s', acc_new, new_param, acc_delta_new, a', x', d'.
  repeat split; assumption.
Defined.

(** ** norm_constraint with a guard *)

Lemma r_clip_bounds (n max_norm : R) :
  (0 <= n)%R -> (0 <= max_norm)%R ->
  (0 <= r_clip n 0 max_norm <= n)%R /\ (r_clip n 0 max_norm <= max_norm)%R.
Proof.
  intros Hn Hmax. destruct (Rlt_dec max_norm n).
  - rewrite r_clip_above by lra. lra.
  - rewrite r_clip_within by lra. lra.
Qed.

(** The factor of a slice of norm [n]. *)
Lemma factor_bounds (n max_norm epsilon : R) :
  (0 <= n)%R -> (0 <= max_norm)%R -> (0 <= epsilon)%R ->
  (0 < epsilon + n)%R ->
  let c := (r_clip n 0 max_norm / (epsilon + n))%R in
  r_div (r_clip n 0 max_norm) (epsilon + n) = Some c /\
  (0 <= c <= 1)%R /\ (c * n <= n)%R /\ (c * n <= max_norm)%R.
Proof.
  intros Hn Hmax Heps Hpos c.
  destruct (r_clip_bounds n max_norm Hn Hmax) as [[Hc0 Hcn] Hcm].
  split; [apply r_div_defined; lra |].
  assert (Hinv : (0 < / (epsilon + n))%R) by now apply Rinv_0_lt_compat.
  assert (Hunit : ((epsilon + n) * / (epsilon + n) = 1)%R)
    by (apply Rinv_r; lra).
  assert (Hc_nonneg : (0 <= c)%R)
    by (unfold c, Rdiv; apply Rmult_le_pos; lra).
  assert (Hc_le : (c * (epsilon + n) = r_clip n 0 max_norm)%R)
    by (unfold c; field; lra).
  split; [split; [exact Hc_nonneg | nra] |].
  split; nra.
Qed.

(** X13.  With [max_norm >= 0] and [epsilon >= 0], [norm_constraint]
    multiplies every element of a slice whose [epsilon + norm] is positive
    by one factor between 0 and 1: the norm of the slice does not grow and
    does not exceed [max_norm] afterwards. *)
Theorem norm_constraint_bounds_norms
        (env : Env) (tensor_var : TensorVariable) (max_norm epsilon : R)
        (norm_axes : option (list Z)) (axes : list Z) (ax : list nat)
        (x : tensor) :
  sum_over (ndim tensor_var) norm_axes = inr axes ->
  eval env (tv_expr tensor_var) = Some x ->
  normalize_axes (length (shape x)) axes = Some ax ->
  (0 <= max_norm)%R -> (0 <= epsilon)%R ->
  exists out y,
    norm_constraint tensor_var max_norm norm_axes epsilon = inr out /\
    eval env out = Some y /\ shape y = shape x /\
    forall idx n,
      in_bounds (shape x) idx -> slice_norm ax x idx = Some n ->
      (0 < epsilon + n)%R ->
      exists c n',
        (0 <= c <= 1)%R /\
        (forall j v, In j (slice 0 ax (shape x) idx) ->
                     elem x j = Some v -> elem y j = Some (v * c)%R) /\
        slice_norm ax y idx = Some n' /\
        (n' <= n)%R /\ (n' <= max_norm)%R.
Proof.
  intros Haxes Hx Hax Hmax Heps.
  destruct (constrained_eval env (tv_expr tensor_var) x axes ax max_norm
              epsilon Hx Hax) as (y & Hy & Hshape & Helem).
  exists (constrained_output (tv_expr tensor_var) max_norm axes epsilon), y.
  split; [unfold norm_constraint; now rewrite Haxes |].
  split; [exact Hy |]. split; [exact Hshape |].
  intros idx n Hin Hn Hpos.
  pose proof (slice_norm_nonneg ax x idx n Hn) as Hn0.
  destruct (factor_bounds n max_norm epsilon Hn0 Hmax Heps Hpos)
    as (Hc & Hc01 & Hcn & Hcm).
  set (c := (r_clip n 0 max_norm / (epsilon + n))%R) in *.
  exists c, (c * n)%R. split; [exact Hc01 |]. split.
  - intros j v Hj Hv.
    pose proof (slice_in_bounds ax (shape x) idx Hin 0 j Hj) as Hinj.
    assert (Hnj : slice_norm ax x j = Some n)
      by (rewrite (slice_norm_same ax x idx j Hin Hj); exact Hn).
    exact (proj2 (rescaled_norm ax max_norm epsilon x y Hshape Helem j n c
                    Hinj Hnj Hc) v Hv).
  - destruct (rescaled_norm ax max_norm epsilon x y Hshape Helem idx n c
                Hin Hn Hc) as [Hnorm _].
    rewrite Hnorm, Rabs_pos_eq by lra. repeat split; assumption.
Qed.

Lemma norm_constraint_bounds_norms_witness :
  sum_over (ndim matrix_var) None = inr [0%Z] /\
  (0 <= 10)%R /\ (0 <= 1e-7)%R /\
  exists x out y c n',
    eval columns_env (tv_expr matrix_var) = Some x /\
    normalize_axes (length (shape x)) [0%Z] = Some [0] /\
    norm_constraint matrix_var 10 None 1e-7 = inr out /\
    eval columns_env out = Some y /\
    slice_norm [0] x [0; 0] = Some 20%R /\
    (0 <= c <= 1)%R /\
    elem y [1; 0] = Some (16 * c)%R /\
    slice_norm [0] y [0; 0] = Some n' /\
    (n' <= 20)%R /\ (n' <= 10)%R.
Proof.
  set (x := value_of {| nd_dtype := float64; nd_shape := [2; 2];
                        nd_data := [12; 3; 16; 4]%R |}).
  assert (Haxes : sum_over (ndim matrix_var) None = inr [0%Z]) by reflexivity.
  assert (Hx : eval columns_env (tv_expr matrix_var) = Some x) by reflexivity.
  assert (Hax : normalize_axes (length (shape x)) [0%Z] = Some [0])
    by reflexivity.
  assert (Hmax : (0 <= 10)%R) by lra.
  assert (Heps : (0 <= 1e-7)%R) by lra.
  assert (Hn : slice_norm [0] x [0; 0] = Some 20%R).
  { unfold x.
    rewrite (proj1 (column_norms float64 12 3 16 4 0 (le_S 1 1 (le_n 1)))).
    f_equal. replace (12 * 12 + 16 * 16)%R with (20 * 20)%R by lra.
    apply sqrt_square. lra. }
  split; [exact Haxes |]. split; [exact Hmax |]. split; [exact Heps |].
  destruct (norm_constraint_bounds_norms columns_env matrix_var 10 1e-7 None
              [0%Z] [0] x Haxes Hx Hax Hmax Heps)
    as (out & y & Hout & Hy & _ & Hslices).
  assert (Hin : in_bounds (shape x) [0; 0]) by (repeat constructor).
  assert (Hpos : (0 < 1e-7 + 20)%R) by lra.
  destruct (Hslices [0; 0] 20%R Hin Hn Hpos)
    as (c & n' & Hc & Hscaled & Hnorm & Hle & Hlm).
  exists x, out, y, c, n'.
  split; [exact Hx |]. split; [exact Hax |]. split; [exact Hout |].
  split; [exact Hy |]. split; [exact Hn |]. split; [exact Hc |].
  split; [| repeat split; assumption].
  apply (Hscaled [1; 0] 16%R); [simpl; tauto | reflexivity].
Defined.

(** X14.  With [max_norm >= 0] and [epsilon >= 0], a slice whose norm
    exceeds [max_norm] comes out with a norm between [max_norm - epsilon]
    and [max_norm]: within [epsilon] of the bound, as the docstring's
    example checks. *)
Theorem norm_constraint_near_max
        (env : Env) (tensor_var : TensorVariable) (max_norm epsilon : R)
        (norm_axes : option (list Z)) (axes : list Z) (ax : list nat)
        (x : tensor) :
  sum_over (ndim tensor_var) norm_axes = inr axes ->
  eval env (tv_expr tensor_var) = Some x ->
  normalize_axes (length (shape x)) axes = Some ax ->
  (0 <= max_norm)%R -> (0 <= epsilon)%R ->
  exists out y,
    norm_constraint tensor_var max_norm norm_axes epsilon = inr out /\
    eval env out = Some y /\
    forall idx n,
      in_bounds (shape x) idx -> slice_norm ax x idx = Some n ->
      (max_norm < n)%R ->
      slice_norm ax y idx = Some (max_norm * n / (epsilon + n))%R /\
      (max_norm - epsilon <= max_norm * n / (epsilon + n) <= max_norm)%R.
Proof.
  intros Haxes Hx Hax Hmax Heps.
  destruct (constrained_eval env (tv_expr tensor_var) x axes ax max_norm
              epsilon Hx Hax) as (y & Hy & Hshape & Helem).
  exists (constrained_output (tv_expr tensor_var) max_norm axes epsilon), y.
  split; [unfold norm_constraint; now rewrite Haxes |].
  split; [exact Hy |].
  intros idx n Hin Hn Hlt.
  assert (Hc : r_div (r_clip n 0 max_norm) (epsilon + n)
               = Some (max_norm / (epsilon + n))%R)
    by (rewrite r_clip_above by lra; apply r_div_defined; lra).
  destruct (rescaled_norm ax max_norm epsilon x y Hshape Helem idx n _
              Hin Hn Hc) as [Hnorm _].
  assert (Hinv : (0 < / (epsilon + n))%R)
    by (apply Rinv_0_lt_compat; lra).
  assert (Hunit : ((epsilon + n) * / (epsilon + n) = 1)%R)
    by (apply Rinv_r; lra).
  split.
  - rewrite Hnorm. f_equal. rewrite Rabs_pos_eq.
    + unfold Rdiv. ring.
    + unfold Rdiv. apply Rmult_le_pos; lra.
  - set (t := (/ (epsilon + n))%R) in *.
    assert (Hq : (max_norm * n / (epsilon + n))%R = (max_norm * (n * t))%R)
      by (unfold Rdiv, t; ring).
    rewrite Hq.
    assert (Hnt : (n * t = 1 - epsilon * t)%R) by nra.
    assert (Het : (0 <= epsilon * t)%R) by (apply Rmult_le_pos; lra).
    assert (Hmt : (max_norm * t <= 1)%R) by nra.
    rewrite Hnt. split; nra.
Qed.

Lemma norm_constraint_near_max_witness :
  sum_over (ndim matrix_var) None = inr [0%Z] /\
  (0 <= 10)%R /\ (0 <= 1e-7)%R /\
  exists x out y,
    eval columns_env (tv_expr matrix_var) = Some x /\
    normalize_axes (length (shape x)) [0%Z] = Some [0] /\
    norm_constraint matrix_var 10 None 1e-7 = inr out /\
    eval columns_env out = Some y /\
    slice_norm [0] x [0; 0] = Some 20%R /\
    slice_norm [0] y [0; 0] = Some (10 * 20 / (1e-7 + 20))%R /\
    (10 - 1e-7 <= 10 * 20 / (1e-7 + 20) <= 10)%R.
Proof.
  set (x := value_of {| nd_dtype := float64; nd_shape := [2; 2];
                        nd_data := [12; 3; 16; 4]%R |}).
  assert (Haxes : sum_over (ndim matrix_var) None = inr [0%Z]) by reflexivity.
  assert (Hx : eval columns_env (tv_expr matrix_var) = Some x) by reflexivity.
  assert (Hax : normalize_axes (length (shape x)) [0%Z] = Some [0])
    by reflexivity.
  assert (Hmax : (0 <= 10)%R) by lra.
  assert (Heps : (0 <= 1e-7)%R) by lra.
  assert (Hn : slice_norm [0] x [0; 0] = Some 20%R).
  { unfold x.
    rewrite (proj1 (column_norms float64 12 3 16 4 0 (le_S 1 1 (le_n 1)))).
    f_equal. replace (12 * 12 + 16 * 16)%R with (20 * 20)%R by lra.
    apply sqrt_square. lra. }
  split; [exact Haxes |]. split; [exact Hmax |]. split; [exact Heps |].
  destruct (norm_constraint_near_max columns_env matrix_var 10 1e-7 None
              [0%Z] [0] x Haxes Hx Hax Hmax Heps)
    as (out & y & Hout & Hy & Hslices).
  assert (Hin : in_bounds (shape x) [0; 0]) by (repeat constructor).
  assert (Hlt : (10 < 20)%R) by lra.
  destruct (Hslices [0; 0] 20%R Hin Hn Hlt) as [Hnorm Hnear].
  exists x, out, y.
  repeat split; try assumption; apply Hnear.
Defined.

Lemma sum_elems_total (f : index -> option R) (J : list index) :
  (forall j, In j J -> exists v, f j = Some v) ->
  exists t, sum_elems (map f J) = Some t.
Proof.
  induction J as [|i J IH]; intros Hdef; simpl.
  - now exists 0%R.
  - destruct (Hdef i (or_introl eq_refl)) as (a & ->).
    destruct (IH (fun j Hj => Hdef j (or_intror Hj))) as (b & ->).
    now exists (a + b)%R.
Qed.

Lemma slice_norm_total (ax : list nat) (a : tensor) (idx : index) :
  in_bounds (shape a) idx ->
  (forall j, in_bounds (shape a) j -> exists v, elem a j = Some v) ->
  exists n, slice_norm ax a idx = Some n.
Proof.
  intros Hin Hdef. rewrite slice_norm_unfold.
  destruct (sum_elems_total (squared (elem a)) (slice 0 ax (shape a) idx))
    as (t & Ht).
  - intros j Hj. unfold squared.
    destruct (Hdef j (slice_in_bounds ax _ idx Hin 0 j Hj)) as (v & ->).
    now eexists.
  - rewrite Ht. cbn [opt_bind].
    rewrite r_sqrt_defined by exact (sum_squares_nonneg _ _ t Ht).
    now eexists.
Qed.

(** X15.  With a positive [epsilon] and [max_norm >= 0], the output of
    [norm_constraint] on a tensor of real numbers is defined everywhere,
    and a slice of norm 0 comes out as zeros: the division by zero the
    guard is there for does not occur. *)
Theorem norm_constraint_guarded
        (env : Env) (tensor_var : TensorVariable) (max_norm epsilon : R)
        (norm_axes : option (list Z)) (axes : list Z) (ax : list nat)
        (x : tensor) :
  sum_over (ndim tensor_var) norm_axes = inr axes ->
  eval env (tv_expr tensor_var) = Some x ->
  normalize_axes (length (shape x)) axes = Some ax ->
  (forall idx, in_bounds (shape x) idx -> exists v, elem x idx = Some v) ->
  (0 <= max_norm)%R -> (0 < epsilon)%R ->
  exists out y,
    norm_constraint tensor_var max_norm norm_axes epsilon = inr out /\
    eval env out = Some y /\ shape y = shape x /\
    (forall idx, in_bounds (shape x) idx -> exists v, elem y idx = Some v) /\
    (forall idx, in_bounds (shape x) idx -> slice_norm ax x idx = Some 0%R ->
                 elem y idx = Some 0%R).
Proof.
  intros Haxes Hx Hax Hdef Hmax Heps.
  destruct (constrained_eval env (tv_expr tensor_var) x axes ax max_norm
              epsilon Hx Hax) as (y & Hy & Hshape & Helem).
  exists (constrained_output (tv_expr tensor_var) max_norm axes epsilon), y.
  split; [unfold norm_constraint; now rewrite Haxes |].
  split; [exact Hy |]. split; [exact Hshape |]. split.
  - intros idx Hin. rewrite (Helem idx Hin).
    destruct (Hdef idx Hin) as (v & ->).
    destruct (slice_norm_total ax x idx Hin Hdef) as (n & Hn).
    rewrite Hn. cbn [opt_bind]. unfold rescale.
    pose proof (slice_norm_nonneg ax x idx n Hn) as Hn0.
    rewrite r_div_defined by lra. cbn [opt_bind]. now eexists.
  - intros idx Hin Hn. rewrite (Helem idx Hin), Hn.
    destruct (Hdef idx Hin) as (v & ->). cbn [opt_bind]. unfold rescale.
    rewrite r_clip_within by lra. rewrite r_div_defined by lra.
    cbn [opt_bind]. f_equal. unfold Rdiv. ring.
Qed.

Lemma norm_constraint_guarded_witness :
  sum_over (ndim matrix_var) None = inr [0%Z] /\
  (0 <= 10)%R /\ (0 < 1e-7)%R /\
  exists x out y,
    eval zero_column_env (tv_expr matrix_var) = Some x /\
    normalize_axes (length (shape x)) [0%Z] = Some [0] /\
    (forall idx, in_bounds (shape x) idx -> exists v, elem x idx = Some v) /\
    norm_constraint matrix_var 10 None 1e-7 = inr out /\
    eval zero_column_env out = Some y /\
    slice_norm [0] x [0; 0] = Some 0%R /\
    elem y [0; 0] = Some 0%R /\ elem y [1; 0] = Some 0%R.
Proof.
  set (x := value_of {| nd_dtype := float64; nd_shape := [2; 2];
                        nd_data := [0; 3; 0; 4]%R |}).
  assert (Haxes : sum_over (ndim matrix_var) None = inr [0%Z]) by reflexivity.
  assert (Hx : eval zero_column_env (tv_expr matrix_var) = Some x)
    by reflexivity.
  assert (Hax : normalize_axes (length (shape x)) [0%Z] = Some [0])
    by reflexivity.
  assert (Hdef : forall idx, in_bounds (shape x) idx ->
                             exists v, elem x idx = Some v).
  { intros idx Hin. simpl in Hin.
    inversion Hin as [|i d idx1 shp1 Hi Hin1]; subst.
    inversion Hin1 as [|j d idx2 shp2 Hj Hin2]; subst.
    inversion Hin2; subst.
    destruct i as [|[|i]]; [| |lia];
      (destruct j as [|[|j]]; [| |lia]); simpl; eexists; reflexivity. }
  assert (Hmax : (0 <= 10)%R) by lra.
  assert (Heps : (0 < 1e-7)%R) by lra.
  assert (Hn : forall i, i < 2 -> slice_norm [0] x [i; 0] = Some 0%R).
  { intros i Hi. unfold x.
    rewrite (proj1 (column_norms float64 0 3 0 4 i Hi)).
    f_equal. replace (0 * 0 + 0 * 0)%R with 0%R by lra. apply sqrt_0. }
  split; [exact Haxes |]. split; [exact Hmax |]. split; [exact Heps |].
  destruct (norm_constraint_guarded zero_column_env matrix_var 10 1e-7 None
              [0%Z] [0] x Haxes Hx Hax Hdef Hmax Heps)
    as (out & y & Hout & Hy & _ & _ & Hzero).
  exists x, out, y.
  split; [exact Hx |]. split; [exact Hax |]. split; [exact Hdef |].
  split; [exact Hout |]. split; [exact Hy |].
  split; [apply Hn; lia |]. split.
  - apply Hzero; [repeat constructor | apply Hn; lia].
  - apply Hzero; [repeat constructor | apply Hn; lia].
Defined.

(** ** The first step after a call *)

Lemma ravel_bound (shp : list nat) (idx : index) :
  in_bounds shp idx ->
  forall offset, ravel shp idx offset < (offset + 1) * size shp.
Proof.
  induction 1 as [|i d idx shp Hlt _ IH]; intros offset; simpl.
  - lia.
  - specialize (IH (offset * d + i)). unfold size in *. simpl. nia.
Qed.

(** A new accumulator reads as zero at every index of its shape. *)
Lemma zeros_elem (shp : list nat) (dt : dtype) (idx : index) :
  in_bounds shp idx -> elem (value_of (zeros shp dt)) idx = Some 0%R.
Proof.
  intros Hin. simpl. apply nth_error_repeat.
  pose proof (ravel_bound shp idx Hin 0). lia.
Qed.

(** X16.  In the store a call leaves, the accumulators are zero, so the
    first step of [momentum] proposes what [sgd] proposes,
    [param - learning_rate * grad], and the first step of
    [nesterov_momentum] proposes
    [param - (1 + momentum) * learning_rate * grad]. *)
Theorem first_step_after_call
        (floatX : dtype) (loss : expr) (all_params : list var)
        (learning_rate momentum_ : R) (s : Store) :
  allocated s all_params ->
  exists plan_m plan_n s',
    momentum floatX loss all_params learning_rate momentum_ s
    = Some (plan_m, s') /\
    nesterov_momentum floatX loss all_params learning_rate momentum_ s
    = Some (plan_n, s') /\
    forall i p v,
      nth_error all_params i = Some p -> nth_error s p = Some v ->
      exists new_m new_n,
        nth_error plan_m (2 * i + 1) = Some (p, new_m) /\
        nth_error plan_n (2 * i + 1) = Some (p, new_n) /\
        forall grads grad_p idx x g,
          grads loss p = Some grad_p -> shape grad_p = nd_shape v ->
          in_bounds (nd_shape v) idx ->
          elem (value_of v) idx = Some x -> elem grad_p idx = Some g ->
          value_at (env_of s' grads) (nd_shape v) new_m idx
                   (Some (x - learning_rate * g)%R) /\
          value_at (env_of s' grads) (nd_shape v) new_n idx
                   (Some (x - (1 + momentum_) * (learning_rate * g))%R).
Proof.
  intros Hall.
  set (h := mk_hyper learning_rate momentum_ 0 0).
  set (s' := s ++ new_arrays floatX Momentum s all_params).
  exists (plan_of Momentum h loss all_params (length s)),
         (plan_of NesterovMomentum h loss all_params (length s)), s'.
  split; [exact (run_closed_form floatX h loss Momentum all_params s Hall) |].
  split;
    [exact (run_closed_form floatX h loss NesterovMomentum all_params s Hall) |].
  intros i p v Hi Hv.
  pose proof (nth_error_plan_of Momentum h loss all_params (length s) i 1 p Hi)
    as Hm.
  pose proof (nth_error_plan_of NesterovMomentum h loss all_params (length s)
                i 1 p Hi) as Hn.
  simpl multiplicity in *.
  eexists. eexists. split; [apply Hm; lia |]. split; [apply Hn; lia |].
  intros grads grad_p idx x g Hgrad Hshape Hin Hx Hg.
  set (env := env_of s' grads).
  assert (Hp : p < length s) by (apply nth_error_Some; congruence).
  assert (Hparam : shared_value env p = Some (value_of v)).
  { unfold env, env_of, s'. cbn [shared_value].
    now rewrite nth_error_app1, Hv by exact Hp. }
  assert (Hacc : shared_value env (length s + i)
                 = Some (value_of (zeros (nd_shape v) floatX))).
  { unfold env, env_of, s'. cbn [shared_value].
    pose proof (nth_error_new_arrays floatX Momentum s all_params i 0 p Hi)
      as Hnew.
    simpl in Hnew. rewrite Nat.add_0_r in Hnew.
    rewrite Hnew by lia. unfold zeros_for. now rewrite Hv. }
  assert (Hsh : shaped env (nd_shape v) loss p [length s + i]).
  { split.
    - intros v0 [<- | [<- | []]].
      + exists (value_of v). now split.
      + eexists. split; [exact Hacc | reflexivity].
    - exists grad_p. now split. }
  assert (Hx' : shared_at env idx p = Some x)
    by (unfold shared_at; now rewrite Hparam).
  assert (Hv0 : shared_at env idx (length s + i) = Some 0%R).
  { unfold shared_at. rewrite Hacc. cbn [opt_bind]. now apply zeros_elem. }
  assert (Hg' : grad_at env idx loss p = Some g).
  { unfold grad_at, env, env_of. cbn [grad_value]. now rewrite Hgrad. }
  clearbody env. unfold h. cbn [Rules.learning_rate momentum_coef].
  split.
  - entry_value Hsh. apply (value_at_eq _ _ _ _ _ _ Hval). f_equal. ring.
  - entry_value Hsh. apply (value_at_eq _ _ _ _ _ _ Hval). f_equal. ring.
Qed.

Lemma first_step_after_call_witness :
  allocated sample_store [0; 1] /\
  exists plan_m plan_n s' new_m new_n,
    momentum float32 (EShared 0) [0; 1] 0.1 0.9 sample_store
    = Some (plan_m, s') /\
    nesterov_momentum float32 (EShared 0) [0; 1] 0.1 0.9 sample_store
    = Some (plan_n, s') /\
    nth_error plan_m 1 = Some (0, new_m) /\
    nth_error plan_n 1 = Some (0, new_n) /\
    value_at (env_of s' (fun _ _ => Some (value_of (mk_ndarray float32 [2]
                                                               [2; 4]%R))))
             [2] new_m [1] (Some (7 - 0.1 * 4)%R) /\
    value_at (env_of s' (fun _ _ => Some (value_of (mk_ndarray float32 [2]
                                                               [2; 4]%R))))
             [2] new_n [1] (Some (7 - (1 + 0.9) * (0.1 * 4))%R).
Proof.
  assert (Hall : allocated sample_store [0; 1]) by (repeat constructor).
  split; [exact Hall |].
  destruct (first_step_after_call float32 (EShared 0) [0; 1] 0.1 0.9
              sample_store Hall) as (plan_m & plan_n & s' & Hm & Hn & Hent).
  destruct (Hent 0 0 _ eq_refl eq_refl) as (new_m & new_n & H1 & H2 & Hval).
  exists plan_m, plan_n, s', new_m, new_n.
  split; [exact Hm |]. split; [exact Hn |].
  split; [exact H1 |]. split; [exact H2 |].
  apply (Hval (fun _ _ => Some (value_of (mk_ndarray float32 [2] [2; 4]%R)))
              (value_of (mk_ndarray float32 [2] [2; 4]%R)) [1] 7%R 4%R).
  - reflexivity.
  - reflexivity.
  - repeat constructor.
  - reflexivity.
  - reflexivity.
Defined.

(** ** What the default axes group together *)

Lemma in_slice (ax : list nat) (shp : list nat) (idx : index) :
  in_bounds shp idx ->
  forall k j,
    In j (slice k ax shp idx)
    <-> in_bounds shp j /\
        forall m, m < length shp -> reduced ax (k + m) = false ->
                  nth m j 0 = nth m idx 0.
Proof.
  induction 1 as [|i d idx shp Hlt Hin IH]; intros k j.
  - simpl. split.
    + intros [<- | []]. split; [constructor | intros m Hm; lia].
    + intros [Hj _]. inversion Hj. now left.
  - simpl slice. destruct (reduced ax k) eqn:Ek.
    + rewrite in_flat_map. split.
      * intros (j0 & Hj0 & Hj). apply in_map_iff in Hj.
        destruct Hj as (j' & <- & Hj'). apply in_seq in Hj0.
        apply (IH (S k)) in Hj'. destruct Hj' as [Hb Heq].
        split; [constructor; [lia | exact Hb] |].
        intros [|m] Hm Hred.
        -- rewrite Nat.add_0_r in Hred. congruence.
        -- simpl. apply Heq; [simpl in Hm; lia |].
           now rewrite Nat.add_succ_comm.
      * intros [Hb Heq]. inversion Hb as [|j0 d' j' shp' Hj0 Hb']; subst.
        exists j0. split; [apply in_seq; lia |].
        apply in_map. apply (IH (S k)). split; [exact Hb' |].
        intros m Hm Hred. apply (Heq (S m)); [simpl; lia |].
        now rewrite <- Nat.add_succ_comm.
    + rewrite in_map_iff. split.
      * intros (j' & <- & Hj').
        apply (IH (S k)) in Hj'. destruct Hj' as [Hb Heq].
        split; [constructor; [exact Hlt | exact Hb] |].
        intros [|m] Hm Hred; [reflexivity |].
        simpl. apply Heq; [simpl in Hm; lia |].
        now rewrite Nat.add_succ_comm.
      * intros [Hb Heq]. inversion Hb as [|j0 d' j' shp' Hj0 Hb']; subst.
        exists j'. split.
        -- f_equal. symmetry. apply (Heq 0); [simpl; lia |].
           now rewrite Nat.add_0_r.
        -- apply (IH (S k)). split; [exact Hb' |].
           intros m Hm Hred. apply (Heq (S m)); [simpl; lia |].
           now rewrite <- Nat.add_succ_comm.
Qed.

(** X17.  The default axes are axes of the tensor they are chosen for, and
    they group its elements as the comments say: for a matrix the norm at
    an element is taken over its column (every row, the same index along
    axis 1); for ranks 3, 4 and 5 over the elements with the same index
    along axis 0. *)
Theorem default_axes_group
        (tensor_var : TensorVariable) (shp : list nat) :
  length shp = ndim tensor_var -> 2 <= ndim tensor_var <= 5 ->
  exists axes ax,
    sum_over (ndim tensor_var) None = inr axes /\
    normalize_axes (length shp) axes = Some ax /\
    forall idx j,
      in_bounds shp idx ->
      (In j (slice 0 ax shp idx)
       <-> in_bounds shp j /\
           if ndim tensor_var =? 2
           then nth 1 j 0 = nth 1 idx 0
           else nth 0 j 0 = nth 0 idx 0).
Proof.
  intros Hlen Hrank. rewrite Hlen.
  destruct (ndim tensor_var) as [|[|[|[|[|[|n]]]]]] eqn:En; try lia.
  - exists [0%Z], [0]. split; [reflexivity |]. split; [reflexivity |].
    intros idx j Hin. rewrite (in_slice [0] shp idx Hin 0 j). simpl.
    split; intros [Hb Heq]; (split; [exact Hb |]).
    + apply (Heq 1); [lia | reflexivity].
    + intros m Hm Hred. rewrite Hlen in Hm.
      destruct m as [|[|m]]; [discriminate Hred | exact Heq | lia].
  - exists [1%Z; 2%Z], [1; 2].
    split; [reflexivity |]. split; [reflexivity |].
    intros idx j Hin. rewrite (in_slice [1; 2] shp idx Hin 0 j). simpl.
    split; intros [Hb Heq]; (split; [exact Hb |]).
    + apply (Heq 0); [lia | reflexivity].
    + intros m Hm Hred. rewrite Hlen in Hm.
      destruct m as [|[|[|m]]];
        [exact Heq | discriminate Hred | discriminate Hred | lia].
  - exists [1%Z; 2%Z; 3%Z], [1; 2; 3].
    split; [reflexivity |]. split; [reflexivity |].
    intros idx j Hin. rewrite (in_slice [1; 2; 3] shp idx Hin 0 j). simpl.
    split; intros [Hb Heq]; (split; [exact Hb |]).
    + apply (Heq 0); [lia | reflexivity].
    + intros m Hm Hred. rewrite Hlen in Hm.
      destruct m as [|[|[|[|m]]]];
        [exact Heq | discriminate Hred | discriminate Hred
         | discriminate Hred | lia].
  - exists [1%Z; 2%Z; 3%Z; 4%Z], [1; 2; 3; 4].
    split; [reflexivity |]. split; [reflexivity |].
    intros idx j Hin. rewrite (in_slice [1; 2; 3; 4] shp idx Hin 0 j). simpl.
    split; intros [Hb Heq]; (split; [exact Hb |]).
    + apply (Heq 0); [lia | reflexivity].
    + intros m Hm Hred. rewrite Hlen in Hm.
      destruct m as [|[|[|[|[|m]]]]];
        [exact Heq | discriminate Hred | discriminate Hred
         | discriminate Hred | discriminate Hred | lia].
Qed.

Lemma default_axes_group_witness :
  length [2; 3] = ndim matrix_var /\ 2 <= ndim matrix_var <= 5 /\
  exists axes ax,
    sum_over (ndim matrix_var) None = inr axes /\
    normalize_axes (length [2; 3]) axes = Some ax /\
    forall idx j,
      in_bounds [2; 3] idx ->
      (In j (slice 0 ax [2; 3] idx)
       <-> in_bounds [2; 3] j /\
           if ndim matrix_var =? 2
           then nth 1 j 0 = nth 1 idx 0
           else nth 0 j 0 = nth 0 idx 0).
Proof.
  assert (Hlen : length [2; 3] = ndim matrix_var) by reflexivity.
  assert (Hrank : 2 <= ndim matrix_var <= 5) by (simpl; lia).
  split; [exact Hlen |]. split; [exact Hrank |].
  exact (default_axes_group matrix_var [2; 3] Hlen Hrank).
Defined.

(** ** The default axes and the check of the sum *)

(** X18.  The default axes always pass the axis check of [T.sum]: without
    [norm_axes] the only error [norm_constraint] can raise is its own
    unsupported-dimensionality [ValueError].  With or without [norm_axes],
    when the call returns under the check it returns the rescaled
    expression for the chosen axes, and its own [ValueError] is raised
    under the check exactly when it is raised without it. *)
Theorem default_axes_pass_check
        (tensor_var : TensorVariable) (max_norm : R)
        (norm_axes : option (list Z)) (epsilon : R) :
  norm_constraint_checked tensor_var max_norm None epsilon
  = norm_constraint tensor_var max_norm None epsilon /\
  norm_constraint_checked tensor_var max_norm None epsilon
  <> inl TheanoValueError /\
  (forall out,
      norm_constraint_checked tensor_var max_norm norm_axes epsilon = inr out ->
      norm_constraint tensor_var max_norm norm_axes epsilon = inr out) /\
  (forall msg,
      norm_constraint_checked tensor_var max_norm norm_axes epsilon
      = inl (ValueError msg)
      <-> norm_constraint tensor_var max_norm norm_axes epsilon
          = inl (ValueError msg)).
Proof.
  assert (Hdefault :
            norm_constraint_checked tensor_var max_norm None epsilon
            = norm_constraint tensor_var max_norm None epsilon).
  { unfold norm_constraint_checked, norm_constraint.
    destruct (ndim tensor_var) as [|[|[|[|[|[|n]]]]]]; reflexivity. }
  split; [exact Hdefault |]. split.
  - rewrite Hdefault. unfold norm_constraint.
    destruct (sum_over (ndim tensor_var) None) as [[msg|] | axes] eqn:E;
      try discriminate.
    exfalso. unfold sum_over in E.
    destruct (ndim tensor_var =? 2); [discriminate E |].
    destruct (existsb (Nat.eqb (ndim tensor_var)) [3; 4; 5]); discriminate E.
  - unfold norm_constraint_checked, norm_constraint.
    destruct (sum_over (ndim tensor_var) norm_axes) as [e | axes].
    + split; [intros out H; exact H | intros msg; reflexivity].
    + destruct (forallb (axis_in_rank (ndim tensor_var)) axes).
      * split; [intros out H; exact H | intros msg; reflexivity].
      * split; [intros out H; discriminate H |].
        intros msg. split; intros H; discriminate H.
Qed.
